(** * fields-visualizer: the field kernel, line tracer, sampler and
      equilibrium solver, embedded and verified

    Source files: [src/physics/field.ts], [src/physics/constants.ts],
    [src/physics/units.ts], [src/physics/types.ts],
    [src/components/FieldFlow.tsx], [src/components/FieldVectors.tsx],
    [src/components/ForceArrow.tsx], [src/components/ChargeAura.tsx],
    [src/components/FormulaPanel.tsx], [src/components/Sidebar.tsx],
    [src/components/ScenePanel.tsx], [src/state/store.ts],
    [src/utils/presets.ts].

    ** How the program is modelled

    - Numbers.  The sources compute on JavaScript numbers.  Every function
      is written once, against the interface [Number] of the operations the
      sources use ([+ - * /], unary minus, [Math.sqrt], [Math.abs], the
      comparisons), and read at two instances: [RNumber], the real numbers,
      where the algebraic statements are proved (module [Exact]), and
      [FNumber], IEEE-754 binary64, the numbers JavaScript really uses,
      where the functions run on concrete inputs (module [Binary64]).
      [Math.max], [Math.min], [Math.sign], [x ** 2] and the truthiness of a
      number are defined from the interface.  [Math.cos], [Math.sin],
      [Math.PI] and [Math.log10] ([Elementary]) exist at the reals; in
      doubles [engine64] tabulates the values the statements use.  A
      statement made for every instance of [Number] holds of the doubles
      too; a statement of module [Exact] on [R] holds in exact arithmetic,
      and the statements on [float] say what rounding and overflow change.
      Beyond rounding and overflow the two readings differ where an
      operation leaves its domain (a division by zero, the square root or
      the logarithm of a negative number): the sources guard every such
      operation but the division by [numSeeds - 1], and the statements over
      the reals keep to the guarded domain.
    - Data.  A position [[number, number, number]] is a triple, [Vector3]
      and [FieldSource] are records, [FieldMode] is an enumeration, a
      function that may [return null] returns an [option].
    - Loops.  [for (const s of sources)] is a fold over the list; a loop
      with a constant bound ([MAX_ITERATIONS], [MAX_STEPS_PER_DIRECTION])
      recurses on the number of passes left, a [break] ending the recursion;
      the loops [for (v = -gridSize; v <= gridSize; v += step)], whose number
      of passes depends on the numbers, take fuel and return [None] when it
      runs out.
    - [Math.random()] is read from a stream [random : nat -> T].
    - The seed count of [generateSphereShellSeeds] is a natural number.
    - The store.  The state of the Zustand store is a record, an action is
      a function from the state before to the state after, and [generateId],
      which reads the clock and [Math.random], is a parameter: the id it
      returns in [addSource], the sequence of ids it returns in
      [loadPreset].  A partial update ([Partial<...>]) is a record of
      options, [None] for a key that is absent.
    - Components.  Of a React component the numbers it computes are
      embedded (the memoized values, the sizes of what it draws), not the
      rendering. *)

From Stdlib Require Import Reals Lra Lia Psatz List ZArith Bool Arith.
From Stdlib Require Strings.String.
From Stdlib Require Import Floats.
Import ListNotations.

Set Implicit Arguments.

(** ** JavaScript numbers, as an interface *)

Class Number (T : Type) : Type := {
  ofZ : Z -> T;                 (* an integer literal *)
  add : T -> T -> T;
  sub : T -> T -> T;
  mul : T -> T -> T;
  div : T -> T -> T;
  opp : T -> T;                 (* unary minus *)
  sqrt : T -> T;                (* Math.sqrt *)
  abs : T -> T;                 (* Math.abs *)
  ltb : T -> T -> bool;         (* a < b *)
  leb : T -> T -> bool;         (* a <= b *)
  eqb : T -> T -> bool;         (* a === b *)
  ltInfinity : T -> bool        (* a < Infinity *)
}.

Declare Scope num_scope.
Delimit Scope num_scope with num.
Infix "+" := add : num_scope.
Infix "-" := sub : num_scope.
Infix "*" := mul : num_scope.
Infix "/" := div : num_scope.
Notation "- x" := (opp x) : num_scope.
Infix "<?" := ltb : num_scope.
Infix "<=?" := leb : num_scope.
Infix "=?" := eqb : num_scope.
Notation "x >? y" := (ltb y x) (only parsing) : num_scope.
Notation "x >=? y" := (leb y x) (only parsing) : num_scope.

(** The functions of [Math] that primitive floats do not provide: the
    exact reading has them, the reading in doubles has a table of the
    values the statements use ([engine64]). *)
Class Elementary (T : Type) : Type := {
  PI : T;                       (* Math.PI *)
  cos : T -> T;                 (* Math.cos *)
  sin : T -> T;                 (* Math.sin *)
  log10 : T -> T                (* Math.log10 *)
}.

Inductive FieldMode : Type := electric | gravity.

Section Numbers.

Context {T : Type} {NT : Number T}.
Local Open Scope num_scope.

(** The literals of the sources: an integer [m], and the decimal
    [m / 10^k] ([0.15] is [e_neg 15 2], [1e-15] is [e_neg 1 15]). *)
Definition lit (m : Z) : T := ofZ m.
Definition e_neg (m : Z) (k : Z) : T := ofZ m / ofZ (10 ^ k).

(** [Math.max(a, b)]: the larger one, and NaN as soon as one argument is
    NaN (the only number that is not [===] to itself). *)
Definition max (a b : T) : T :=
  if negb (a =? a) then a
  else if negb (b =? b) then b
  else if a <? b then b else a.

(** [Math.min(a, b)]. *)
Definition min (a b : T) : T :=
  if negb (a =? a) then a
  else if negb (b =? b) then b
  else if b <? a then b else a.

(** [Math.sign(x)]: 1, -1, or [x] itself when it is a zero or NaN. *)
Definition sign (x : T) : T :=
  if lit 0 <? x then lit 1
  else if x <? lit 0 then - lit 1
  else x.

(** [x ** 2]. *)
Definition sq (x : T) : T := x * x.

(** A number used as a condition ([a || b]): false for zeros and NaN. *)
Definition truthy (x : T) : bool := negb (x =? lit 0) && (x =? x).

End Numbers.

(** ** src/physics: types.ts, constants.ts, units.ts, field.ts *)

Section Kernel.

Context {T : Type} {NT : Number T}.
Local Open Scope num_scope.

(** *** types.ts *)

Definition Position : Type := T * T * T.

Record FieldSource : Type := {
  id : String.string;
  position : Position;
  value : T
  (* kind: "source", the only value of its type *)
}.

Record Vector3 : Type := { x : T; y : T; z : T }.

(** *** constants.ts, units.ts *)

Definition COULOMB_CONSTANT : T := lit 8990000000.        (* 8.99e9 *)
Definition GRAVITATIONAL_CONSTANT : T := e_neg 6674 14.   (* 6.674e-11 *)
Definition MIN_DISTANCE : T := e_neg 1 1.                 (* 0.1 *)
Definition METERS_PER_SCENE_UNIT : T := e_neg 1 1.        (* 0.1 *)

Definition sceneToMeters (pos : Position) : Position :=
  let '(p0, p1, p2) := pos in
  (p0 * METERS_PER_SCENE_UNIT, p1 * METERS_PER_SCENE_UNIT, p2 * METERS_PER_SCENE_UNIT).

Definition metersToScene (pos : Position) : Position :=
  let '(p0, p1, p2) := pos in
  (p0 / METERS_PER_SCENE_UNIT, p1 / METERS_PER_SCENE_UNIT, p2 / METERS_PER_SCENE_UNIT).

(** *** field.ts *)

Definition distance (p1 p2 : Position) : T :=
  let '(a0, a1, a2) := p1 in
  let '(b0, b1, b2) := p2 in
  let dx := b0 - a0 in
  let dy := b1 - a1 in
  let dz := b2 - a2 in
  sqrt (dx * dx + dy * dy + dz * dz).

Definition unitVector (from to : Position) : Position :=
  let '(f0, f1, f2) := from in
  let '(t0, t1, t2) := to in
  let dx := t0 - f0 in
  let dy := t1 - f1 in
  let dz := t2 - f2 in
  let r := max (distance from to) MIN_DISTANCE in
  (dx / r, dy / r, dz / r).

(** The distance of a source from the query point, in meters, as the loops
    of the kernel clamp it. *)
Definition rMetersOf (pointMeters sourceMeters : Position) : T :=
  max (distance pointMeters sourceMeters) (MIN_DISTANCE * METERS_PER_SCENE_UNIT).

(** One pass of the loop of [computeElectricFieldAtPoint]: what one source
    adds to [Ex], [Ey], [Ez]. *)
Definition electricContribution (pointMeters : Position) (source : FieldSource) : Vector3 :=
  let sourceMeters := sceneToMeters (position source) in
  let rMeters := rMetersOf pointMeters sourceMeters in
  let rSquaredMeters := rMeters * rMeters in
  let magnitude := (COULOMB_CONSTANT * value source) / rSquaredMeters in
  let '(ux, uy, uz) := unitVector sourceMeters pointMeters in
  {| x := magnitude * ux; y := magnitude * uy; z := magnitude * uz |}.

Definition vadd (a b : Vector3) : Vector3 :=
  {| x := x a + x b; y := y a + y b; z := z a + z b |}.

Definition vzero : Vector3 := {| x := lit 0; y := lit 0; z := lit 0 |}.

Definition computeElectricFieldAtPoint (point : Position) (sources : list FieldSource)
    : Vector3 :=
  let pointMeters := sceneToMeters point in
  fold_left (fun E source => vadd E (electricContribution pointMeters source)) sources vzero.

(** One pass of the loop of [computeGravitationalFieldAtPoint]. *)
Definition gravitationalContribution (pointMeters : Position) (source : FieldSource) : Vector3 :=
  let sourceMeters := sceneToMeters (position source) in
  let rMeters := rMetersOf pointMeters sourceMeters in
  let rSquaredMeters := rMeters * rMeters in
  let magnitude := (GRAVITATIONAL_CONSTANT * value source) / rSquaredMeters in
  let '(ux, uy, uz) := unitVector pointMeters sourceMeters in
  {| x := magnitude * ux; y := magnitude * uy; z := magnitude * uz |}.

Definition computeGravitationalFieldAtPoint (point : Position) (sources : list FieldSource)
    : Vector3 :=
  let pointMeters := sceneToMeters point in
  fold_left (fun G source => vadd G (gravitationalContribution pointMeters source)) sources vzero.

(** The dispatch on the mode that every caller of the two functions writes
    out ([mode === 'electric' ? ... : ...]). *)
Definition fieldAt (mode : FieldMode) (point : Position) (sources : list FieldSource)
    : Vector3 :=
  match mode with
  | electric => computeElectricFieldAtPoint point sources
  | gravity => computeGravitationalFieldAtPoint point sources
  end.

Definition fieldMagnitude (field : Vector3) : T :=
  sqrt (sq (x field) + sq (y field) + sq (z field)).

Definition computeForceOnTestCharge (point : Position) (testValue : T) (mode : FieldMode)
    (sources : list FieldSource) : Vector3 :=
  let field := fieldAt mode point sources in
  {| x := x field * testValue; y := y field * testValue; z := z field * testValue |}.

Definition computeElectricPotentialAtPoint (point : Position) (sources : list FieldSource)
    : T :=
  let pointMeters := sceneToMeters point in
  fold_left (fun potential source =>
      let sourceMeters := sceneToMeters (position source) in
      let rMeters := rMetersOf pointMeters sourceMeters in
      potential + (COULOMB_CONSTANT * value source) / rMeters)
    sources (lit 0).

Definition computeGravitationalPotentialAtPoint (point : Position) (sources : list FieldSource)
    : T :=
  let pointMeters := sceneToMeters point in
  fold_left (fun potential source =>
      let sourceMeters := sceneToMeters (position source) in
      let rMeters := rMetersOf pointMeters sourceMeters in
      potential - (GRAVITATIONAL_CONSTANT * value source) / rMeters)
    sources (lit 0).

Definition computePotentialDifference (point1 point2 : Position) (mode : FieldMode)
    (sources : list FieldSource) : T :=
  let '(potential1, potential2) :=
    match mode with
    | electric =>
        (computeElectricPotentialAtPoint point1 sources,
         computeElectricPotentialAtPoint point2 sources)
    | gravity =>
        (computeGravitationalPotentialAtPoint point1 sources,
         computeGravitationalPotentialAtPoint point2 sources)
    end in
  potential2 - potential1.

(** **** findEquilibriumPoint *)

Definition MAX_ITERATIONS : nat := 10.
Definition TOLERANCE : T := e_neg 1 15.                   (* 1e-15 *)

(** The refinement loop [for (iter = 0; iter < MAX_ITERATIONS; iter++)],
    with [iters] passes left. *)
Fixpoint refine (iters : nat) (sources : list FieldSource) (equilibriumScene : Position)
    : Position :=
  match iters with
  | O => equilibriumScene
  | S iters' =>
      let field := computeElectricFieldAtPoint equilibriumScene sources in
      let fieldMag := fieldMagnitude field in
      if fieldMag <? TOLERANCE then equilibriumScene
      else if fieldMag <? e_neg 1 20 then equilibriumScene
      else
        let stepSize := fieldMag * e_neg 1 6 in
        let stepDirection : Position :=
          (- x field / fieldMag, - y field / fieldMag, - z field / fieldMag) in
        let '(d0, d1, d2) := stepDirection in
        let stepScene : Position :=
          (d0 * stepSize / METERS_PER_SCENE_UNIT,
           d1 * stepSize / METERS_PER_SCENE_UNIT,
           d2 * stepSize / METERS_PER_SCENE_UNIT) in
        let '(s0, s1, s2) := stepScene in
        let '(e0, e1, e2) := equilibriumScene in
        refine iters' sources (e0 + s0, e1 + s1, e2 + s2)
  end.

(** The closed-form estimate, in meters; [None] is the source's
    [return null]. *)
Definition closedForm (q1 q2 : FieldSource) : option Position :=
  let p1 := position q1 in
  let p2 := position q2 in
  let p1Meters := sceneToMeters p1 in
  let p2Meters := sceneToMeters p2 in
  let d := distance p1Meters p2Meters in
  if d <? MIN_DISTANCE * METERS_PER_SCENE_UNIT then None
  else
    let q1Mag := abs (value q1) in
    let q2Mag := abs (value q2) in
    let q1Sign := sign (value q1) in
    let q2Sign := sign (value q2) in
    let areLikeCharges := q1Sign * q2Sign >? lit 0 in
    let '(ux, uy, uz) := unitVector p1Meters p2Meters in
    let '(a0, a1, a2) := p1Meters in
    let '(b0, b1, b2) := p2Meters in
    if areLikeCharges then
      let sqrtQ1 := sqrt q1Mag in
      let sqrtQ2 := sqrt q2Mag in
      let denominator := sqrtQ1 + sqrtQ2 in
      if denominator =? lit 0 then None
      else
        let r1 := (sqrtQ1 / denominator) * d in
        Some (a0 + ux * r1, a1 + uy * r1, a2 + uz * r1)
    else
      let weakerIsQ1 := q1Mag <? q2Mag in
      let weakMag := if weakerIsQ1 then q1Mag else q2Mag in
      let strongMag := if weakerIsQ1 then q2Mag else q1Mag in
      let sqrtWeak := sqrt weakMag in
      let sqrtStrong := sqrt strongMag in
      let denominator := sqrtStrong - sqrtWeak in
      if denominator <=? lit 0 then None
      else
        let x := (sqrtWeak * d) / denominator in
        if weakerIsQ1 then Some (a0 - ux * x, a1 - uy * x, a2 - uz * x)
        else Some (b0 + ux * x, b1 + uy * x, b2 + uz * x).

Definition findEquilibriumPoint (sources : list FieldSource) (mode : FieldMode)
    : option Position :=
  match sources, mode with
  | [q1; q2], electric =>
      match closedForm q1 q2 with
      | None => None
      | Some eqMeters =>
          let '(m0, m1, m2) := eqMeters in
          let equilibriumScene : Position :=
            (m0 / METERS_PER_SCENE_UNIT, m1 / METERS_PER_SCENE_UNIT, m2 / METERS_PER_SCENE_UNIT) in
          Some (refine MAX_ITERATIONS sources equilibriumScene)
      end
  | _, _ => None
  end.

End Kernel.

Arguments Position T : clear implicits.
Arguments FieldSource T : clear implicits.
Arguments Vector3 T : clear implicits.

(** [TestCharge] of types.ts.  Its fields have the names of the fields of
    [FieldSource]; they are [TestCharge.position] and [TestCharge.value]. *)
Module TestCharge.

Record t (T : Type) : Type := { position : Position T; value : T }.

End TestCharge.

(** ** src/components/FieldFlow.tsx: seeds and field lines *)

Module FieldFlow.

Inductive Direction : Type := forward | backward.   (* direction: 1 | -1 *)

Section Tracer.

Context {T : Type} {NT : Number T}.
Local Open Scope num_scope.

Definition SEED_SPHERE_RADIUS : T := lit 6.
Definition DEFAULT_DENSITY : nat := 200.
Definition MAX_STEPS_PER_DIRECTION : nat := 600.
Definition STEP_SIZE : T := e_neg 5 2.                    (* 0.05 *)
Definition MIN_FIELD_MAGNITUDE : T := e_neg 1 15.         (* 1e-15 *)
Definition MIN_DISTANCE_FROM_SOURCE : T := e_neg 15 2.    (* 0.15 *)
Definition TRACE_BOUNDS : T := lit 20.
Definition MIN_LINE_POINTS : nat := 20.                   (* points.length >= 20 *)

Definition directionSign (direction : Direction) : T :=
  match direction with forward => lit 1 | backward => - lit 1 end.

Definition distance (p1 p2 : Position T) : T :=
  let '(a0, a1, a2) := p1 in
  let '(b0, b1, b2) := p2 in
  let dx := b0 - a0 in
  let dy := b1 - a1 in
  let dz := b2 - a2 in
  sqrt (dx * dx + dy * dy + dz * dz).

Definition normalize (v : Vector3 T) : Vector3 T :=
  let mag := sqrt (x v * x v + y v * y v + z v * z v) in
  if mag <? e_neg 1 10 then {| x := lit 0; y := lit 0; z := lit 0 |}
  else {| x := x v / mag; y := y v / mag; z := z v / mag |}.

Definition isOutsideBounds (pos : Position T) : bool :=
  let '(p0, p1, p2) := pos in
  (abs p0 >? TRACE_BOUNDS) || (abs p1 >? TRACE_BOUNDS) || (abs p2 >? TRACE_BOUNDS).

(** [for (const source of sources) if (dist < ...) return true]. *)
Definition isTooCloseToSource (pos : Position T) (sources : list (FieldSource T)) : bool :=
  existsb (fun source => distance pos (position source) <? MIN_DISTANCE_FROM_SOURCE) sources.

(** The loop of [traceInDirection] with [steps] passes left; the result is
    the list of the points pushed from here on. *)
Fixpoint traceLoop (steps : nat) (pos : Position T) (sources : list (FieldSource T))
    (mode : FieldMode) (direction : Direction) : list (Position T) :=
  match steps with
  | O => []
  | S steps' =>
      if isOutsideBounds pos then []
      else if isTooCloseToSource pos sources then []
      else
        let field := fieldAt mode pos sources in
        let fieldMag := fieldMagnitude field in
        if fieldMag <? MIN_FIELD_MAGNITUDE then []
        else
          pos ::
          (let dir := normalize field in
           if (x dir =? lit 0) && (y dir =? lit 0) && (z dir =? lit 0) then []
           else
             let '(p0, p1, p2) := pos in
             traceLoop steps'
               (p0 + x dir * STEP_SIZE * directionSign direction,
                p1 + y dir * STEP_SIZE * directionSign direction,
                p2 + z dir * STEP_SIZE * directionSign direction)
               sources mode direction)
  end.

Definition traceInDirection (startPos : Position T) (sources : list (FieldSource T))
    (mode : FieldMode) (direction : Direction) : list (Position T) :=
  traceLoop MAX_STEPS_PER_DIRECTION startPos sources mode direction.

Definition traceFieldLine (seed : Position T) (sources : list (FieldSource T))
    (mode : FieldMode) : list (Position T) :=
  if isTooCloseToSource seed sources then []
  else
    let pointsForward := traceInDirection seed sources mode forward in
    let pointsBackward := traceInDirection seed sources mode backward in
    rev pointsBackward ++ seed :: pointsForward.

(** One entry of [fieldLines]. *)
Record Line : Type := { points : list (Position T); phaseOffset : T }.

(** The body of [for (const seed of seeds)] in the [useMemo] of
    [FieldFlow]; [random k] is what the [k]-th call of [Math.random]
    returns. *)
Definition keepLine (sources : list (FieldSource T)) (mode : FieldMode) (random : nat -> T)
    (lines : list Line) (seed : Position T) : list Line :=
  let points := traceFieldLine seed sources mode in
  if (MIN_LINE_POINTS <=? length points)%nat
  then lines ++ [{| points := points; phaseOffset := random (length lines) |}]
  else lines.

(** The height [y] of seed [i] on the unit sphere. *)
Definition shellY (numSeeds i : nat) : T :=
  lit 1 - (lit (Z.of_nat i) / (lit (Z.of_nat numSeeds) - lit 1)) * lit 2.

Context {ET : Elementary T}.

Definition goldenAngle : T := PI * (lit 3 - sqrt (lit 5)).

(** The seed that pass [i] of the loop of [generateSphereShellSeeds]
    builds. *)
Definition shellSeed (numSeeds i : nat) : Position T :=
  let y := shellY numSeeds i in
  let radius := sqrt (lit 1 - y * y) in
  let theta := goldenAngle * lit (Z.of_nat i) in
  let x := cos theta * radius in
  let z := sin theta * radius in
  (x * SEED_SPHERE_RADIUS, y * SEED_SPHERE_RADIUS, z * SEED_SPHERE_RADIUS).

(** [numSeeds] is the number of seeds asked for, a whole number. *)
Definition generateSphereShellSeeds (sources : list (FieldSource T)) (numSeeds : nat)
    : list (Position T) :=
  fold_left (fun seeds i =>
      let seed := shellSeed numSeeds i in
      let tooClose :=
        existsb (fun source => distance seed (position source) <? MIN_DISTANCE_FROM_SOURCE)
          sources in
      if negb tooClose then seeds ++ [seed] else seeds)
    (seq 0 numSeeds) [].

(** The [useMemo] of the component [FieldFlow]. *)
Definition fieldLines (enabled : bool) (sources : list (FieldSource T)) (mode : FieldMode)
    (density : nat) (random : nat -> T) : list Line :=
  if negb enabled || (length sources =? 0)%nat then []
  else
    let seeds := generateSphereShellSeeds sources density in
    fold_left (keepLine sources mode random) seeds [].

End Tracer.

End FieldFlow.

(** ** src/components/FieldVectors.tsx: the lattice and the arrows *)

Module FieldVectors.

Section Sampler.

Context {T : Type} {NT : Number T}.
Local Open Scope num_scope.

Record GridStep : Type := { step_x : T; step_y : T; step_z : T }.

Definition GRID_STEP : GridStep := {| step_x := lit 2; step_y := lit 2; step_z := lit 2 |}.
Definition MAX_ARROWS : nat := 500.
Definition MIN_FIELD_THRESHOLD : T := e_neg 1 10.         (* 1e-10 *)
Definition MIN_DISTANCE_FROM_SOURCE : T := e_neg 8 1.     (* 0.8 *)
Definition BASE_ARROW_LENGTH : T := e_neg 6 1.            (* 0.6 *)
Definition SUBTLE_LENGTH_SCALING : T := e_neg 13 1.       (* 1.3 *)

(** The values the variable of [for (let v = lo; v <= hi; v += step)]
    takes; [None] when the loop is still running after [fuel] passes. *)
Fixpoint forValues (fuel : nat) (v hi step : T) : option (list T) :=
  match fuel with
  | O => None
  | S fuel' =>
      if v <=? hi then
        match forValues fuel' (v + step) hi step with
        | Some vs => Some (v :: vs)
        | None => None
        end
      else Some []
  end.

(** [points.filter((_, index) => index % skipFactor === 0)], for the
    elements from index [index] on. *)
Fixpoint filterIndex {A : Type} (skipFactor index : nat) (points : list A) : list A :=
  match points with
  | [] => []
  | p :: rest =>
      if (index mod skipFactor =? 0)%nat
      then p :: filterIndex skipFactor (S index) rest
      else filterIndex skipFactor (S index) rest
  end.

(** [Math.ceil(a / b)] on array lengths. *)
Definition ceilDiv (a b : nat) : nat := ((a + (b - 1)) / b)%nat.

Definition thin {A : Type} (points : list A) : list A :=
  if (MAX_ARROWS <? length points)%nat then
    let skipFactor := ceilDiv (length points) MAX_ARROWS in
    filterIndex skipFactor 0 points
  else points.

Definition generateGridPoints (fuel : nat) (gridSize : T) : option (list (Position T)) :=
  match forValues fuel (- gridSize) gridSize (step_x GRID_STEP),
        forValues fuel (- gridSize) gridSize (step_y GRID_STEP),
        forValues fuel (- gridSize) gridSize (step_z GRID_STEP) with
  | Some xs, Some ys, Some zs =>
      let points :=
        flat_map (fun x => flat_map (fun y => map (fun z => (x, y, z)) zs) ys) xs in
      Some (thin points)
  | _, _, _ => None
  end.

Definition distance (p1 p2 : Position T) : T :=
  let '(a0, a1, a2) := p1 in
  let '(b0, b1, b2) := p2 in
  let dx := b0 - a0 in
  let dy := b1 - a1 in
  let dz := b2 - a2 in
  sqrt (dx * dx + dy * dy + dz * dz).

Record Dominant : Type := { sourceIndex : nat; contribution : T }.

(** The [contribution] of one source in the loop of [findDominantSource]
    (the two branches on the mode are the same expression). *)
Definition contributionAt (point : Position T) (mode : FieldMode) (source : FieldSource T)
    : T :=
  let r := max (distance point (position source)) (e_neg 1 1) in
  let rSquared := r * r in
  match mode with
  | electric => abs (value source) / rSquared
  | gravity => abs (value source) / rSquared
  end.

(** The loop [for (let i = 0; i < sources.length; i++)] from index [i] on;
    [rest] are the sources not visited yet. *)
Fixpoint dominantLoop (point : Position T) (mode : FieldMode) (i : nat)
    (rest : list (FieldSource T)) (maxContribution : T) (dominantIndex : nat) : Dominant :=
  match rest with
  | [] => {| sourceIndex := dominantIndex; contribution := maxContribution |}
  | source :: rest' =>
      let contribution := contributionAt point mode source in
      if contribution >? maxContribution
      then dominantLoop point mode (S i) rest' contribution i
      else dominantLoop point mode (S i) rest' maxContribution dominantIndex
  end.

Definition findDominantSource (point : Position T) (sources : list (FieldSource T))
    (mode : FieldMode) : option Dominant :=
  if (length sources =? 0)%nat then None
  else Some (dominantLoop point mode 0 sources (lit 0) 0).

Record ArrowData : Type := {
  arrow_position : Position T;
  arrow_field : Vector3 T;
  magnitude : T
}.

Record FieldData : Type := {
  arrowData : list ArrowData;
  maxMagnitude : T;
  minMagnitude : T
}.

(** The state of the first pass: [arrowDataArray], [maxMagnitude] and
    [minMagnitude], which starts as [Infinity] ([None] here). *)
Definition PassState : Type := (list ArrowData * T * option T)%type.

Definition belowMin (magnitude : T) (minMagnitude : option T) : bool :=
  match minMagnitude with
  | None => ltInfinity magnitude
  | Some m => magnitude <? m
  end.

(** The body of [for (const point of gridPoints)]. *)
Definition samplePoint (sources : list (FieldSource T)) (mode : FieldMode)
    (st : PassState) (point : Position T) : PassState :=
  let '(arrowDataArray, maxMagnitude, minMagnitude) := st in
  let tooClose :=
    existsb (fun source => distance point (position source) <? MIN_DISTANCE_FROM_SOURCE)
      sources in
  if tooClose then st
  else
    let field := fieldAt mode point sources in
    let magnitude := fieldMagnitude field in
    let maxMagnitude' := if magnitude >? maxMagnitude then magnitude else maxMagnitude in
    let minMagnitude' :=
      if belowMin magnitude minMagnitude && (magnitude >? MIN_FIELD_THRESHOLD)
      then Some magnitude else minMagnitude in
    (arrowDataArray ++
       [{| arrow_position := point; arrow_field := field; magnitude := magnitude |}],
     maxMagnitude', minMagnitude').

Definition finishPass (st : PassState) : FieldData :=
  let '(arrowDataArray, maxMagnitude, minMagnitude) := st in
  {| arrowData := arrowDataArray;
     maxMagnitude := maxMagnitude;
     minMagnitude := match minMagnitude with None => maxMagnitude | Some m => m end |}.

Definition samplePass (sources : list (FieldSource T)) (mode : FieldMode)
    (gridPoints : list (Position T)) : FieldData :=
  finishPass (fold_left (samplePoint sources mode) gridPoints ([], lit 0, None)).

(** The [useMemo] of the component [FieldVectors]. *)
Definition fieldData (fuel : nat) (enabled : bool) (sources : list (FieldSource T))
    (mode : FieldMode) (gridSize : T) : option FieldData :=
  if negb enabled || (length sources =? 0)%nat
  then Some {| arrowData := []; maxMagnitude := lit 0; minMagnitude := lit 0 |}
  else
    match generateGridPoints fuel gridSize with
    | Some gridPoints => Some (samplePass sources mode gridPoints)
    | None => None
    end.

(** [FieldArrow] draws nothing for [magnitude < MIN_FIELD_THRESHOLD]. *)
Definition rendered (magnitude : T) : bool := negb (magnitude <? MIN_FIELD_THRESHOLD).

(** The sizes of the cylinder and the cone [FieldArrow] draws. *)
Record ArrowShape : Type := {
  arrowLength : T;
  headLength : T;
  headWidth : T;
  shaftLength : T
}.

(** [FieldArrow], up to the sizes; [None] is its [return null]. *)
Definition fieldArrow (field : Vector3 T) (strength fieldDisplayScale : T)
    : option ArrowShape :=
  let magnitude := sqrt (sq (x field) + sq (y field) + sq (z field)) in
  if magnitude <? MIN_FIELD_THRESHOLD then None
  else
    let lengthMultiplier :=
      if SUBTLE_LENGTH_SCALING >? lit 1
      then lit 1 + strength * (SUBTLE_LENGTH_SCALING - lit 1)
      else lit 1 in
    let arrowLength := BASE_ARROW_LENGTH * lengthMultiplier * fieldDisplayScale in
    let headLength := e_neg 25 2 * arrowLength in
    let headWidth := e_neg 15 2 * arrowLength in
    let shaftLength := arrowLength - headLength in
    Some {| arrowLength := arrowLength; headLength := headLength;
            headWidth := headWidth; shaftLength := shaftLength |}.

Context {ET : Elementary T}.

(** The [normalizedStrength] the component computes for one arrow. *)
Definition normalizedStrength (fd : FieldData) (magnitude : T) : T :=
  if (maxMagnitude fd >? lit 0) && (magnitude >? lit 0) then
    let effectiveMin :=
      max (if truthy (minMagnitude fd) then minMagnitude fd
           else maxMagnitude fd * e_neg 1 6)
          MIN_FIELD_THRESHOLD in
    let logMin := log10 effectiveMin in
    let logMax := log10 (maxMagnitude fd) in
    let logMag := log10 magnitude in
    if logMax >? logMin then
      max (lit 0) (min (lit 1) ((logMag - logMin) / (logMax - logMin)))
    else if magnitude >=? maxMagnitude fd then lit 1 else e_neg 5 1
  else lit 0.

End Sampler.

End FieldVectors.

(** ** ForceArrow.tsx: the arrow on the test charge *)

Module ForceArrow.

Section Arrow.

Context {T : Type} {NT : Number T} {ET : Elementary T}.
Local Open Scope num_scope.

Definition MIN_FORCE_LENGTH : T := e_neg 2 1.             (* 0.2 *)
Definition MAX_FORCE_LENGTH : T := e_neg 15 1.            (* 1.5 *)

(** The sizes of the cylinder and the cone the component draws. *)
Record ArrowShape : Type := {
  length : T;
  headLength : T;
  headWidth : T;
  shaftLength : T
}.

(** The component up to the sizes; [None] is its [return null]. *)
Definition forceArrow (testCharge : TestCharge.t T) (mode : FieldMode)
    (sources : list (FieldSource T)) (enabled : bool) : option ArrowShape :=
  if negb enabled || (List.length sources =? 0)%nat then None
  else
    let force :=
      computeForceOnTestCharge (TestCharge.position testCharge) (TestCharge.value testCharge)
        mode sources in
    let magnitude := sqrt (sq (x force) + sq (y force) + sq (z force)) in
    if magnitude <? e_neg 1 12 then None
    else
      let logForce := log10 (max magnitude (e_neg 1 15)) in
      let logMin := log10 (e_neg 1 15) in
      let logMax := log10 (e_neg 1 6) in
      let normalizedStrength :=
        max (lit 0) (min (lit 1) ((logForce - logMin) / (logMax - logMin))) in
      let length := MIN_FORCE_LENGTH + normalizedStrength * (MAX_FORCE_LENGTH - MIN_FORCE_LENGTH) in
      let headLength := e_neg 25 2 * length in
      let headWidth := e_neg 15 2 * length in
      let shaftLength := length - headLength in
      Some {| length := length; headLength := headLength;
              headWidth := headWidth; shaftLength := shaftLength |}.

End Arrow.

End ForceArrow.

(** ** ChargeAura.tsx: the radius of the aura *)

Module ChargeAura.

Section Aura.

Context {T : Type} {NT : Number T}.
Local Open Scope num_scope.

Definition BASE_RADIUS : T := e_neg 5 1.                  (* 0.5 *)
Definition MAX_VALUE_TO_VISUALIZE : T := lit 10.
Definition SCALE_FACTOR : T := e_neg 15 2.                (* 0.15 *)

Definition targetRadius (value : T) : T :=
  let baseRadius := BASE_RADIUS in
  let clampedValue := min (abs value) MAX_VALUE_TO_VISUALIZE in
  let extraRadius := SCALE_FACTOR * clampedValue in
  baseRadius + extraRadius.

End Aura.

End ChargeAura.

(** ** FormulaPanel.tsx: the numbers the panel substitutes *)

Module FormulaPanel.

(** One entry of [sourceDistances]. *)
Module SourceDistance.

Record t (T : Type) : Type := {
  source : FieldSource T;
  distance : T;
  distanceSquared : T
}.

End SourceDistance.

(** The object [liveValues]. *)
Module LiveValues.

Record t (T : Type) : Type := {
  nearestSource : FieldSource T;
  r : T;
  rSquared : T;
  fieldMagnitude : T;
  forceMagnitude : T;
  sourceFieldMagnitude : T;
  potential : T;
  sourcePotential : T;
  potentialDifference : T;
  sourceDistances : list (SourceDistance.t T);
  distanceBetweenSources : option T
}.

End LiveValues.

Section Panel.

Context {T : Type} {NT : Number T}.
Local Open Scope num_scope.

Definition distance (p1 p2 : Position T) : T :=
  let '(a0, a1, a2) := p1 in
  let '(b0, b1, b2) := p2 in
  let dx := b0 - a0 in
  let dy := b1 - a1 in
  let dz := b2 - a2 in
  sqrt (dx * dx + dy * dy + dz * dz).

(** The loop of [findNearestSource]: the state is [(nearest, minDist)]. *)
Definition nearer (testPosition : Position T) (st : FieldSource T * T)
    (source : FieldSource T) : FieldSource T * T :=
  let '(nearest, minDist) := st in
  let dist := distance testPosition (position source) in
  if dist <? minDist then (source, dist) else (nearest, minDist).

Definition findNearestSource (testPosition : Position T) (sources : list (FieldSource T))
    : option (FieldSource T) :=
  match sources with
  | [] => None
  | first :: _ =>
      Some (fst (fold_left (nearer testPosition) sources
                   (first, distance testPosition (position first))))
  end.

(** [Math.sqrt(v.x ** 2 + v.y ** 2 + v.z ** 2)], written out five times in
    the panel. *)
Definition magnitudeOf (v : Vector3 T) : T := sqrt (sq (x v) + sq (y v) + sq (z v)).

(** The [useMemo] that computes [liveValues]; [None] is its [null]. *)
Definition liveValues (mode : FieldMode) (sources : list (FieldSource T))
    (testCharge : option (TestCharge.t T)) : option (LiveValues.t T) :=
  match testCharge with
  | None => None
  | Some testCharge =>
      if (length sources =? 0)%nat then None
      else
        match findNearestSource (TestCharge.position testCharge) sources with
        | None => None
        | Some nearestSource =>
            let testPosMeters := sceneToMeters (TestCharge.position testCharge) in
            let sourcePosMeters := sceneToMeters (position nearestSource) in
            let rMeters := distance testPosMeters sourcePosMeters in
            let rSquared := rMeters * rMeters in
            let fieldMagnitude :=
              match mode with
              | electric =>
                  magnitudeOf
                    (computeElectricFieldAtPoint (TestCharge.position testCharge) sources)
              | gravity =>
                  magnitudeOf
                    (computeGravitationalFieldAtPoint (TestCharge.position testCharge) sources)
              end in
            let force :=
              computeForceOnTestCharge (TestCharge.position testCharge)
                (TestCharge.value testCharge) mode sources in
            let forceMagnitude := magnitudeOf force in
            let sourceFieldMagnitude :=
              match mode with
              | electric =>
                  magnitudeOf
                    (computeElectricFieldAtPoint (TestCharge.position testCharge)
                       [nearestSource])
              | gravity =>
                  magnitudeOf
                    (computeGravitationalFieldAtPoint (TestCharge.position testCharge)
                       [nearestSource])
              end in
            let potential :=
              match mode with
              | electric =>
                  computeElectricPotentialAtPoint (TestCharge.position testCharge) sources
              | gravity =>
                  computeGravitationalPotentialAtPoint (TestCharge.position testCharge) sources
              end in
            let sourcePotential :=
              match mode with
              | electric =>
                  computeElectricPotentialAtPoint (TestCharge.position testCharge)
                    [nearestSource]
              | gravity =>
                  computeGravitationalPotentialAtPoint (TestCharge.position testCharge)
                    [nearestSource]
              end in
            let origin : Position T := (lit 0, lit 0, lit 0) in
            let potentialAtOrigin :=
              match mode with
              | electric => computeElectricPotentialAtPoint origin sources
              | gravity => computeGravitationalPotentialAtPoint origin sources
              end in
            let potentialDifference := potential - potentialAtOrigin in
            let sourceDistances :=
              map (fun source =>
                  let sourcePosMeters := sceneToMeters (position source) in
                  let distMeters := distance testPosMeters sourcePosMeters in
                  {| SourceDistance.source := source;
                     SourceDistance.distance := distMeters;
                     SourceDistance.distanceSquared := distMeters * distMeters |})
                sources in
            let distanceBetweenSources :=
              match sources with
              | [source1; source2] =>
                  let source1PosMeters := sceneToMeters (position source1) in
                  let source2PosMeters := sceneToMeters (position source2) in
                  Some (distance source1PosMeters source2PosMeters)
              | _ => None
              end in
            Some {| LiveValues.nearestSource := nearestSource;
                    LiveValues.r := rMeters;
                    LiveValues.rSquared := rSquared;
                    LiveValues.fieldMagnitude := fieldMagnitude;
                    LiveValues.forceMagnitude := forceMagnitude;
                    LiveValues.sourceFieldMagnitude := sourceFieldMagnitude;
                    LiveValues.potential := potential;
                    LiveValues.sourcePotential := sourcePotential;
                    LiveValues.potentialDifference := potentialDifference;
                    LiveValues.sourceDistances := sourceDistances;
                    LiveValues.distanceBetweenSources := distanceBetweenSources |}
        end
  end.

End Panel.

End FormulaPanel.

(** ** src/state/store.ts, utils/presets.ts: the store and its actions *)

(** [Partial<Pick<FieldSource, 'position' | 'value'>>]: a key that is absent
    is [None]. *)
Module SourceUpdates.

Record t (T : Type) : Type := { position : option (Position T); value : option T }.

End SourceUpdates.

(** [Partial<TestCharge>]. *)
Module TestChargeUpdates.

Record t (T : Type) : Type := { position : option (Position T); value : option T }.

End TestChargeUpdates.

(** [Omit<FieldSource, 'id'>], a source of a preset. *)
Module PresetSource.

Record t (T : Type) : Type := { position : Position T; value : T }.

End PresetSource.

Module PresetConfig.

Record t (T : Type) : Type := {
  mode : option FieldMode;
  sources : list (PresetSource.t T);
  testCharge : option (TestCharge.t T)
}.

End PresetConfig.

Module Store.

Section Actions.

Context {T : Type}.

(** The state of the store.  An action is a function from the state before
    to the state after ([set] merges the keys it is given into the state). *)
Record FieldStore : Type := {
  mode : FieldMode;
  sources : list (FieldSource T);
  testCharge : option (TestCharge.t T)
}.

Definition initial : FieldStore :=
  {| mode := electric; sources := []; testCharge := None |}.

Definition setMode (mode' : FieldMode) (state : FieldStore) : FieldStore :=
  {| mode := mode'; sources := sources state; testCharge := testCharge state |}.

(** [newId] is what the call of [generateId] returns (it reads the clock and
    [Math.random]). *)
Definition addSource (newId : String.string) (pos : Position T) (v : T)
    (state : FieldStore) : FieldStore :=
  {| mode := mode state;
     sources := sources state ++ [{| id := newId; position := pos; value := v |}];
     testCharge := testCharge state |}.

(** [{ ...source, ...updates }]. *)
Definition mergeSource (source : FieldSource T) (updates : SourceUpdates.t T)
    : FieldSource T :=
  {| id := id source;
     position := match SourceUpdates.position updates with
                 | Some pos => pos
                 | None => position source
                 end;
     value := match SourceUpdates.value updates with
              | Some v => v
              | None => value source
              end |}.

Definition updateSource (id' : String.string) (updates : SourceUpdates.t T)
    (state : FieldStore) : FieldStore :=
  {| mode := mode state;
     sources := map (fun source =>
                  if String.eqb (id source) id' then mergeSource source updates else source)
                  (sources state);
     testCharge := testCharge state |}.

Definition removeSource (id' : String.string) (state : FieldStore) : FieldStore :=
  {| mode := mode state;
     sources := filter (fun source => negb (String.eqb (id source) id')) (sources state);
     testCharge := testCharge state |}.

Definition setTestCharge (pos : Position T) (v : T) (state : FieldStore) : FieldStore :=
  {| mode := mode state;
     sources := sources state;
     testCharge := Some {| TestCharge.position := pos; TestCharge.value := v |} |}.

(** [{ ...state.testCharge, ...updates }]. *)
Definition mergeTestCharge (testCharge : TestCharge.t T) (updates : TestChargeUpdates.t T)
    : TestCharge.t T :=
  {| TestCharge.position := match TestChargeUpdates.position updates with
                            | Some pos => pos
                            | None => TestCharge.position testCharge
                            end;
     TestCharge.value := match TestChargeUpdates.value updates with
                         | Some v => v
                         | None => TestCharge.value testCharge
                         end |}.

Definition updateTestCharge (updates : TestChargeUpdates.t T) (state : FieldStore)
    : FieldStore :=
  {| mode := mode state;
     sources := sources state;
     testCharge := match testCharge state with
                   | Some testCharge => Some (mergeTestCharge testCharge updates)
                   | None => None
                   end |}.

Definition removeTestCharge (state : FieldStore) : FieldStore :=
  {| mode := mode state; sources := sources state; testCharge := None |}.

(** [preset.sources.map(source => ({ ...source, id: generateId() }))]:
    [generateId k] is what the [k]-th call returns. *)
Fixpoint withIds (generateId : nat -> String.string) (k : nat)
    (presetSources : list (PresetSource.t T)) : list (FieldSource T) :=
  match presetSources with
  | [] => []
  | source :: rest =>
      {| id := generateId k;
         position := PresetSource.position source;
         value := PresetSource.value source |} :: withIds generateId (S k) rest
  end.

Definition loadPreset (generateId : nat -> String.string) (preset : PresetConfig.t T)
    (state : FieldStore) : FieldStore :=
  let sourcesWithIds := withIds generateId 0 (PresetConfig.sources preset) in
  {| mode := match PresetConfig.mode preset with
             | Some mode' => mode'
             | None => mode state
             end;
     sources := sourcesWithIds;
     testCharge := PresetConfig.testCharge preset |}.

End Actions.

Arguments FieldStore T : clear implicits.

End Store.

(** ** Sidebar.tsx, ScenePanel.tsx: the handlers that call the store

    A handler reads [mode], [sources] and [testCharge] from the state the
    component was rendered with and then calls an action; here both are the
    same state. *)

Module Sidebar.

Section Handlers.

Context {T : Type} {NT : Number T}.

Definition handleAddSource (newId : String.string) (state : Store.FieldStore T)
    : Store.FieldStore T :=
  let defaultValue :=
    match Store.mode state with electric => e_neg 1 9 | gravity => lit 5 end in
  Store.addSource newId (lit 0, lit 0, lit 0) defaultValue state.

Definition handleAddTestCharge (state : Store.FieldStore T) : Store.FieldStore T :=
  let defaultValue :=
    match Store.mode state with electric => e_neg 1 12 | gravity => lit 1 end in
  Store.setTestCharge (lit 0, lit 0, lit 0) defaultValue state.

Definition handlePlaceAtEquilibrium (state : Store.FieldStore T) : Store.FieldStore T :=
  match findEquilibriumPoint (Store.sources state) (Store.mode state) with
  | Some equilibriumPos =>
      let testValue :=
        match Store.testCharge state with
        | Some testCharge => TestCharge.value testCharge
        | None => match Store.mode state with electric => e_neg 1 12 | gravity => lit 1 end
        end in
      Store.setTestCharge equilibriumPos testValue state
  | None => state
  end.

End Handlers.

End Sidebar.

Module ScenePanel.

Section Handlers.

Context {T : Type}.

Definition handleSourcePositionChange (id' : String.string) (pos : Position T)
    (state : Store.FieldStore T) : Store.FieldStore T :=
  Store.updateSource id'
    {| SourceUpdates.position := Some pos; SourceUpdates.value := None |} state.

Definition handleTestChargePositionChange (pos : Position T) (state : Store.FieldStore T)
    : Store.FieldStore T :=
  match Store.testCharge state with
  | Some _ =>
      Store.updateTestCharge
        {| TestChargeUpdates.position := Some pos; TestChargeUpdates.value := None |} state
  | None => state
  end.

End Handlers.

End ScenePanel.

(** ** The two readings of [Number] *)

(** *** Exact real arithmetic *)

Definition Rltb (a b : R) : bool := if Rlt_dec a b then true else false.
Definition Rleb (a b : R) : bool := if Rle_dec a b then true else false.
Definition Reqb (a b : R) : bool := if Req_dec_T a b then true else false.

#[export] Instance RNumber : Number R := {|
  ofZ := IZR;
  add := Rplus;
  sub := Rminus;
  mul := Rmult;
  div := Rdiv;
  opp := Ropp;
  sqrt := R_sqrt.sqrt;
  abs := Rabs;
  ltb := Rltb;
  leb := Rleb;
  eqb := Reqb;
  ltInfinity := fun _ => true
|}.

#[export] Instance RElementary : Elementary R := {|
  PI := Rtrigo1.PI;
  cos := Rtrigo_def.cos;
  sin := Rtrigo_def.sin;
  log10 := fun a => (ln a / ln 10)%R
|}.

(** *** IEEE-754 binary64 *)

(** An integer literal: the odd part through [of_uint63], the power of two
    by exact doublings.  Exact for every literal of the sources (their odd
    parts are below [2^53]). *)
Fixpoint float_of_pos (p : positive) : float :=
  match p with
  | xO q => PrimFloat.mul 2 (float_of_pos q)
  | _ => PrimFloat.of_uint63 (Uint63.of_pos p)
  end.

Definition float_of_Z (n : Z) : float :=
  match n with
  | Z0 => 0%float
  | Zpos p => float_of_pos p
  | Zneg p => PrimFloat.opp (float_of_pos p)
  end.

#[export] Instance FNumber : Number float := {|
  ofZ := float_of_Z;
  add := PrimFloat.add;
  sub := PrimFloat.sub;
  mul := PrimFloat.mul;
  div := PrimFloat.div;
  opp := PrimFloat.opp;
  sqrt := PrimFloat.sqrt;
  abs := PrimFloat.abs;
  ltb := PrimFloat.ltb;
  leb := PrimFloat.leb;
  eqb := PrimFloat.eqb;
  ltInfinity := fun a => PrimFloat.ltb a infinity
|}.

(** [true] on the finite numbers: neither an infinity nor NaN. *)
Definition isFinite (a : float) : bool :=
  negb (PrimFloat.is_nan a) && negb (PrimFloat.is_infinity a).

(** Concrete inputs in double precision. *)
Definition source64 (px py pz v : float) : FieldSource float :=
  {| id := String.EmptyString; position := (px, py, pz); value := v |}.

(** The double nearest to [1e300], the value of the literal [1e300]. *)
Definition huge : float := 0x1.7e43c8800759cp+996%float.

(** [1e-9], the default charge the editor gives a new source. *)
Definition nano : float := e_neg 1 9.

(** [Math.PI], and [Math.cos] and [Math.sin] as a table: primitive floats
    have no trigonometric functions, so the table holds what the engine
    returns at the one argument the statements in doubles use, the golden
    angle [Math.PI * (3 - Math.sqrt(5))] = 2.399963229728653, namely
    [-0.7373688780783197] and [0.6754902942615238]; elsewhere, and for
    [Math.log10], it holds nothing (NaN). *)
Definition engine64 : Elementary float := {|
  PI := 0x1.921fb54442d18p+1%float;
  cos := fun t => if PrimFloat.eqb t 0x1.3331febfa4bfbp+1 then (-0x1.798869e0de833p-1)%float
                  else nan;
  sin := fun t => if PrimFloat.eqb t 0x1.3331febfa4bfbp+1 then 0x1.59d9dd253cc13p-1%float
                  else nan;
  log10 := fun _ => nan
|}.

(** ** Vocabulary of the statements over the real numbers *)

Section Vocabulary.

Local Open Scope R_scope.

(** The Euclidean norm, as [distance] and [fieldMagnitude] compute it. *)
Definition norm3 (a b c : R) : R := R_sqrt.sqrt (a * a + b * b + c * c).

(** The magnitude of what one source of value [v] adds to the field at
    distance [d] (in meters), for the force-law constant [K]: the
    inverse-square magnitude over the clamped distance, times the length of
    the vector [unitVector] returns. *)
Definition clampedMagnitude (K v d : R) : R :=
  K * Rabs v / (Rmax d (1 / 100) * Rmax d (1 / 100)) * (d / Rmax d (1 / 10)).

(** The lattice of [generateGridPoints], in the words of the spec: on each
    axis the values [-gridSize + 2 j] that do not exceed [gridSize], and
    every triple of them, x outermost. *)
Definition perAxis (gridSize : R) : nat := S (Z.to_nat (Int_part gridSize)).

Definition axisSpec (gridSize : R) : list R :=
  map (fun j => - gridSize + 2 * INR j) (seq 0 (perAxis gridSize)).

Definition latticeSpec (gridSize : R) : list (Position R) :=
  flat_map (fun x => flat_map (fun y => map (fun z => (x, y, z)) (axisSpec gridSize))
                       (axisSpec gridSize))
    (axisSpec gridSize).

(** The number of elements [FieldVectors.filterIndex] passes over before
    it keeps one, when the next element has index [index]. *)
Definition toSkip (skipFactor index : nat) : nat :=
  if (index mod skipFactor =? 0)%nat then 0%nat
  else (skipFactor - index mod skipFactor)%nat.

(** The sum of the absolute values of the sources, and the constant of
    the force law of a mode. *)
Definition totalAbsValue (sources : list (FieldSource R)) : R :=
  fold_right (fun source acc => Rabs (value source) + acc) 0 sources.

Definition modeConstant (mode : FieldMode) : R :=
  match mode with
  | electric => COULOMB_CONSTANT
  | gravity => GRAVITATIONAL_CONSTANT
  end.

(** Concrete inputs. *)
Definition origin : Position R := (0, 0, 0).
Definition sourceAt (px : R) (v : R) : FieldSource R :=
  {| id := String.EmptyString; position := (px, 0, 0); value := v |}.
Definition unitCharge : FieldSource R := sourceAt 0 1.

(** A source at the top of the sphere of the seeds. *)
Definition topSource : FieldSource R :=
  {| id := String.EmptyString; position := (0, 6, 0); value := 1 |}.

(** What the first pass of the sampler maintains: [maxM] bounds every
    magnitude and is attained (or still 0), and [minM] is the least
    magnitude above the floor, if there is one. *)
Definition tracked (st : FieldVectors.PassState (T:=R)) : Prop :=
  let '(arrows, maxM, minM) := st in
  (forall a : FieldVectors.ArrowData (T:=R), In a arrows ->
     0 <= FieldVectors.magnitude a <= maxM) /\
  (maxM = 0 \/
   exists a : FieldVectors.ArrowData (T:=R), In a arrows /\ FieldVectors.magnitude a = maxM) /\
  match minM with
  | None =>
      forall a : FieldVectors.ArrowData (T:=R), In a arrows ->
        FieldVectors.magnitude a <= FieldVectors.MIN_FIELD_THRESHOLD
  | Some m =>
      FieldVectors.MIN_FIELD_THRESHOLD < m /\
      (exists a : FieldVectors.ArrowData (T:=R), In a arrows /\ FieldVectors.magnitude a = m) /\
      (forall a : FieldVectors.ArrowData (T:=R), In a arrows ->
         FieldVectors.MIN_FIELD_THRESHOLD < FieldVectors.magnitude a ->
         m <= FieldVectors.magnitude a)
  end.

(** The charge at the origin whose field is [2e-10] at two scene units and
    [1e-10], the floor of the sampler, at [2 sqrt 2]. *)
Definition gridCharge : FieldSource R := sourceAt 0 (8 / 1000000000000 / 8990000000).

(** The sources with every value multiplied by [c]. *)
Definition scaleValues (c : R) (sources : list (FieldSource R)) : list (FieldSource R) :=
  map (fun s => {| id := id s; position := position s; value := c * value s |}) sources.

(** The point of the line through [p1] and [p2] at parameter [t]: [p1] at
    0, [p2] at 1. *)
Definition onLine (p1 p2 : Position R) (t : R) : Position R :=
  let '(a0, a1, a2) := p1 in
  let '(b0, b1, b2) := p2 in
  (a0 + t * (b0 - a0), a1 + t * (b1 - a1), a2 + t * (b2 - a2)).


(** One step of the tracer from [a] to [b]: the field at [a] is at least
    [1e-10], [b] is [a] moved by [STEP_SIZE] along the normalized field
    ([sigma] is 1 forward and -1 backward), and the two points are
    [STEP_SIZE] apart. *)
Definition eulerStep (sources : list (FieldSource R)) (mode : FieldMode) (sigma : R)
    (a b : Position R) : Prop :=
  let F := fieldAt mode a sources in
  let m := fieldMagnitude F in
  1 / 10000000000 <= m /\
  b = (fst (fst a) + x F / m * (5 / 100) * sigma,
       snd (fst a) + y F / m * (5 / 100) * sigma,
       snd a + z F / m * (5 / 100) * sigma) /\
  distance a b = 5 / 100.

(** Every two neighbours of a list are related by [step]. *)
Fixpoint chained (A : Type) (step : A -> A -> Prop) (l : list A) : Prop :=
  match l with
  | a :: (b :: _) as rest => step a b /\ chained step rest
  | _ => True
  end.

(** The three tests a pass of [FieldFlow.traceInDirection] makes before it
    pushes the point. *)
Definition stopsAt {T : Type} {NT : Number T} (pos : Position T)
    (sources : list (FieldSource T)) (mode : FieldMode) : bool :=
  FieldFlow.isOutsideBounds pos || FieldFlow.isTooCloseToSource pos sources ||
  ltb (fieldMagnitude (fieldAt mode pos sources)) FieldFlow.MIN_FIELD_MAGNITUDE.

(** The arrow the sampler records at a point. *)
Definition arrowAt {T : Type} {NT : Number T} (sources : list (FieldSource T))
    (mode : FieldMode) (point : Position T) : FieldVectors.ArrowData (T:=T) :=
  {| FieldVectors.arrow_position := point;
     FieldVectors.arrow_field := fieldAt mode point sources;
     FieldVectors.magnitude := fieldMagnitude (fieldAt mode point sources) |}.

(** The test of the sampler: no source within [MIN_DISTANCE_FROM_SOURCE]. *)
Definition clearOfSources {T : Type} {NT : Number T} (sources : list (FieldSource T))
    (point : Position T) : bool :=
  negb (existsb (fun source =>
          ltb (FieldVectors.distance point (position source))
              FieldVectors.MIN_DISTANCE_FROM_SOURCE) sources).

(** The tests of [findEquilibriumPoint] on a pair of sources, as the code
    computes them: [d < MIN_DISTANCE * METERS_PER_SCENE_UNIT];
    [areLikeCharges]; the denominator [sqrtQ1 + sqrtQ2] of the like-signed
    branch; the denominator [sqrtStrong - sqrtWeak] of the other branch. *)
Definition closerThanFloor {T : Type} {NT : Number T} (q1 q2 : FieldSource T) : bool :=
  ltb (distance (sceneToMeters (position q1)) (sceneToMeters (position q2)))
      (mul MIN_DISTANCE METERS_PER_SCENE_UNIT).

Definition areLikeCharges {T : Type} {NT : Number T} (q1 q2 : FieldSource T) : bool :=
  ltb (lit 0) (mul (sign (value q1)) (sign (value q2))).

Definition rootSum {T : Type} {NT : Number T} (q1 q2 : FieldSource T) : T :=
  add (sqrt (abs (value q1))) (sqrt (abs (value q2))).

Definition rootGap {T : Type} {NT : Number T} (q1 q2 : FieldSource T) : T :=
  let q1Mag := abs (value q1) in
  let q2Mag := abs (value q2) in
  let weakerIsQ1 := ltb q1Mag q2Mag in
  sub (sqrt (if weakerIsQ1 then q2Mag else q1Mag))
      (sqrt (if weakerIsQ1 then q1Mag else q2Mag)).

(** The loop variable of [for (let v = lo; v <= hi; v += step)] after [k]
    passes, and the triples of the values of an axis, x outermost, as the
    three nested loops of [generateGridPoints] push them. *)
Fixpoint stepped {T : Type} {NT : Number T} (k : nat) (v step : T) : T :=
  match k with
  | O => v
  | S k' => stepped k' (add v step) step
  end.

Definition cube {A : Type} (vs : list A) : list (A * A * A) :=
  flat_map (fun x => flat_map (fun y => map (fun z => (x, y, z)) vs) vs) vs.

End Vocabulary.

(** ** Vocabulary of the statements in double precision *)

(** The classes of a double, read on its specification [Prim2SF]: a zero
    or a finite number; anything but NaN; a zero, a positive number or
    [+Infinity]; a positive number or [+Infinity]. *)
Definition SFfinite (x : spec_float) : Prop :=
  match x with S754_zero _ | S754_finite _ _ _ => True | _ => False end.

Definition SFnotnan (x : spec_float) : Prop :=
  match x with S754_nan => False | _ => True end.

Definition SFnonneg (x : spec_float) : Prop :=
  match x with
  | S754_zero _ | S754_finite false _ _ | S754_infinity false => True
  | _ => False
  end.

Definition SFpositive (x : spec_float) : Prop :=
  match x with S754_finite false _ _ | S754_infinity false => True | _ => False end.

(** A position, a vector, a source of finite numbers. *)
Definition finite3 (p : Position float) : bool :=
  let '(p0, p1, p2) := p in isFinite p0 && isFinite p1 && isFinite p2.

Definition finiteVector (v : Vector3 float) : bool :=
  isFinite (x v) && isFinite (y v) && isFinite (z v).

Definition finiteSource (s : FieldSource float) : bool :=
  finite3 (position s) && isFinite (value s).

Definition components (v : Vector3 float) : list float := [x v; y v; z v].

(** None of the results is an infinity: no operation overflowed. *)
Definition noOverflow (results : list float) : bool :=
  forallb (fun a => negb (PrimFloat.is_infinity a)) results.

(** The results of the operations of one pass of a field loop, in the
    order of the operations: for the constant [K] of the force law, the
    value of the source, the clamped distance [r] and the unit vector from
    [from] to [to]. *)
Definition passResults (K value r : float) (from to : Position float) : list float :=
  let magnitude := div (mul K value) (mul r r) in
  let u := unitVector from to in
  [mul K value; magnitude;
   sub (fst (fst to)) (fst (fst from)); sub (snd (fst to)) (snd (fst from));
   sub (snd to) (snd from);
   fst (fst u); snd (fst u); snd u;
   mul magnitude (fst (fst u)); mul magnitude (snd (fst u)); mul magnitude (snd u)].

(** The results of the operations of the pass of a field loop for the source
    [s], the query point being [p]. *)
Definition fieldPassResults (mode : FieldMode) (p : Position float) (s : FieldSource float)
    : list float :=
  let pm := sceneToMeters p in
  let sm := sceneToMeters (position s) in
  match mode with
  | electric => passResults COULOMB_CONSTANT (value s) (rMetersOf pm sm) sm pm
  | gravity => passResults GRAVITATIONAL_CONSTANT (value s) (rMetersOf pm sm) pm sm
  end.

(** What one pass of the loop of [fieldAt] adds to the running sum. *)
Definition passContribution (mode : FieldMode) (p : Position float) (s : FieldSource float)
    : Vector3 float :=
  match mode with
  | electric => electricContribution (sceneToMeters p) s
  | gravity => gravitationalContribution (sceneToMeters p) s
  end.

(** No operation of the field loop over [sources] gives an infinity, the
    running sum being [acc] before the first pass. *)
Fixpoint fieldLoopNoOverflow (mode : FieldMode) (p : Position float) (acc : Vector3 float)
    (sources : list (FieldSource float)) : bool :=
  match sources with
  | [] => true
  | s :: rest =>
      let next := vadd acc (passContribution mode p s) in
      noOverflow (fieldPassResults mode p s) && noOverflow (components next) &&
      fieldLoopNoOverflow mode p next rest
  end.

(** One pass of a potential loop: the term of the source [s] and the new
    running sum. *)
Definition potentialTerm (mode : FieldMode) (p : Position float) (s : FieldSource float)
    : float :=
  let r := rMetersOf (sceneToMeters p) (sceneToMeters (position s)) in
  match mode with
  | electric => div (mul COULOMB_CONSTANT (value s)) r
  | gravity => div (mul GRAVITATIONAL_CONSTANT (value s)) r
  end.

Definition potentialPass (mode : FieldMode) (p : Position float) (acc : float)
    (s : FieldSource float) : float :=
  match mode with
  | electric => add acc (potentialTerm mode p s)
  | gravity => sub acc (potentialTerm mode p s)
  end.

(** No operation of the potential loop over [sources] gives an infinity. *)
Fixpoint potentialLoopNoOverflow (mode : FieldMode) (p : Position float) (acc : float)
    (sources : list (FieldSource float)) : bool :=
  match sources with
  | [] => true
  | s :: rest =>
      let product := match mode with
                     | electric => mul COULOMB_CONSTANT (value s)
                     | gravity => mul GRAVITATIONAL_CONSTANT (value s)
                     end in
      noOverflow [product; potentialTerm mode p s; potentialPass mode p acc s] &&
      potentialLoopNoOverflow mode p (potentialPass mode p acc s) rest
  end.

(** * Properties *)

(** ** The step budget of the tracer (any reading of the numbers) *)

Section TracerFacts.

Context {T : Type} {NT : Number T}.
Import FieldFlow.

Lemma traceLoop_length (steps : nat) :
  forall (pos : Position T) sources mode direction,
    (length (traceLoop steps pos sources mode direction) <= steps)%nat.
Proof.
  induction steps as [|n IH]; intros pos sources mode direction.
  - apply Nat.le_refl.
  - cbn [traceLoop].
    destruct (isOutsideBounds pos); [cbn; lia|].
    destruct (isTooCloseToSource pos sources); [cbn; lia|].
    destruct (ltb _ MIN_FIELD_MAGNITUDE); [cbn; lia|].
    cbn [length]. apply le_n_S.
    destruct (_ && _); [cbn; lia|].
    destruct pos as [[p0 p1] p2]. apply IH.
Qed.

(** C6 -- Whatever the seed, the sources, the mode and the direction,
    [traceInDirection] returns (it is a total function: its loop recurses
    on the step budget) at most [MAX_STEPS_PER_DIRECTION] = 600 positions,
    and the line [traceFieldLine] assembles has at most
    [2 * MAX_STEPS_PER_DIRECTION + 1] points. *)
Theorem trace_within_step_budget :
  forall (seed : Position T) (sources : list (FieldSource T)) (mode : FieldMode)
         (direction : Direction),
    MAX_STEPS_PER_DIRECTION = 600%nat /\
    (length (traceInDirection seed sources mode direction) <= MAX_STEPS_PER_DIRECTION)%nat /\
    (length (traceFieldLine seed sources mode) <= 2 * MAX_STEPS_PER_DIRECTION + 1)%nat.
Proof.
  intros seed sources mode direction.
  split; [reflexivity|]. split.
  - apply traceLoop_length.
  - unfold traceFieldLine, traceInDirection.
    generalize MAX_STEPS_PER_DIRECTION as budget. intros budget.
    destruct (isTooCloseToSource seed sources); [cbn [length]; lia|].
    rewrite length_app, length_rev. cbn [length].
    pose proof (traceLoop_length budget seed sources mode forward) as Hf.
    pose proof (traceLoop_length budget seed sources mode backward) as Hb.
    lia.
Qed.

Lemma isTooCloseToSource_spec (pos : Position T) (sources : list (FieldSource T)) :
  isTooCloseToSource pos sources = true <->
  exists source, In source sources /\
    ltb (distance pos (position source)) MIN_DISTANCE_FROM_SOURCE = true.
Proof. unfold isTooCloseToSource. apply existsb_exists. Qed.

Lemma keepLine_fold (sources : list (FieldSource T)) (mode : FieldMode) (random : nat -> T) :
  forall (seeds : list (Position T)) (lines : list (Line (T:=T))),
    map (@points T) (fold_left (keepLine sources mode random) seeds lines) =
    map (@points T) lines ++
    filter (fun pts => (MIN_LINE_POINTS <=? length pts)%nat)
      (map (fun seed => traceFieldLine seed sources mode) seeds).
Proof.
  induction seeds as [|seed seeds IH]; intros lines; cbn [fold_left map filter].
  - now rewrite app_nil_r.
  - rewrite IH. unfold keepLine.
    destruct (MIN_LINE_POINTS <=? length (traceFieldLine seed sources mode))%nat.
    + rewrite map_app. cbn [map points]. now rewrite <- app_assoc.
    + reflexivity.
Qed.

Context {ET : Elementary T}.

(** C7 -- [traceFieldLine] returns the empty list when the seed is within
    the exclusion radius of some source, and otherwise the reversed backward
    trace, the seed, and the forward trace, in this order; the pipeline
    ([fieldLines]) keeps, in seed order, exactly the assembled lines of at
    least [MIN_LINE_POINTS] = 20 points, so a shorter line is discarded. *)
Theorem field_line_assembly :
  forall (seed : Position T) (sources : list (FieldSource T)) (mode : FieldMode)
         (enabled : bool) (density : nat) (random : nat -> T),
    ((exists source, In source sources /\
        ltb (distance seed (position source)) MIN_DISTANCE_FROM_SOURCE = true) ->
     traceFieldLine seed sources mode = []) /\
    ((forall source, In source sources ->
        ltb (distance seed (position source)) MIN_DISTANCE_FROM_SOURCE = false) ->
     traceFieldLine seed sources mode =
       rev (traceInDirection seed sources mode backward) ++ [seed] ++
       traceInDirection seed sources mode forward) /\
    MIN_LINE_POINTS = 20%nat /\
    map (@points T) (fieldLines enabled sources mode density random) =
      (if negb enabled || (length sources =? 0)%nat then []
       else filter (fun pts => (MIN_LINE_POINTS <=? length pts)%nat)
              (map (fun s => traceFieldLine s sources mode)
                 (generateSphereShellSeeds sources density))) /\
    (forall line, In line (fieldLines enabled sources mode density random) ->
       (MIN_LINE_POINTS <= length (points line))%nat).
Proof.
  intros seed sources mode enabled density random.
  assert (Hmap : map (@points T) (fieldLines enabled sources mode density random) =
      (if negb enabled || (length sources =? 0)%nat then []
       else filter (fun pts => (MIN_LINE_POINTS <=? length pts)%nat)
              (map (fun s => traceFieldLine s sources mode)
                 (generateSphereShellSeeds sources density)))).
  { unfold fieldLines. destruct (negb enabled || (length sources =? 0)%nat); [reflexivity|].
    now rewrite keepLine_fold. }
  repeat split.
  - intros Hnear. apply isTooCloseToSource_spec in Hnear.
    unfold traceFieldLine. now rewrite Hnear.
  - intros Hfar. unfold traceFieldLine.
    destruct (isTooCloseToSource seed sources) eqn:Hc; [|reflexivity].
    apply isTooCloseToSource_spec in Hc. destruct Hc as (source & Hin & Hlt).
    rewrite (Hfar source Hin) in Hlt. discriminate.
  - exact Hmap.
  - intros line Hin.
    apply (in_map (@points T)) in Hin. rewrite Hmap in Hin.
    destruct (negb enabled || (length sources =? 0)%nat); [contradiction|].
    apply filter_In in Hin. destruct Hin as [_ Hlen].
    now apply Nat.leb_le in Hlen.
Qed.

End TracerFacts.

(** ** Thinning the lattice (any element type) *)

Section ThinningFacts.

Lemma succ_mod (i N : nat) :
  (0 < N)%nat ->
  (S i mod N = if (S (i mod N) =? N)%nat then 0 else S (i mod N))%nat.
Proof.
  intros HN.
  pose proof (Nat.div_mod_eq i N) as Hi.
  pose proof (Nat.mod_upper_bound i N ltac:(lia)) as Hc.
  destruct (S (i mod N) =? N)%nat eqn:E.
  - apply Nat.eqb_eq in E.
    symmetry. apply (Nat.mod_unique (S i) N (S (i / N)) 0); [lia|]. nia.
  - apply Nat.eqb_neq in E.
    symmetry. apply (Nat.mod_unique (S i) N (i / N) (S (i mod N))); [lia|]. nia.
Qed.

Lemma toSkip_succ (i N : nat) :
  (0 < N)%nat ->
  ((i mod N = 0)%nat -> toSkip N (S i) = (N - 1)%nat) /\
  ((i mod N <> 0)%nat -> toSkip N i = S (toSkip N (S i))).
Proof.
  intros HN. unfold toSkip. rewrite (succ_mod i HN).
  pose proof (Nat.mod_upper_bound i N ltac:(lia)) as Hc.
  split; intros H.
  - rewrite H. destruct (1 =? N)%nat eqn:E.
    + apply Nat.eqb_eq in E. cbn. lia.
    + apply Nat.eqb_neq in E. cbn [Nat.eqb]. lia.
  - destruct (i mod N =? 0)%nat eqn:E0; [apply Nat.eqb_eq in E0; lia|].
    destruct (S (i mod N) =? N)%nat eqn:E.
    + apply Nat.eqb_eq in E. cbn [Nat.eqb]. lia.
    + apply Nat.eqb_neq in E. cbn [Nat.eqb]. lia.
Qed.

Lemma filterIndex_nth (A : Type) (N : nat) (points : list A) :
  (0 < N)%nat ->
  forall (index k : nat),
    nth_error (FieldVectors.filterIndex N index points) k =
    nth_error points (toSkip N index + k * N).
Proof.
  intros HN. induction points as [|p rest IH]; intros index k.
  - cbn [FieldVectors.filterIndex]. now rewrite !nth_error_nil.
  - cbn [FieldVectors.filterIndex].
    destruct (toSkip_succ index HN) as [Hkept Hskipped].
    destruct (index mod N =? 0)%nat eqn:E.
    + apply Nat.eqb_eq in E. specialize (Hkept E).
      assert (H0 : toSkip N index = 0%nat) by (unfold toSkip; rewrite E; reflexivity).
      rewrite H0. destruct k as [|k]; [reflexivity|].
      cbn [nth_error]. rewrite IH, Hkept.
      replace (0 + S k * N)%nat with (S (N - 1 + k * N)) by lia. reflexivity.
    + apply Nat.eqb_neq in E. specialize (Hskipped E).
      rewrite IH, Hskipped. reflexivity.
Qed.

Lemma filterIndex_length (A : Type) (N : nat) (points : list A) :
  (0 < N)%nat ->
  forall index : nat,
    (length (FieldVectors.filterIndex N index points) * N + toSkip N index <=
     length points + (N - 1))%nat.
Proof.
  intros HN. induction points as [|p rest IH]; intros index.
  - cbn [FieldVectors.filterIndex length]. unfold toSkip.
    pose proof (Nat.mod_upper_bound index N ltac:(lia)).
    destruct (index mod N =? 0)%nat eqn:E; [lia|]. apply Nat.eqb_neq in E. lia.
  - cbn [FieldVectors.filterIndex].
    destruct (toSkip_succ index HN) as [Hkept Hskipped].
    specialize (IH (S index)).
    destruct (index mod N =? 0)%nat eqn:E.
    + apply Nat.eqb_eq in E. specialize (Hkept E).
      assert (H0 : toSkip N index = 0%nat) by (unfold toSkip; rewrite E; reflexivity).
      cbn [length]. rewrite Hkept in IH. rewrite H0.
      set (c := length (FieldVectors.filterIndex N (S index) rest)) in *. nia.
    + apply Nat.eqb_neq in E. specialize (Hskipped E). cbn [length]. lia.
Qed.

Lemma ceilDiv_spec (a b : nat) :
  (0 < b)%nat ->
  (a <= FieldVectors.ceilDiv a b * b /\ (0 < a -> 0 < FieldVectors.ceilDiv a b))%nat.
Proof.
  intros Hb. unfold FieldVectors.ceilDiv.
  pose proof (Nat.div_mod_eq (a + (b - 1)) b) as H.
  pose proof (Nat.mod_upper_bound (a + (b - 1)) b ltac:(lia)) as Hm.
  split.
  - nia.
  - intros Ha. destruct ((a + (b - 1)) / b)%nat eqn:E; [|lia]. nia.
Qed.

Lemma thin_length (A : Type) (points : list A) :
  (length (FieldVectors.thin points) <= FieldVectors.MAX_ARROWS)%nat.
Proof.
  unfold FieldVectors.thin.
  destruct (FieldVectors.MAX_ARROWS <? length points)%nat eqn:E.
  - apply Nat.ltb_lt in E.
    assert (Hcap : (0 < FieldVectors.MAX_ARROWS)%nat)
      by (unfold FieldVectors.MAX_ARROWS; lia).
    destruct (ceilDiv_spec (length points) Hcap) as [Hc Hpos].
    assert (HN : (0 < FieldVectors.ceilDiv (length points) FieldVectors.MAX_ARROWS)%nat)
      by (apply Hpos; lia).
    pose proof (filterIndex_length points HN 0) as Hlen.
    assert (H0 : toSkip (FieldVectors.ceilDiv (length points) FieldVectors.MAX_ARROWS) 0 =
                 0%nat).
    { unfold toSkip. rewrite Nat.Div0.mod_0_l. reflexivity. }
    rewrite H0 in Hlen.
    revert Hc Hlen HN E.
    generalize (FieldVectors.ceilDiv (length points) FieldVectors.MAX_ARROWS) as N.
    intros N.
    generalize (length (FieldVectors.filterIndex N 0 points)) as c.
    generalize FieldVectors.MAX_ARROWS as cap. generalize (length points) as len.
    intros len cap c Hc Hlen HN E. nia.
  - apply Nat.ltb_ge in E. exact E.
Qed.

Lemma ceilDiv_least (a b : nat) :
  (0 < b)%nat -> (0 < a)%nat ->
  ((FieldVectors.ceilDiv a b - 1) * b < a <= FieldVectors.ceilDiv a b * b)%nat.
Proof.
  intros Hb Ha. unfold FieldVectors.ceilDiv.
  pose proof (Nat.div_mod_eq (a + (b - 1)) b) as H.
  pose proof (Nat.mod_upper_bound (a + (b - 1)) b ltac:(lia)) as Hm.
  destruct ((a + (b - 1)) / b)%nat as [|q] eqn:E; [nia|].
  replace (S q - 1)%nat with q by lia. nia.
Qed.

(** What [thin] returns: the list itself when it has at most [MAX_ARROWS]
    elements; otherwise its elements of index [0, N, 2N, ...], where [N] is
    the least number with [length <= N * MAX_ARROWS]. *)
Lemma thin_spec (A : Type) (points : list A) :
  ((length points <= FieldVectors.MAX_ARROWS)%nat -> FieldVectors.thin points = points) /\
  ((FieldVectors.MAX_ARROWS < length points)%nat ->
   let N := FieldVectors.ceilDiv (length points) FieldVectors.MAX_ARROWS in
   ((N - 1) * FieldVectors.MAX_ARROWS < length points <= N * FieldVectors.MAX_ARROWS)%nat /\
   forall k : nat, nth_error (FieldVectors.thin points) k = nth_error points (k * N)) /\
  (length (FieldVectors.thin points) <= FieldVectors.MAX_ARROWS)%nat.
Proof.
  assert (Hcap : (0 < FieldVectors.MAX_ARROWS)%nat) by (unfold FieldVectors.MAX_ARROWS; lia).
  split; [|split; [|apply thin_length]].
  - intros Hsmall. unfold FieldVectors.thin.
    destruct (FieldVectors.MAX_ARROWS <? length points)%nat eqn:E;
      [apply Nat.ltb_lt in E; lia|reflexivity].
  - intros Hlarge N.
    assert (Hlen : (0 < length points)%nat) by lia.
    pose proof (ceilDiv_least Hcap Hlen) as HN. fold N in HN.
    split; [exact HN|]. intros k. unfold FieldVectors.thin.
    destruct (FieldVectors.MAX_ARROWS <? length points)%nat eqn:E;
      [|apply Nat.ltb_ge in E; lia].
    fold N. assert (HN0 : (0 < N)%nat) by nia.
    rewrite filterIndex_nth by exact HN0.
    unfold toSkip. rewrite Nat.Div0.mod_0_l. reflexivity.
Qed.

End ThinningFacts.

(** ** The shape of a traced line (any reading of the numbers) *)

Section TraceShape.

Context {T : Type} {NT : Number T}.
Import FieldFlow.
Local Open Scope num_scope.

Lemma traceLoop_head (steps : nat) (pos : Position T) (sources : list (FieldSource T))
    (mode : FieldMode) (direction : Direction) :
  traceLoop (S steps) pos sources mode direction =
    if stopsAt pos sources mode then []
    else pos :: tl (traceLoop (S steps) pos sources mode direction).
Proof.
  unfold stopsAt. cbn [traceLoop].
  destruct (isOutsideBounds pos); [reflexivity|].
  destruct (isTooCloseToSource pos sources); [reflexivity|].
  cbn [orb].
  destruct (fieldMagnitude (fieldAt mode pos sources) <? MIN_FIELD_MAGNITUDE);
    reflexivity.
Qed.

Lemma traceInDirection_head (pos : Position T) (sources : list (FieldSource T))
    (mode : FieldMode) (direction : Direction) :
  traceInDirection pos sources mode direction =
    if stopsAt pos sources mode then []
    else pos :: tl (traceInDirection pos sources mode direction).
Proof.
  unfold traceInDirection.
  assert (H : exists n, MAX_STEPS_PER_DIRECTION = S n) by (now exists 599%nat).
  destruct H as [n ->]. apply traceLoop_head.
Qed.

Lemma traceLoop_points (steps : nat) :
  forall (pos : Position T) (sources : list (FieldSource T)) (mode : FieldMode)
         (direction : Direction) (p : Position T),
    In p (traceLoop steps pos sources mode direction) -> stopsAt p sources mode = false.
Proof.
  induction steps as [|n IH]; intros pos sources mode direction p Hin; [destruct Hin|].
  cbn [traceLoop] in Hin. unfold stopsAt.
  destruct (isOutsideBounds pos) eqn:Hb; [destruct Hin|].
  destruct (isTooCloseToSource pos sources) eqn:Hc; [destruct Hin|].
  destruct (fieldMagnitude (fieldAt mode pos sources) <? MIN_FIELD_MAGNITUDE) eqn:Hm;
    [destruct Hin|].
  destruct Hin as [<-|Hin].
  - now rewrite Hb, Hc, Hm.
  - destruct ((_ =? _) && _ && _); [destruct Hin|].
    destruct pos as [[p0 p1] p2]. apply IH in Hin. exact Hin.
Qed.

Lemma assemble_cases (A : Type) (seed : A) (stop : bool) (back fwd : list A) :
  back = (if stop then [] else seed :: tl back) ->
  fwd = (if stop then [] else seed :: tl fwd) ->
  rev back ++ seed :: fwd =
    if stop then [seed] else rev (tl back) ++ [seed; seed; seed] ++ tl fwd.
Proof.
  destruct stop; intros Hb Hf.
  - subst back fwd. reflexivity.
  - destruct back as [|b bs]; [discriminate Hb|].
    destruct fwd as [|f fs]; [discriminate Hf|].
    cbn [tl] in Hb, Hf |- *. injection Hb as Hb. injection Hf as Hf. subst b f.
    cbn [rev]. rewrite <- app_assoc. reflexivity.
Qed.

Lemma traceFieldLine_cases (seed : Position T) (sources : list (FieldSource T))
    (mode : FieldMode) :
  traceFieldLine seed sources mode =
    if isTooCloseToSource seed sources then []
    else if isOutsideBounds seed ||
            (fieldMagnitude (fieldAt mode seed sources) <? MIN_FIELD_MAGNITUDE)
    then [seed]
    else rev (tl (traceInDirection seed sources mode backward)) ++ [seed; seed; seed] ++
         tl (traceInDirection seed sources mode forward).
Proof.
  unfold traceFieldLine.
  destruct (isTooCloseToSource seed sources) eqn:Hc; [reflexivity|].
  cbv zeta.
  pose proof (traceInDirection_head seed sources mode backward) as Hb.
  pose proof (traceInDirection_head seed sources mode forward) as Hf.
  unfold stopsAt in Hb, Hf. rewrite Hc, orb_false_r in Hb, Hf.
  exact (@assemble_cases _ seed _ _ _ Hb Hf).
Qed.

Lemma traceInDirection_points (seed : Position T) (sources : list (FieldSource T))
    (mode : FieldMode) (direction : Direction) (p : Position T) :
  In p (traceInDirection seed sources mode direction) -> stopsAt p sources mode = false.
Proof. apply traceLoop_points. Qed.

Lemma in_tl (A : Type) (a : A) (l : list A) : In a (tl l) -> In a l.
Proof. destruct l; [easy|]. now right. Qed.

Lemma assembled_points (A : Type) (P : A -> Prop) (seed : A) (stop : bool)
    (back fwd : list A) :
  (stop = false -> P seed) ->
  (forall p, In p back -> P p) -> (forall p, In p fwd -> P p) ->
  (2 <= length (if stop then [seed] else rev (tl back) ++ [seed; seed; seed] ++ tl fwd))%nat ->
  Forall P (if stop then [seed] else rev (tl back) ++ [seed; seed; seed] ++ tl fwd).
Proof.
  intros Hseed Hback Hfwd Hlen. destruct stop; [cbn [length] in Hlen; lia|].
  apply Forall_forall. intros p Hp.
  apply in_app_or in Hp. destruct Hp as [Hp|Hp].
  - apply in_rev, in_tl in Hp. now apply Hback.
  - cbn [app] in Hp. destruct Hp as [<-|[<-|[<-|Hp]]]; try now apply Hseed.
    apply in_tl in Hp. now apply Hfwd.
Qed.

(** A line of at least two points consists of points that passed the three
    tests of the tracer. *)
Lemma traceFieldLine_points (seed : Position T) (sources : list (FieldSource T))
    (mode : FieldMode) :
  (2 <= length (traceFieldLine seed sources mode))%nat ->
  Forall (fun p => stopsAt p sources mode = false) (traceFieldLine seed sources mode).
Proof.
  rewrite traceFieldLine_cases.
  destruct (isTooCloseToSource seed sources) eqn:Hc; [cbn [length]; lia|].
  apply assembled_points.
  - intros Hs. unfold stopsAt. rewrite Hc, orb_false_r. exact Hs.
  - apply traceInDirection_points.
  - apply traceInDirection_points.
Qed.

(** X14 -- the seed is recorded three times: each of the two traces starts
    by pushing its start point, the seed, and [traceFieldLine] puts the seed
    between them once more.  So a line is empty (seed too close to a
    source), or the seed alone (seed out of bounds or in too weak a field),
    or has the seed three times in a row between the rest of the backward
    trace, reversed, and the rest of the forward trace. *)
Theorem seed_recorded_three_times :
  forall (seed : Position T) (sources : list (FieldSource T)) (mode : FieldMode),
    let back := traceInDirection seed sources mode backward in
    let fwd := traceInDirection seed sources mode forward in
    traceFieldLine seed sources mode =
      if isTooCloseToSource seed sources then []
      else if isOutsideBounds seed ||
              (fieldMagnitude (fieldAt mode seed sources) <? MIN_FIELD_MAGNITUDE)
      then [seed]
      else rev (tl back) ++ [seed; seed; seed] ++ tl fwd.
Proof.
  intros seed sources mode back fwd. unfold traceFieldLine.
  destruct (isTooCloseToSource seed sources) eqn:Hc; [reflexivity|].
  cbv zeta. fold back fwd.
  pose proof (traceInDirection_head seed sources mode backward) as Hb.
  pose proof (traceInDirection_head seed sources mode forward) as Hf.
  fold back in Hb. fold fwd in Hf.
  unfold stopsAt in Hb, Hf. rewrite Hc, orb_false_r in Hb, Hf.
  clearbody back fwd.
  exact (@assemble_cases _ seed _ _ _ Hb Hf).
Qed.

Context {ET : Elementary T}.

(** X15 -- every point of every line that [fieldLines] keeps passed the
    three tests of the tracer: it is inside the bounding box, not within
    [MIN_DISTANCE_FROM_SOURCE] of a source, and the field there is not below
    [MIN_FIELD_MAGNITUDE]. *)
Theorem kept_line_points_admissible :
  forall (enabled : bool) (sources : list (FieldSource T)) (mode : FieldMode)
         (density : nat) (random : nat -> T),
    Forall (fun line =>
        Forall (fun p =>
            isOutsideBounds p = false /\
            isTooCloseToSource p sources = false /\
            (fieldMagnitude (fieldAt mode p sources) <? MIN_FIELD_MAGNITUDE) = false)
          (points line))
      (fieldLines enabled sources mode density random).
Proof.
  intros enabled sources mode density random.
  apply Forall_forall. intros line Hline.
  assert (Hpts : In (points line)
                   (map (@points T) (fieldLines enabled sources mode density random)))
    by now apply in_map.
  unfold fieldLines in Hpts.
  destruct (negb enabled || (length sources =? 0)%nat); [destruct Hpts|].
  cbv zeta in Hpts. rewrite keepLine_fold in Hpts. cbn [map app] in Hpts.
  apply filter_In in Hpts. destruct Hpts as [Hmap Hlen].
  apply in_map_iff in Hmap. destruct Hmap as (seed & Hseed & _).
  rewrite <- Hseed in *.
  apply Nat.leb_le in Hlen. unfold MIN_LINE_POINTS in Hlen.
  assert (H2 : (2 <= length (traceFieldLine seed sources mode))%nat) by lia.
  eapply Forall_impl; [|apply (traceFieldLine_points _ _ _ H2)].
  intros p Hstop. unfold stopsAt in Hstop.
  apply orb_false_iff in Hstop. destruct Hstop as [Hstop Hm].
  apply orb_false_iff in Hstop. destruct Hstop as [Hb Hc].
  now repeat split.
Qed.

End TraceShape.

(** ** The arrows of the sampler (any reading of the numbers) *)

Section SamplerFacts.

Context {T : Type} {NT : Number T}.
Import FieldVectors.

Lemma samplePoint_arrows (sources : list (FieldSource T)) (mode : FieldMode)
    (gridPoints : list (Position T)) :
  forall st : PassState,
    fst (fst (fold_left (samplePoint sources mode) gridPoints st)) =
    fst (fst st) ++ map (arrowAt sources mode) (filter (clearOfSources sources) gridPoints).
Proof.
  induction gridPoints as [|p l IH]; intros st; cbn [fold_left filter map].
  - now rewrite app_nil_r.
  - rewrite IH. destruct st as [[arrows maxM] minM].
    destruct (clearOfSources sources p) eqn:E; unfold clearOfSources in E;
      unfold samplePoint.
    + apply negb_true_iff in E. rewrite E. cbn [fst map].
      rewrite <- app_assoc. reflexivity.
    + apply negb_false_iff in E. rewrite E. reflexivity.
Qed.

Lemma samplePass_arrows (sources : list (FieldSource T)) (mode : FieldMode)
    (gridPoints : list (Position T)) :
  arrowData (samplePass sources mode gridPoints) =
    map (arrowAt sources mode) (filter (clearOfSources sources) gridPoints).
Proof.
  unfold samplePass.
  pose proof (samplePoint_arrows sources mode gridPoints ([], lit 0, None)) as Hf.
  destruct (fold_left _ gridPoints _) as [[arrows maxM] minM]. exact Hf.
Qed.

Lemma generateGridPoints_length (fuel : nat) (gridSize : T) (gridPoints : list (Position T)) :
  generateGridPoints fuel gridSize = Some gridPoints ->
  (length gridPoints <= MAX_ARROWS)%nat.
Proof.
  unfold generateGridPoints.
  destruct (forValues fuel _ _ (step_x GRID_STEP)); [|discriminate].
  destruct (forValues fuel _ _ (step_y GRID_STEP)); [|discriminate].
  destruct (forValues fuel _ _ (step_z GRID_STEP)); [|discriminate].
  intros H. injection H as <-. apply thin_length.
Qed.

(** X18 -- the arrow data of the memo of [FieldVectors].  When the
    component is disabled or there is no source, the memo holds no arrow
    (and [maxMagnitude = minMagnitude = 0]), whatever the grid.  Otherwise it
    holds, in the order of the grid, one arrow for every point of the grid of
    [generateGridPoints] that has no source within
    [MIN_DISTANCE_FROM_SOURCE], and none for the others; the arrow carries
    the point, the field of the current mode there, and its magnitude; there
    are at most as many arrows as grid points, so at most [MAX_ARROWS].  (The
    memo has no value where the loops of [generateGridPoints] do not end.) *)
Theorem arrows_are_clear_grid_points :
  forall (fuel : nat) (enabled : bool) (sources : list (FieldSource T)) (mode : FieldMode)
         (gridSize : T),
    (enabled = false \/ sources = [] ->
       fieldData fuel enabled sources mode gridSize =
         Some {| arrowData := []; maxMagnitude := lit 0; minMagnitude := lit 0 |}) /\
    (enabled = true -> sources <> [] ->
       match generateGridPoints fuel gridSize with
       | Some gridPoints =>
           exists fd : FieldData,
             fieldData fuel enabled sources mode gridSize = Some fd /\
             arrowData fd =
               map (arrowAt sources mode) (filter (clearOfSources sources) gridPoints) /\
             (length (arrowData fd) <= length gridPoints <= MAX_ARROWS)%nat
       | None => fieldData fuel enabled sources mode gridSize = None
       end).
Proof.
  intros fuel enabled sources mode gridSize. unfold fieldData. split.
  - intros [-> | ->]; [reflexivity|]. cbn [length Nat.eqb]. now rewrite orb_true_r.
  - intros -> Hsources.
    destruct sources as [|s rest]; [now contradiction Hsources|].
    cbn [negb length Nat.eqb orb].
    destruct (generateGridPoints fuel gridSize) as [gridPoints|] eqn:Hgrid; [|reflexivity].
    exists (samplePass (s :: rest) mode gridPoints).
    split; [reflexivity|]. split; [apply samplePass_arrows|].
    split.
    + rewrite samplePass_arrows, length_map. apply filter_length_le.
    + now apply generateGridPoints_length with (fuel := fuel) (gridSize := gridSize).
Qed.

End SamplerFacts.

(** ** The loops of the lattice (any reading of the numbers) *)

Section GridFacts.

Context {T : Type} {NT : Number T}.
Import FieldVectors.
Local Open Scope num_scope.

Lemma forValues_spec (fuel : nat) :
  forall (v hi step : T) (vs : list T),
    forValues fuel v hi step = Some vs ->
    (forall k : nat, (k < length vs)%nat ->
       nth_error vs k = Some (stepped k v step) /\ (stepped k v step <=? hi) = true) /\
    (stepped (length vs) v step <=? hi) = false /\
    (length vs < fuel)%nat.
Proof.
  induction fuel as [|fuel IH]; intros v hi step vs H; [discriminate H|].
  cbn [forValues] in H. destruct (v <=? hi) eqn:Hle.
  - destruct (forValues fuel (v + step) hi step) as [rest|] eqn:Hrest; [|discriminate H].
    injection H as <-. destruct (IH _ _ _ _ Hrest) as (Hk & Hend & Hfuel).
    cbn [length stepped]. split; [|split; [exact Hend|lia]].
    intros [|k] Hlt; cbn [nth_error stepped]; [now split|].
    apply Hk. lia.
  - injection H as <-. cbn [length stepped]. split; [|split; [exact Hle|lia]].
    intros k Hlt. lia.
Qed.

Lemma forValues_more_fuel (fuel : nat) :
  forall (v hi step : T) (vs : list T) (fuel' : nat),
    forValues fuel v hi step = Some vs -> (fuel <= fuel')%nat ->
    forValues fuel' v hi step = Some vs.
Proof.
  induction fuel as [|fuel IH]; intros v hi step vs fuel' H Hle; [discriminate H|].
  destruct fuel' as [|fuel']; [lia|]. cbn [forValues] in *.
  destruct (v <=? hi); [|exact H].
  destruct (forValues fuel (v + step) hi step) as [rest|] eqn:Hrest; [|discriminate H].
  rewrite (IH _ _ _ _ fuel' Hrest) by lia. exact H.
Qed.

(** A loop whose variable does not change never ends. *)
Lemma forValues_stuck (v hi step : T) :
  v + step = v -> (v <=? hi) = true -> forall fuel : nat, forValues fuel v hi step = None.
Proof.
  intros Hstuck Hle fuel. induction fuel as [|fuel IH]; [reflexivity|].
  cbn [forValues]. now rewrite Hle, Hstuck, IH.
Qed.

Lemma generateGridPoints_some (fuel : nat) (gridSize : T) (points : list (Position T)) :
  generateGridPoints fuel gridSize = Some points ->
  exists vs : list T,
    forValues fuel (- gridSize) gridSize (lit 2) = Some vs /\ points = thin (cube vs).
Proof.
  unfold generateGridPoints.
  cbn [step_x step_y step_z GRID_STEP].
  destruct (forValues fuel (- gridSize) gridSize (lit 2)) as [vs|]; [|discriminate].
  intros H. injection H as <-. now exists vs.
Qed.

Lemma cube_length (A : Type) (vs : list A) : length (cube vs) = (length vs ^ 3)%nat.
Proof.
  unfold cube.
  assert (Hrow : forall x y : A, length (map (fun z => (x, y, z)) vs) = length vs)
    by (intros; apply length_map).
  assert (Hplane : forall x : A,
             length (flat_map (fun y => map (fun z => (x, y, z)) vs) vs) =
             (length vs * length vs)%nat).
  { intros x. induction vs as [|a l IH] at 2 3; [reflexivity|].
    cbn [flat_map length]. rewrite length_app, Hrow, IH. lia. }
  assert (H : forall l : list A,
             length (flat_map (fun x => flat_map (fun y => map (fun z => (x, y, z)) vs) vs) l) =
             (length l * (length vs * length vs))%nat).
  { induction l as [|a l IH]; [reflexivity|].
    cbn [flat_map length]. rewrite length_app, Hplane, IH. lia. }
  rewrite H. cbn [Nat.pow]. lia.
Qed.

End GridFacts.

(** ** The store and the handlers (any type of numbers) *)

Section StoreFacts.

Context {T : Type}.
Import Store.

Lemma store_eq (a b : FieldStore T) :
  mode a = mode b -> sources a = sources b -> testCharge a = testCharge b -> a = b.
Proof. destruct a, b; cbn; intros; subst; reflexivity. Qed.

Lemma filter_other_ids (i : String.string) (l : list (FieldSource T)) :
  (forall s, In s l -> id s <> i) ->
  filter (fun source => negb (String.eqb (id source) i)) l = l.
Proof.
  induction l as [|s l IH]; intros H; cbn [filter]; [reflexivity|].
  assert (Hs : String.eqb (id s) i = false).
  { apply String.eqb_neq. apply H. now left. }
  rewrite Hs. cbn [negb]. f_equal. apply IH. intros s' Hin. apply H. now right.
Qed.

(** X24 -- removing undoes adding when the new id is fresh, and removes by
    id otherwise: after [removeSource i] the sources are those whose id is
    not [i], in their order, whatever their number; so adding a source
    under an id no source has and removing that id gives back the state,
    while an id that a source already has (ids come from the clock and
    [Math.random]) takes that source away too.  Mode and test charge are
    not touched. *)
Theorem remove_undoes_add :
  forall (state : FieldStore T) (newId i : String.string) (pos : Position T) (v : T),
    (forall s, In s (sources (removeSource i state)) <->
               In s (sources state) /\ id s <> i) /\
    ((forall s, In s (sources state) -> id s <> newId) ->
     removeSource newId (addSource newId pos v state) = state) /\
    sources (removeSource newId (addSource newId pos v state)) =
      sources (removeSource newId state) /\
    mode (removeSource i state) = mode state /\
    testCharge (removeSource i state) = testCharge state /\
    mode (addSource newId pos v state) = mode state /\
    testCharge (addSource newId pos v state) = testCharge state.
Proof.
  intros state newId i pos v.
  assert (Hrem : sources (removeSource newId (addSource newId pos v state)) =
                 sources (removeSource newId state)).
  { cbn [removeSource addSource sources]. rewrite filter_app. cbn [filter id].
    rewrite String.eqb_refl. cbn [negb]. apply app_nil_r. }
  split; [|split; [|split; [exact Hrem|repeat split]]].
  - intros s. cbn [removeSource sources]. rewrite filter_In.
    rewrite negb_true_iff, String.eqb_neq. reflexivity.
  - intros Hfresh. apply store_eq; try reflexivity.
    rewrite Hrem. cbn [removeSource sources]. now apply filter_other_ids.
Qed.

Lemma map_other_ids (i : String.string) (f : FieldSource T -> FieldSource T)
    (l : list (FieldSource T)) :
  (forall s, In s l -> id s <> i) ->
  map (fun source => if String.eqb (id source) i then f source else source) l = l.
Proof.
  induction l as [|s l IH]; intros H; cbn [map]; [reflexivity|].
  assert (Hs : String.eqb (id s) i = false).
  { apply String.eqb_neq. apply H. now left. }
  rewrite Hs. f_equal. apply IH. intros s' Hin. apply H. now right.
Qed.

Lemma mergeSource_id (s : FieldSource T) (u : SourceUpdates.t T) :
  id (mergeSource s u) = id s.
Proof. reflexivity. Qed.

Lemma mergeSource_nothing (s : FieldSource T) :
  mergeSource s {| SourceUpdates.position := None; SourceUpdates.value := None |} = s.
Proof. destruct s. reflexivity. Qed.

(** X25 -- [updateSource] changes the sources that have the given id and
    nothing else: the list of ids (so the number and the order of the
    sources), the mode and the test charge stay as they are; a source with
    another id is not changed; a source with the id gets the position and
    the value that the update has and keeps the others; with an id that no
    source has, or with an update that has neither key, the state is
    unchanged; and updates of two different ids commute. *)
Theorem update_source_laws :
  forall (state : FieldStore T) (i j : String.string) (u w : SourceUpdates.t T),
    map (@id T) (sources (updateSource i u state)) = map (@id T) (sources state) /\
    mode (updateSource i u state) = mode state /\
    testCharge (updateSource i u state) = testCharge state /\
    (forall k s, nth_error (sources state) k = Some s ->
       nth_error (sources (updateSource i u state)) k =
         Some (if String.eqb (id s) i then mergeSource s u else s)) /\
    (forall s, In s (sources (updateSource i u state)) -> id s = i ->
       (forall pos, SourceUpdates.position u = Some pos -> position s = pos) /\
       (forall v, SourceUpdates.value u = Some v -> value s = v)) /\
    ((forall s, In s (sources state) -> id s <> i) -> updateSource i u state = state) /\
    updateSource i {| SourceUpdates.position := None; SourceUpdates.value := None |} state =
      state /\
    (i <> j ->
     updateSource i u (updateSource j w state) = updateSource j w (updateSource i u state)).
Proof.
  intros state i j u w.
  split; [|split; [reflexivity|split; [reflexivity|split; [|split; [|split; [|split]]]]]].
  - cbn [updateSource sources]. rewrite map_map. apply map_ext.
    intros s. destruct (String.eqb (id s) i); reflexivity.
  - intros k s Hk. cbn [updateSource sources].
    rewrite nth_error_map, Hk. reflexivity.
  - intros s Hin Hid. cbn [updateSource sources] in Hin.
    apply in_map_iff in Hin. destruct Hin as (s0 & Hs & _).
    destruct (String.eqb (id s0) i) eqn:E.
    + rewrite <- Hs. unfold mergeSource. cbn [position value].
      split; [intros pos Hp|intros v Hv]; [now rewrite Hp|now rewrite Hv].
    + apply String.eqb_neq in E. rewrite <- Hs in Hid. contradiction.
  - intros Hfresh. apply store_eq; try reflexivity.
    cbn [updateSource sources]. now apply map_other_ids.
  - apply store_eq; try reflexivity. cbn [updateSource sources].
    rewrite <- (map_id (sources state)) at 2. apply map_ext.
    intros s. rewrite mergeSource_nothing. now destruct (String.eqb (id s) i).
  - intros Hij. apply store_eq; try reflexivity.
    cbn [updateSource sources]. rewrite !map_map. apply map_ext. intros s.
    destruct (String.eqb (id s) i) eqn:Ei, (String.eqb (id s) j) eqn:Ej;
      rewrite ?mergeSource_id, ?Ei, ?Ej; try reflexivity.
    apply String.eqb_eq in Ei, Ej. congruence.
Qed.

Lemma withIds_spec (generateId : nat -> String.string) (l : list (PresetSource.t T)) :
  forall k : nat,
    map (@id T) (withIds generateId k l) = map generateId (seq k (length l)) /\
    map (@position T) (withIds generateId k l) = map (@PresetSource.position T) l /\
    map (@value T) (withIds generateId k l) = map (@PresetSource.value T) l.
Proof.
  induction l as [|s l IH]; intros k; cbn [withIds map length seq]; [now repeat split|].
  destruct (IH (S k)) as (H1 & H2 & H3). cbn [id position value].
  rewrite H1, H2, H3. now repeat split.
Qed.

(** X26 -- [loadPreset] replaces the sources and the test charge and keeps
    the mode unless the preset names one: the new sources are the sources of
    the preset, in their order, with their positions and values, the k-th
    under the id of the k-th call of [generateId]; the test charge is the
    preset's; nothing of the sources or the test charge of the state before
    survives. *)
Theorem load_preset_replaces :
  forall (generateId : nat -> String.string) (preset : PresetConfig.t T)
         (state other : FieldStore T),
    let state' := loadPreset generateId preset state in
    map (@position T) (sources state') =
      map (@PresetSource.position T) (PresetConfig.sources preset) /\
    map (@value T) (sources state') =
      map (@PresetSource.value T) (PresetConfig.sources preset) /\
    map (@id T) (sources state') =
      map generateId (seq 0 (length (PresetConfig.sources preset))) /\
    testCharge state' = PresetConfig.testCharge preset /\
    mode state' = match PresetConfig.mode preset with
                  | Some m => m
                  | None => mode state
                  end /\
    sources (loadPreset generateId preset other) = sources state' /\
    testCharge (loadPreset generateId preset other) = testCharge state'.
Proof.
  intros generateId preset state other. cbv zeta. cbn [loadPreset sources testCharge mode].
  destruct (withIds_spec generateId (PresetConfig.sources preset) 0) as (H1 & H2 & H3).
  now repeat split.
Qed.

End StoreFacts.

Section HandlerFacts.

Context {T : Type}.
Import Store.

(** X27 -- dragging changes positions only: the handler of a dragged
    source leaves the ids, the values and the number of the sources, the
    mode and the test charge as they are, and moves exactly the sources of
    the dragged id; the handler of the dragged test charge moves the test
    charge, keeps its value, creates none when there is none, and leaves
    the sources and the mode as they are. *)
Theorem dragging_changes_positions_only :
  forall (state : FieldStore T) (i : String.string) (pos : Position T),
    let dragged := ScenePanel.handleSourcePositionChange i pos state in
    let moved := ScenePanel.handleTestChargePositionChange pos state in
    map (@id T) (sources dragged) = map (@id T) (sources state) /\
    map (@value T) (sources dragged) = map (@value T) (sources state) /\
    map (@position T) (sources dragged) =
      map (fun s => if String.eqb (id s) i then pos else position s) (sources state) /\
    mode dragged = mode state /\ testCharge dragged = testCharge state /\
    sources moved = sources state /\ mode moved = mode state /\
    testCharge moved =
      match testCharge state with
      | Some tc => Some {| TestCharge.position := pos;
                           TestCharge.value := TestCharge.value tc |}
      | None => None
      end.
Proof.
  intros state i pos. cbv zeta.
  unfold ScenePanel.handleSourcePositionChange, ScenePanel.handleTestChargePositionChange.
  cbn [updateSource sources mode testCharge].
  rewrite !map_map.
  split; [|split; [|split; [|split; [reflexivity|split; [reflexivity|]]]]].
  - apply map_ext. intros s. now destruct (String.eqb (id s) i).
  - apply map_ext. intros s. now destruct (String.eqb (id s) i).
  - apply map_ext. intros s. now destruct (String.eqb (id s) i).
  - destruct (testCharge state) as [tc|] eqn:E; cbn [updateTestCharge sources mode testCharge];
      rewrite ?E; now repeat split.
Qed.

End HandlerFacts.

(** ** The seeds of the field lines (any reading of the numbers) *)

Section SeedFacts.

Context {T : Type} {NT : Number T} {ET : Elementary T}.
Import FieldFlow.
Local Open Scope num_scope.

Lemma fold_push_filter (A B : Type) (keep : A -> bool) (f : A -> B) (l : list A) :
  forall acc : list B,
    fold_left (fun seeds i => if keep i then seeds ++ [f i] else seeds) l acc =
    acc ++ map f (filter keep l).
Proof.
  induction l as [|a l IH]; intros acc; cbn [fold_left filter map].
  - now rewrite app_nil_r.
  - rewrite IH. destruct (keep a); [|reflexivity].
    cbn [map]. now rewrite <- app_assoc.
Qed.

Lemma generateSphereShellSeeds_filter (sources : list (FieldSource T)) (numSeeds : nat) :
  generateSphereShellSeeds sources numSeeds =
  map (shellSeed numSeeds)
    (filter (fun i => negb (existsb (fun source =>
                 distance (shellSeed numSeeds i) (position source) <?
                 MIN_DISTANCE_FROM_SOURCE) sources))
       (seq 0 numSeeds)).
Proof.
  unfold generateSphereShellSeeds.
  rewrite (fold_push_filter
    (fun i => negb (existsb (fun source =>
                 distance (shellSeed numSeeds i) (position source) <?
                 MIN_DISTANCE_FROM_SOURCE) sources))
    (shellSeed numSeeds)).
  reflexivity.
Qed.

(** The seeds returned are seeds of the loop, in the order of the loop, and
    none of them compares as closer than [MIN_DISTANCE_FROM_SOURCE] to a
    source. *)
Lemma shell_seeds_kept (sources : list (FieldSource T)) (numSeeds : nat) :
  (forall seed : Position T, In seed (generateSphereShellSeeds sources numSeeds) ->
     (exists i : nat, (i < numSeeds)%nat /\ seed = shellSeed numSeeds i) /\
     forall source : FieldSource T, In source sources ->
       (distance seed (position source) <? MIN_DISTANCE_FROM_SOURCE) = false) /\
  (length (generateSphereShellSeeds sources numSeeds) <= numSeeds)%nat.
Proof.
  rewrite generateSphereShellSeeds_filter. split.
  - intros seed Hin. apply in_map_iff in Hin. destruct Hin as (i & <- & Hi).
    apply filter_In in Hi. destruct Hi as [Hi Hkeep]. apply in_seq in Hi.
    split; [exists i; split; [lia|reflexivity]|].
    intros source Hs. apply negb_true_iff in Hkeep.
    destruct (distance (shellSeed numSeeds i) (position source) <? MIN_DISTANCE_FROM_SOURCE)
      eqn:E; [|reflexivity].
    assert (Hex : existsb (fun source0 =>
               distance (shellSeed numSeeds i) (position source0) <?
               MIN_DISTANCE_FROM_SOURCE) sources = true).
    { apply existsb_exists. exists source. now split. }
    rewrite Hex in Hkeep. discriminate.
  - rewrite length_map. etransitivity; [apply filter_length_le|]. now rewrite length_seq.
Qed.

End SeedFacts.

(** ** When the solver answers (any reading of the numbers) *)

Section SolverFacts.

Context {T : Type} {NT : Number T}.
Local Open Scope num_scope.

Lemma closedForm_none (q1 q2 : FieldSource T) :
  closedForm q1 q2 = None <->
  (closerThanFloor q1 q2 = true \/
   (areLikeCharges q1 q2 = true /\ (rootSum q1 q2 =? lit 0) = true) \/
   (areLikeCharges q1 q2 = false /\ (rootGap q1 q2 <=? lit 0) = true)).
Proof.
  unfold closedForm, closerThanFloor, areLikeCharges, rootSum, rootGap.
  destruct (distance _ _ <? MIN_DISTANCE * METERS_PER_SCENE_UNIT).
  { split; auto. }
  destruct (unitVector _ _) as [[ux uy] uz].
  destruct (sceneToMeters (position q1)) as [[a0 a1] a2].
  destruct (sceneToMeters (position q2)) as [[b0 b1] b2].
  destruct (lit 0 <? sign (value q1) * sign (value q2)).
  - destruct (_ =? lit 0).
    + split; auto.
    + split; [discriminate|]. intros [H|[[_ H]|[H _]]]; discriminate.
  - cbv zeta. destruct (abs (value q1) <? abs (value q2)).
    + destruct (_ <=? lit 0).
      * split; auto.
      * split; [discriminate|]. intros [H|[[H _]|[_ H]]]; discriminate.
    + destruct (_ <=? lit 0).
      * split; auto.
      * split; [discriminate|]. intros [H|[[H _]|[_ H]]]; discriminate.
Qed.

Lemma findEquilibriumPoint_none (sources : list (FieldSource T)) (mode : FieldMode) :
  findEquilibriumPoint sources mode = None <->
  (length sources <> 2%nat \/ mode <> electric \/
   exists q1 q2 : FieldSource T, sources = [q1; q2] /\ closedForm q1 q2 = None).
Proof.
  destruct sources as [|q1 [|q2 [|q3 rest]]]; cbn [findEquilibriumPoint length].
  - split; [intros _; left; discriminate|reflexivity].
  - split; [intros _; left; discriminate|reflexivity].
  - destruct mode.
    + destruct (closedForm q1 q2) as [[[m0 m1] m2]|] eqn:Hcf.
      * split; [discriminate|]. intros [H|[H|H]]; try congruence.
        destruct H as (q1' & q2' & Heq & H). injection Heq as <- <-. congruence.
      * split; [|reflexivity]. intros _. right. right. now exists q1, q2.
    + split; [intros _; right; left; discriminate|reflexivity].
  - split; [intros _; left; cbn; lia|reflexivity].
Qed.

End SolverFacts.

(** ** "Place at equilibrium" (any reading of the numbers) *)

Section PlacementFacts.

Context {T : Type} {NT : Number T}.
Import Store.

Lemma findEquilibriumPoint_some (sources : list (FieldSource T)) (mode : FieldMode)
    (pos : Position T) :
  findEquilibriumPoint sources mode = Some pos ->
  mode = electric /\ length sources = 2%nat.
Proof.
  destruct sources as [|q1 [|q2 [|q3 rest]]]; destruct mode; cbn [findEquilibriumPoint];
    try discriminate.
  intros _. now split.
Qed.

(** X28 -- "place at equilibrium" leaves the sources and the mode as they
    are and changes the test charge only where the solver answers: in
    gravity mode, unless there are exactly two sources, and whenever
    [findEquilibriumPoint] returns [null], the state is unchanged; when it
    returns a position, the test charge is set there, with the value of the
    test charge there was, or with [1e-12] if there was none.  Asking again
    changes nothing more. *)
Theorem place_at_equilibrium_moves_test_charge :
  forall state : FieldStore T,
    let state' := Sidebar.handlePlaceAtEquilibrium state in
    sources state' = sources state /\ mode state' = mode state /\
    (findEquilibriumPoint (sources state) (mode state) = None -> state' = state) /\
    (mode state = gravity \/ length (sources state) <> 2%nat -> state' = state) /\
    (forall pos : Position T,
       findEquilibriumPoint (sources state) (mode state) = Some pos ->
       testCharge state' =
         Some {| TestCharge.position := pos;
                 TestCharge.value := match testCharge state with
                                     | Some old => TestCharge.value old
                                     | None => e_neg 1 12
                                     end |}) /\
    Sidebar.handlePlaceAtEquilibrium state' = state'.
Proof.
  intros state. cbv zeta. unfold Sidebar.handlePlaceAtEquilibrium at 1 2 3 4 5 7.
  destruct (findEquilibriumPoint (sources state) (mode state)) as [pos|] eqn:Hfind.
  - destruct (findEquilibriumPoint_some _ _ Hfind) as [Hmode Hlen].
    cbn [setTestCharge sources mode testCharge].
    split; [reflexivity|]. split; [reflexivity|]. split; [discriminate|].
    split; [intros [Hg|Hn]; [congruence|contradiction]|].
    split.
    + intros pos' Hpos'. injection Hpos' as <-. rewrite Hmode. reflexivity.
    + unfold Sidebar.handlePlaceAtEquilibrium.
      cbn [setTestCharge sources mode testCharge]. rewrite Hfind.
      cbn [TestCharge.value]. reflexivity.
  - split; [reflexivity|]. split; [reflexivity|]. split; [reflexivity|].
    split; [reflexivity|]. split; [discriminate|].
    unfold Sidebar.handlePlaceAtEquilibrium. now rewrite Hfind.
Qed.

End PlacementFacts.

(** ** Double precision: rounding gives no NaN *)

(* The lemmas on [SpecFloat] take their arguments explicitly. *)
Unset Implicit Arguments.

Section RoundingFacts.

Local Open Scope Z_scope.

Lemma shr_1_half (mrs : shr_record) :
  0 <= shr_m mrs -> shr_m (shr_1 mrs) = shr_m mrs / 2.
Proof.
  destruct mrs as [m r s]. cbn [shr_m]. intros Hm. unfold shr_1.
  destruct m as [|p|p]; [reflexivity| |lia].
  destruct p as [p|p|]; cbn [shr_m].
  - rewrite Pos2Z.inj_xI. apply Z.div_unique with (r := 1); lia.
  - rewrite Pos2Z.inj_xO. apply Z.div_unique with (r := 0); lia.
  - reflexivity.
Qed.

Lemma pow2_xO (p : positive) : 2 ^ Zpos p~0 = 2 ^ Zpos p * 2 ^ Zpos p.
Proof. rewrite <- Z.pow_add_r by lia. f_equal. lia. Qed.

Lemma pow2_xI (p : positive) : 2 ^ Zpos p~1 = 2 * (2 ^ Zpos p * 2 ^ Zpos p).
Proof.
  rewrite <- Z.pow_add_r by lia. rewrite <- Z.pow_succ_r by lia. f_equal. lia.
Qed.

Lemma iter_shr_1 (p : positive) :
  forall mrs : shr_record,
    0 <= shr_m mrs -> shr_m (iter_pos shr_1 p mrs) = shr_m mrs / 2 ^ Zpos p.
Proof.
  induction p as [p IH|p IH|]; intros mrs Hm; cbn [iter_pos].
  - pose proof (shr_1_half mrs Hm) as H1.
    assert (Hp : 0 < 2 ^ Zpos p) by (apply Z.pow_pos_nonneg; lia).
    assert (H1' : 0 <= shr_m (shr_1 mrs)) by (rewrite H1; apply Z.div_pos; lia).
    pose proof (IH _ H1') as H2.
    assert (H2' : 0 <= shr_m (iter_pos shr_1 p (shr_1 mrs))).
    { rewrite H2. apply Z.div_pos; lia. }
    rewrite (IH _ H2'), H2, H1, pow2_xI.
    rewrite !Z.div_div by lia. reflexivity.
  - pose proof (IH _ Hm) as H2.
    assert (Hp : 0 < 2 ^ Zpos p) by (apply Z.pow_pos_nonneg; lia).
    assert (H2' : 0 <= shr_m (iter_pos shr_1 p mrs)).
    { rewrite H2. apply Z.div_pos; lia. }
    rewrite (IH _ H2'), H2, pow2_xO.
    rewrite Z.div_div by lia. reflexivity.
  - rewrite shr_1_half by exact Hm. reflexivity.
Qed.

Lemma shr_record_of_loc_m (m : Z) (l : location) : shr_m (shr_record_of_loc m l) = m.
Proof. destruct l as [|[ | | ]]; reflexivity. Qed.

Lemma shr_nonneg (mrs : shr_record) (e n : Z) :
  0 <= shr_m mrs -> 0 <= shr_m (fst (shr mrs e n)).
Proof.
  intros Hm. unfold shr. destruct n as [|p|p]; cbn [fst]; try exact Hm.
  rewrite iter_shr_1 by exact Hm. apply Z.div_pos; [lia|]. apply Z.pow_pos_nonneg; lia.
Qed.

Lemma round_nearest_even_bounds (mx : Z) (lx : location) :
  mx <= round_nearest_even mx lx <= mx + 1.
Proof.
  unfold round_nearest_even. destruct lx as [|[ | | ]]; try lia.
  destruct (Z.even mx); lia.
Qed.

(** The result of rounding a mantissa that is not negative is a zero, a
    finite number or an infinity of the given sign. *)
Lemma binary_round_aux_sign (sx : bool) (mx ex : Z) (lx : location) :
  0 <= mx ->
  match binary_round_aux prec emax sx mx ex lx with
  | S754_zero s | S754_infinity s | S754_finite s _ _ => s = sx
  | S754_nan => False
  end.
Proof.
  intros Hm. unfold binary_round_aux, shr_fexp.
  set (n1 := fexp prec emax (Zdigits2 mx + ex) - ex).
  pose proof (shr_nonneg (shr_record_of_loc mx lx) ex n1) as H1.
  rewrite shr_record_of_loc_m in H1. specialize (H1 Hm).
  destruct (shr (shr_record_of_loc mx lx) ex n1) as [mrs' e'].
  cbn [fst] in H1.
  pose proof (round_nearest_even_bounds (shr_m mrs') (loc_of_shr_record mrs')) as Hr.
  set (m1 := round_nearest_even (shr_m mrs') (loc_of_shr_record mrs')) in *.
  set (n2 := fexp prec emax (Zdigits2 m1 + e') - e').
  pose proof (shr_nonneg (shr_record_of_loc m1 loc_Exact) e' n2) as H2.
  rewrite shr_record_of_loc_m in H2. specialize (H2 ltac:(lia)).
  destruct (shr (shr_record_of_loc m1 loc_Exact) e' n2) as [mrs'' e''].
  cbn [fst] in H2.
  destruct (shr_m mrs'') as [|p|p]; [reflexivity| |lia].
  destruct (e'' <=? emax - prec); reflexivity.
Qed.

Lemma digits2_pos_lower (m : positive) : 2 ^ (Zpos (digits2_pos m) - 1) <= Zpos m.
Proof.
  induction m as [m IH|m IH|]; cbn [digits2_pos]; [| |cbn; lia].
  - rewrite Pos2Z.inj_succ. replace (Z.succ (Zpos (digits2_pos m)) - 1)
      with (Z.succ (Zpos (digits2_pos m) - 1)) by lia.
    rewrite Z.pow_succ_r by lia. lia.
  - rewrite Pos2Z.inj_succ. replace (Z.succ (Zpos (digits2_pos m)) - 1)
      with (Z.succ (Zpos (digits2_pos m) - 1)) by lia.
    rewrite Z.pow_succ_r by lia. lia.
Qed.

(** A positive mantissa with an exponent above the least one does not round
    to zero. *)
Lemma shr_fexp_positive (m : positive) (e : Z) (l : location) :
  -1073 <= e ->
  0 < shr_m (fst (shr_fexp prec emax (Zpos m) e l)) /\
  e <= snd (shr_fexp prec emax (Zpos m) e l).
Proof.
  intros He. unfold shr_fexp, shr.
  cbn [Zdigits2]. unfold fexp, SpecFloat.emin.
  change (3 - emax - prec) with (-1074).
  set (d := Zpos (digits2_pos m)).
  pose proof (digits2_pos_lower m) as Hd. fold d in Hd.
  destruct (Z.max (d + e - prec) (-1074) - e) as [|p|p] eqn:Hn; cbn [fst snd];
    rewrite ?shr_record_of_loc_m; try lia.
  rewrite iter_shr_1 by (rewrite shr_record_of_loc_m; lia).
  rewrite shr_record_of_loc_m. split; [|lia].
  change prec with 53 in Hn.
  assert (Hp : Zpos p = d - 53) by lia.
  apply Z.div_str_pos. split; [apply Z.pow_pos_nonneg; lia|].
  rewrite Hp. etransitivity; [|exact Hd].
  apply Z.pow_le_mono_r; lia.
Qed.

Lemma binary_round_aux_positive (sx : bool) (m : positive) (e : Z) (l : location) :
  -1073 <= e ->
  match binary_round_aux prec emax sx (Zpos m) e l with
  | S754_infinity s | S754_finite s _ _ => s = sx
  | _ => False
  end.
Proof.
  intros He. unfold binary_round_aux.
  destruct (shr_fexp_positive m e l He) as [H1 He'].
  destruct (shr_fexp prec emax (Zpos m) e l) as [mrs' e'].
  cbn [fst snd] in H1, He'.
  pose proof (round_nearest_even_bounds (shr_m mrs') (loc_of_shr_record mrs')) as Hr.
  destruct (round_nearest_even (shr_m mrs') (loc_of_shr_record mrs')) as [|m1|m1]; try lia.
  destruct (shr_fexp_positive m1 e' loc_Exact) as [H2 _]; [lia|].
  destruct (shr_fexp prec emax (Zpos m1) e' loc_Exact) as [mrs'' e''].
  cbn [fst] in H2.
  destruct (shr_m mrs'') as [|p|p]; try lia.
  destruct (e'' <=? emax - prec); reflexivity.
Qed.

End RoundingFacts.

(** ** Double precision: the classes of the operands and of the results *)

Section ClassFacts.

Local Open Scope Z_scope.

Lemma SFfinite_notnan (x : spec_float) : SFfinite x -> SFnotnan x.
Proof. now destruct x. Qed.

Lemma SFnonneg_notnan (x : spec_float) : SFnonneg x -> SFnotnan x.
Proof. now destruct x. Qed.

Lemma SFpositive_nonneg (x : spec_float) : SFpositive x -> SFnonneg x.
Proof. now destruct x as [| | |[|]]. Qed.

Lemma binary_round_sign (sx : bool) (mx : positive) (ex : Z) :
  match binary_round prec emax sx mx ex with
  | S754_zero s | S754_infinity s | S754_finite s _ _ => s = sx
  | S754_nan => False
  end.
Proof.
  unfold binary_round. destruct (shl_align mx ex _) as [mz ez].
  apply binary_round_aux_sign. lia.
Qed.

Lemma binary_normalize_notnan (m e : Z) (szero : bool) :
  SFnotnan (binary_normalize prec emax m e szero) /\
  (0 <= m -> szero = false -> SFnonneg (binary_normalize prec emax m e szero)).
Proof.
  unfold binary_normalize. destruct m as [|p|p].
  - split; [exact I|]. intros _ _. exact I.
  - pose proof (binary_round_sign false p e) as H.
    destruct (binary_round prec emax false p e) as [s|s| |s m' e']; try contradiction;
      subst; split; try exact I; intros _ _; exact I.
  - pose proof (binary_round_sign true p e) as H.
    destruct (binary_round prec emax true p e) as [s|s| |s m' e']; try contradiction;
      subst; split; try exact I; intros Hp; lia.
Qed.

Lemma SFmul_notnan (x y : spec_float) :
  SFfinite x -> SFfinite y -> SFnotnan (SF64mul x y).
Proof.
  destruct x as [sx|sx| |sx mx ex], y as [sy|sy| |sy my ey]; cbn; try easy.
  intros _ _.
  pose proof (binary_round_aux_sign (xorb sx sy) (Zpos (mx * my)) (ex + ey) loc_Exact
                ltac:(lia)) as H.
  now destruct (binary_round_aux _ _ _ _ _ _).
Qed.

Lemma SFsquare_nonneg (x : spec_float) : SFnotnan x -> SFnonneg (SF64mul x x).
Proof.
  destruct x as [sx|sx| |sx mx ex]; cbn; try easy.
  - now destruct sx.
  - intros _.
    pose proof (binary_round_aux_sign (xorb sx sx) (Zpos (mx * mx)) (ex + ex) loc_Exact
                  ltac:(lia)) as H.
    rewrite xorb_nilpotent in *.
    destruct (binary_round_aux _ _ _ _ _ _) as [s|s| |s m' e']; try contradiction;
      now subst.
Qed.

Lemma SFsquare_positive (x : spec_float) :
  match x with
  | S754_infinity false => True
  | S754_finite false _ e => -536 <= e
  | _ => False
  end ->
  SFpositive (SF64mul x x).
Proof.
  destruct x as [sx|[|]| |[|] mx ex]; cbn; try easy.
  intros He.
  pose proof (binary_round_aux_positive false (mx * mx) (ex + ex) loc_Exact ltac:(lia)) as H.
  destruct (binary_round_aux _ _ _ _ _ _) as [s|s| |s m' e']; try contradiction; now subst.
Qed.

Lemma SFadd_notnan (x y : spec_float) :
  SFfinite x -> SFfinite y -> SFnotnan (SF64add x y).
Proof.
  destruct x as [sx|sx| |sx mx ex], y as [sy|sy| |sy my ey]; cbn; try easy.
  - now destruct sx, sy.
  - intros _ _. apply binary_normalize_notnan.
Qed.

Lemma SFsub_notnan (x y : spec_float) :
  SFfinite x -> SFfinite y -> SFnotnan (SF64sub x y).
Proof.
  destruct x as [sx|sx| |sx mx ex], y as [sy|sy| |sy my ey]; cbn; try easy.
  - now destruct sx, sy.
  - intros _ _. apply binary_normalize_notnan.
Qed.

Lemma SFadd_nonneg (x y : spec_float) :
  SFnonneg x -> SFnonneg y -> SFnonneg (SF64add x y).
Proof.
  destruct x as [sx|[|]| |[|] mx ex], y as [sy|[|]| |[|] my ey]; cbn; try easy.
  - now destruct sx, sy.
  - intros _ _.
    match goal with
    | |- context [binary_round ?p ?em ?s ?m ?e] =>
        pose proof (binary_round_sign s m e) as H; destruct (binary_round p em s m e)
    end; try contradiction; now subst.
Qed.

Lemma SFdiv_notnan (x y : spec_float) :
  SFfinite x -> SFpositive y -> SFnotnan (SF64div x y).
Proof.
  destruct x as [sx|sx| |sx mx ex], y as [sy|[|]| |[|] my ey]; cbn; try easy.
  intros _ _. unfold SFdiv_core_binary.
  set (s := ex - ey - _).
  set (m' := match s with Z0 => Zpos mx | Zpos _ => Z.shiftl (Zpos mx) s | Zneg _ => 0 end).
  assert (Hm' : 0 <= m').
  { unfold m'. destruct s; try lia. apply Z.shiftl_nonneg. lia. }
  pose proof (Z.div_pos m' (Zpos my) Hm' ltac:(lia)) as Hq.
  unfold Z.div in Hq. destruct (Z.div_eucl m' (Zpos my)) as [q r].
  pose proof (binary_round_aux_sign (xorb sx false) q
                (Z.min (fexp prec emax (Zdigits2 (Zpos mx) + ex - (Zdigits2 (Zpos my) + ey)))
                   (ex - ey)) (new_location (Zpos my) r) Hq) as H.
  now destruct (binary_round_aux _ _ _ _ _ _).
Qed.

Lemma SFsqrt_nonneg (x : spec_float) : SFnonneg x -> SFnonneg (SF64sqrt x).
Proof.
  destruct x as [sx|[|]| |[|] mx ex]; cbn; try easy.
  intros _. unfold SFsqrt_core_binary.
  set (e' := Z.min _ _).
  set (s := ex - 2 * e').
  set (m' := match s with Z0 => Zpos mx | Zpos _ => Z.shiftl (Zpos mx) s | Zneg _ => 0 end).
  pose proof (Z.sqrtrem_spec m') as Hspec.
  assert (Hm' : 0 <= m').
  { unfold m'. destruct s; try lia. apply Z.shiftl_nonneg. lia. }
  specialize (Hspec Hm').
  destruct (Z.sqrtrem m') as [q r].
  assert (Hq : 0 <= q) by lia.
  set (l := if r =? 0 then loc_Exact else loc_Inexact (if r <=? q then Lt else Gt)).
  pose proof (binary_round_aux_sign false q e' l Hq) as H.
  destruct (binary_round_aux _ _ _ _ _ _) as [sr|sr| |sr mr er]; try contradiction;
    now subst.
Qed.

Lemma SFcompare_refl (x : spec_float) : SFnotnan x -> SFcompare x x = Some Eq.
Proof.
  destruct x as [sx|[|]| |[|] mx ex]; cbn; try easy; intros _;
    rewrite Z.compare_refl, Pos.compare_cont_refl; reflexivity.
Qed.

Lemma SFltb_zero_positive (x : spec_float) :
  SFltb (S754_zero false) x = true <-> SFpositive x.
Proof. destruct x as [sx|[|]| |[|] mx ex]; cbn; split; easy. Qed.

(** What is not NaN and not below a positive number is positive, with an
    exponent that is not smaller. *)
Lemma SFnot_below (x : spec_float) (mc : positive) (ec : Z) :
  SFnotnan x -> SFltb x (S754_finite false mc ec) = false ->
  match x with
  | S754_infinity false => True
  | S754_finite false _ e => ec <= e
  | _ => False
  end.
Proof.
  destruct x as [sx|[|]| |[|] mx ex]; cbn; try easy.
  intros _. unfold SFltb. cbn.
  destruct (ex ?= ec) eqn:E; try easy.
  - apply Z.compare_eq in E. lia.
  - apply Z.compare_gt_iff in E. lia.
Qed.

End ClassFacts.

Set Implicit Arguments.

Section DoubleFacts.

Local Open Scope float_scope.

Lemma is_nan_spec (a : float) : PrimFloat.is_nan a = false <-> SFnotnan (Prim2SF a).
Proof.
  unfold PrimFloat.is_nan. rewrite eqb_spec. unfold SFeqb.
  destruct (Prim2SF a) as [s|s| |s m e] eqn:E; cbn [SFnotnan].
  - rewrite SFcompare_refl by exact I. now split.
  - rewrite SFcompare_refl by exact I. now split.
  - cbn. now split.
  - rewrite SFcompare_refl by exact I. now split.
Qed.

Lemma is_infinity_spec (a : float) :
  PrimFloat.is_infinity a = false <->
  match Prim2SF a with S754_infinity _ => False | _ => True end.
Proof.
  unfold PrimFloat.is_infinity. rewrite eqb_spec, abs_spec.
  change (Prim2SF infinity) with (S754_infinity false).
  destruct (Prim2SF a) as [s|s| |s m e]; cbn; now split.
Qed.

Lemma isFinite_spec (a : float) : isFinite a = true <-> SFfinite (Prim2SF a).
Proof.
  unfold isFinite. rewrite andb_true_iff, !negb_true_iff, is_nan_spec, is_infinity_spec.
  destruct (Prim2SF a); cbn; tauto.
Qed.

Lemma positive_spec (a : float) : (0 <? a) = true <-> SFpositive (Prim2SF a).
Proof.
  rewrite ltb_spec. change (Prim2SF 0) with (S754_zero false).
  apply SFltb_zero_positive.
Qed.

Lemma positive_facts (a : float) :
  (0 <? a) = true ->
  PrimFloat.is_nan a = false /\ (a =? 0) = false.
Proof.
  rewrite positive_spec. intros H. split.
  - apply is_nan_spec. now apply SFnonneg_notnan, SFpositive_nonneg.
  - rewrite eqb_spec. change (Prim2SF 0) with (S754_zero false).
    now destruct (Prim2SF a) as [s|[|]| |[|] m e].
Qed.

(** [Math.max(a, c)] for a positive constant [c] and [a] that is not NaN. *)
Lemma max_floor (a c : float) (mc : positive) (ec : Z) :
  Prim2SF c = S754_finite false mc ec ->
  SFnotnan (Prim2SF a) ->
  match Prim2SF (max a c) with
  | S754_infinity false => True
  | S754_finite false _ e => (ec <= e)%Z
  | _ => False
  end.
Proof.
  intros Hc Ha. unfold max. cbn [eqb ltb FNumber].
  rewrite !eqb_spec, ltb_spec. unfold SFeqb.
  rewrite (SFcompare_refl _ Ha). cbn [negb].
  assert (Hcn : SFnotnan (Prim2SF c)) by (rewrite Hc; exact I).
  rewrite (SFcompare_refl _ Hcn). cbn [negb].
  destruct (SFltb (Prim2SF a) (Prim2SF c)) eqn:E.
  - rewrite Hc. lia.
  - rewrite Hc in E. now apply SFnot_below with (mc := mc).
Qed.

Lemma max_floor_positive (a c : float) (mc : positive) (ec : Z) :
  Prim2SF c = S754_finite false mc ec -> (-536 <= ec)%Z ->
  SFnotnan (Prim2SF a) ->
  (0 <? max a c) = true /\ (0 <? max a c * max a c) = true.
Proof.
  intros Hc Hec Ha. pose proof (@max_floor a c mc ec Hc Ha) as H.
  rewrite !positive_spec, mul_spec. split.
  - now destruct (Prim2SF (max a c)) as [s|[|]| |[|] m e].
  - apply SFsquare_positive.
    destruct (Prim2SF (max a c)) as [s|[|]| |[|] m e]; try easy. lia.
Qed.

(** The operations on finite numbers give no NaN. *)
Lemma finite_operations (a b : float) :
  isFinite a = true -> isFinite b = true ->
  PrimFloat.is_nan (a + b) = false /\ PrimFloat.is_nan (a - b) = false /\
  PrimFloat.is_nan (a * b) = false.
Proof.
  rewrite !isFinite_spec, !is_nan_spec, add_spec, sub_spec, mul_spec. intros Ha Hb.
  split; [now apply SFadd_notnan|split; [now apply SFsub_notnan|now apply SFmul_notnan]].
Qed.

Lemma finite_quotient (a b : float) :
  isFinite a = true -> (0 <? b) = true -> PrimFloat.is_nan (a / b) = false.
Proof.
  rewrite isFinite_spec, positive_spec, is_nan_spec, div_spec. apply SFdiv_notnan.
Qed.

Lemma finite_of_not_infinite (a : float) :
  PrimFloat.is_nan a = false -> PrimFloat.is_infinity a = false -> isFinite a = true.
Proof. unfold isFinite. now intros -> ->. Qed.

(** The distance of two finite points is not NaN and not negative. *)
Lemma distance_nonneg64 (p q : Position float) :
  finite3 p = true -> finite3 q = true -> SFnonneg (Prim2SF (distance p q)).
Proof.
  destruct p as [[a0 a1] a2], q as [[b0 b1] b2]. unfold finite3.
  rewrite !andb_true_iff, !isFinite_spec. intros [[Ha0 Ha1] Ha2] [[Hb0 Hb1] Hb2].
  unfold distance. cbn [sqrt add mul sub FNumber].
  rewrite sqrt_spec, !add_spec, !mul_spec, !sub_spec.
  apply SFsqrt_nonneg. repeat apply SFadd_nonneg; apply SFsquare_nonneg;
    now apply SFsub_notnan.
Qed.

End DoubleFacts.

(** ** Double precision: scaling by [METERS_PER_SCENE_UNIT] *)

Section ScalingFacts.

Local Open Scope Z_scope.

Lemma digits2_pos_upper (m : positive) : Zpos m < 2 ^ Zpos (digits2_pos m).
Proof.
  induction m as [m IH|m IH|]; cbn [digits2_pos]; [| |cbn; lia].
  - rewrite Pos2Z.inj_succ, Z.pow_succ_r by lia. lia.
  - rewrite Pos2Z.inj_succ, Z.pow_succ_r by lia. lia.
Qed.

Lemma digits2_pos_le (m : positive) (k : Z) :
  Zpos m < 2 ^ k -> Zpos (digits2_pos m) <= k.
Proof.
  intros Hm. pose proof (digits2_pos_lower m) as Hd.
  destruct (Z_lt_le_dec k (Zpos (digits2_pos m))) as [Hlt|]; [|assumption].
  exfalso.
  assert (H : 2 ^ k <= 2 ^ (Zpos (digits2_pos m) - 1)).
  { destruct (Z_lt_le_dec k 0) as [Hneg|Hk].
    - rewrite (Z.pow_neg_r 2 k Hneg). apply Z.pow_nonneg. lia.
    - apply Z.pow_le_mono_r; lia. }
  lia.
Qed.

(** The exponent and the mantissa after the shift of [shr_fexp]. *)
Lemma shr_fexp_result (m e : Z) (l : location) :
  0 <= m ->
  let e' := Z.max e (fexp prec emax (Zdigits2 m + e)) in
  snd (shr_fexp prec emax m e l) = e' /\
  shr_m (fst (shr_fexp prec emax m e l)) = m / 2 ^ (e' - e).
Proof.
  intros Hm e'. unfold shr_fexp, shr. subst e'.
  destruct (fexp prec emax (Zdigits2 m + e) - e) as [|p|p] eqn:Hn; cbn [fst snd];
    rewrite ?shr_record_of_loc_m.
  - replace (Z.max e (fexp prec emax (Zdigits2 m + e))) with e by lia.
    rewrite Z.sub_diag. cbn. now rewrite Z.div_1_r.
  - replace (Z.max e (fexp prec emax (Zdigits2 m + e))) with (e + Zpos p) by lia.
    split; [reflexivity|].
    rewrite iter_shr_1 by (rewrite shr_record_of_loc_m; exact Hm).
    rewrite shr_record_of_loc_m. f_equal. f_equal. lia.
  - replace (Z.max e (fexp prec emax (Zdigits2 m + e))) with e by lia.
    rewrite Z.sub_diag. cbn. now rewrite Z.div_1_r.
Qed.

(** A product of mantissas whose rounded exponent stays below the greatest
    one does not overflow. *)
Lemma binary_round_aux_bounded (sx : bool) (m : positive) (e : Z) (l : location) :
  e <= 969 -> Zpos (digits2_pos m) + e - 53 <= 969 ->
  match binary_round_aux prec emax sx (Zpos m) e l with
  | S754_infinity _ | S754_nan => False
  | _ => True
  end.
Proof.
  intros He Hd. unfold binary_round_aux.
  destruct (@shr_fexp_result (Zpos m) e l ltac:(lia)) as [He' Hm'].
  destruct (shr_fexp prec emax (Zpos m) e l) as [mrs' e'].
  cbn [fst snd] in He', Hm'. rewrite <- He' in Hm'. cbn [Zdigits2] in He'.
  unfold fexp, SpecFloat.emin in He'. change (3 - emax - prec) with (-1074) in He'.
  change prec with 53 in He'.
  set (d := Zpos (digits2_pos m)) in *.
  assert (Hbound : e' <= 969) by lia.
  assert (Hshift : d - 53 <= e' - e /\ 0 <= e' - e) by lia.
  assert (Hsmall : 0 <= shr_m mrs' < 2 ^ 53).
  { rewrite Hm'.
    set (n := e' - e) in *.
    assert (Hp : 0 < 2 ^ n) by (apply Z.pow_pos_nonneg; lia).
    split; [apply Z.div_pos; lia|].
    apply Z.div_lt_upper_bound; [exact Hp|].
    pose proof (digits2_pos_upper m) as Hu. fold d in Hu.
    rewrite <- Z.pow_add_r by lia.
    eapply Z.lt_le_trans; [exact Hu|]. apply Z.pow_le_mono_r; lia. }
  pose proof (round_nearest_even_bounds (shr_m mrs') (loc_of_shr_record mrs')) as Hr.
  set (m1 := round_nearest_even (shr_m mrs') (loc_of_shr_record mrs')) in *.
  assert (Hm1 : 0 <= m1 <= 2 ^ 53) by lia.
  destruct (@shr_fexp_result m1 e' loc_Exact ltac:(lia)) as [He'' Hm''].
  destruct (shr_fexp prec emax m1 e' loc_Exact) as [mrs'' e''].
  cbn [fst snd] in He'', Hm''. rewrite <- He'' in Hm''.
  assert (Hd1 : Zdigits2 m1 <= 54).
  { destruct m1 as [|p1|p1]; cbn [Zdigits2]; try lia.
    apply digits2_pos_le. change (2 ^ 54) with (2 * 2 ^ 53). lia. }
  unfold fexp, SpecFloat.emin in He''. change (3 - emax - prec) with (-1074) in He''.
  change prec with 53 in He''.
  assert (Hle : e'' <= 971) by lia.
  assert (H0 : 0 <= shr_m mrs'').
  { rewrite Hm''. apply Z.div_pos; [lia|]. apply Z.pow_pos_nonneg; lia. }
  destruct (shr_m mrs'') as [|p|p]; [exact I| |lia].
  assert (Hleb : (e'' <=? emax - prec) = true) by (apply Z.leb_le; exact Hle).
  now rewrite Hleb.
Qed.

End ScalingFacts.

Section ScalingDoubles.

Local Open Scope float_scope.

(** Scaling a finite number by [METERS_PER_SCENE_UNIT] = 0.1 gives a finite
    number. *)
Lemma scaled_finite (a : float) :
  isFinite a = true -> isFinite (mul a METERS_PER_SCENE_UNIT) = true.
Proof.
  rewrite !isFinite_spec. cbn [mul FNumber]. rewrite mul_spec.
  pose proof (Prim2SF_valid a) as Hvalid.
  assert (Hc : Prim2SF (METERS_PER_SCENE_UNIT (T:=float)) =
               S754_finite false 7205759403792794 (-56)) by (vm_compute; reflexivity).
  rewrite Hc.
  destruct (Prim2SF a) as [s|s| |s m e]; cbn [SFfinite]; try easy.
  intros _. cbn [SF64mul SFmul].
  cbn [valid_binary] in Hvalid. unfold bounded, canonical_mantissa in Hvalid.
  apply andb_true_iff in Hvalid. destruct Hvalid as [Hcan Hexp].
  apply Z.eqb_eq in Hcan. apply Z.leb_le in Hexp.
  unfold fexp, SpecFloat.emin in Hcan. change (3 - emax - prec)%Z with (-1074)%Z in Hcan.
  change prec with 53%Z in *. change emax with 1024%Z in *.
  assert (Hdm : (Zpos (digits2_pos m) <= 53)%Z) by lia.
  assert (HdM : (Zpos (digits2_pos (m * 7205759403792794)) <= Zpos (digits2_pos m) + 53)%Z).
  { apply digits2_pos_le. rewrite Pos2Z.inj_mul, Z.pow_add_r by lia.
    pose proof (digits2_pos_upper m) as Hu.
    assert (H53 : (Zpos 7205759403792794 < 2 ^ 53)%Z) by (cbn; lia).
    nia. }
  pose proof (@binary_round_aux_bounded (xorb s false) (m * 7205759403792794) (e + -56)
                loc_Exact ltac:(lia) ltac:(lia)) as H.
  now destruct (binary_round_aux _ _ _ _ _ _).
Qed.

Lemma sceneToMeters_finite (p : Position float) :
  finite3 p = true -> finite3 (sceneToMeters p) = true.
Proof.
  destruct p as [[p0 p1] p2]. unfold finite3, sceneToMeters.
  rewrite !andb_true_iff. intros [[H0 H1] H2].
  repeat split; now apply scaled_finite.
Qed.

End ScalingDoubles.

(** ** The divisors of the kernel (any reading of the numbers) *)

Section KernelShape.
Context {T : Type} {NT : Number T}.
Local Open Scope num_scope.

Lemma unitVector_divisor (from to : Position T) :
  unitVector from to =
    (let r := max (distance from to) MIN_DISTANCE in
     ((fst (fst to) - fst (fst from)) / r,
      (snd (fst to) - snd (fst from)) / r,
      (snd to - snd from) / r)).
Proof. destruct from as [[f0 f1] f2], to as [[t0 t1] t2]. reflexivity. Qed.

Lemma electricContribution_divisors (pm : Position T) (s : FieldSource T) :
  electricContribution pm s =
    (let sm := sceneToMeters (position s) in
     let r := max (distance pm sm) (MIN_DISTANCE * METERS_PER_SCENE_UNIT) in
     let magnitude := COULOMB_CONSTANT * value s / (r * r) in
     let u := unitVector sm pm in
     {| x := magnitude * fst (fst u); y := magnitude * snd (fst u);
        z := magnitude * snd u |}).
Proof.
  unfold electricContribution, rMetersOf. cbv zeta.
  destruct (unitVector _ _) as [[ux uy] uz]. reflexivity.
Qed.

Lemma gravitationalContribution_divisors (pm : Position T) (s : FieldSource T) :
  gravitationalContribution pm s =
    (let sm := sceneToMeters (position s) in
     let r := max (distance pm sm) (MIN_DISTANCE * METERS_PER_SCENE_UNIT) in
     let magnitude := GRAVITATIONAL_CONSTANT * value s / (r * r) in
     let u := unitVector pm sm in
     {| x := magnitude * fst (fst u); y := magnitude * snd (fst u);
        z := magnitude * snd u |}).
Proof.
  unfold gravitationalContribution, rMetersOf. cbv zeta.
  destruct (unitVector _ _) as [[ux uy] uz]. reflexivity.
Qed.

Lemma field_pass (mode : FieldMode) (p : Position T) (sources : list (FieldSource T))
    (s : FieldSource T) :
  fieldAt mode p (sources ++ [s]) =
    vadd (fieldAt mode p sources)
      (match mode with
       | electric => electricContribution (sceneToMeters p) s
       | gravity => gravitationalContribution (sceneToMeters p) s
       end).
Proof.
  destruct mode; cbn [fieldAt];
    unfold computeElectricFieldAtPoint, computeGravitationalFieldAtPoint;
    cbv zeta; now rewrite fold_left_app.
Qed.

Lemma potential_pass (p : Position T) (sources : list (FieldSource T)) (s : FieldSource T) :
  computeElectricPotentialAtPoint p (sources ++ [s]) =
    computeElectricPotentialAtPoint p sources +
    COULOMB_CONSTANT * value s /
      max (distance (sceneToMeters p) (sceneToMeters (position s)))
          (MIN_DISTANCE * METERS_PER_SCENE_UNIT) /\
  computeGravitationalPotentialAtPoint p (sources ++ [s]) =
    computeGravitationalPotentialAtPoint p sources -
    GRAVITATIONAL_CONSTANT * value s /
      max (distance (sceneToMeters p) (sceneToMeters (position s)))
          (MIN_DISTANCE * METERS_PER_SCENE_UNIT).
Proof.
  unfold computeElectricPotentialAtPoint, computeGravitationalPotentialAtPoint.
  cbv zeta. now rewrite !fold_left_app.
Qed.

End KernelShape.

(** ** Double precision: the passes and the loops of the kernel *)

Section KernelDoubles.

Local Open Scope float_scope.

Lemma noOverflow_cons (a : float) (rest : list float) :
  noOverflow (a :: rest) = true <->
  PrimFloat.is_infinity a = false /\ noOverflow rest = true.
Proof. unfold noOverflow. cbn [forallb]. now rewrite andb_true_iff, negb_true_iff. Qed.

(** The divisors of the kernel at finite points: positive, so neither zero
    nor NaN. *)
Lemma divisors_positive (p q : Position float) :
  finite3 p = true -> finite3 q = true ->
  (0 <? max (distance p q) MIN_DISTANCE) = true /\
  (0 <? max (distance p q) (mul MIN_DISTANCE METERS_PER_SCENE_UNIT)) = true /\
  (0 <? max (distance p q) (mul MIN_DISTANCE METERS_PER_SCENE_UNIT) *
        max (distance p q) (mul MIN_DISTANCE METERS_PER_SCENE_UNIT)) = true.
Proof.
  intros Hp Hq.
  pose proof (SFnonneg_notnan _ (@distance_nonneg64 p q Hp Hq)) as Hd.
  assert (H1 : Prim2SF (MIN_DISTANCE (T:=float)) = S754_finite false 7205759403792794 (-56))
    by (vm_compute; reflexivity).
  assert (H2 : Prim2SF (mul (MIN_DISTANCE (T:=float)) METERS_PER_SCENE_UNIT) =
               S754_finite false 5764607523034236 (-59)) by (vm_compute; reflexivity).
  split; [|split].
  - apply (@max_floor_positive _ _ _ _ H1 ltac:(lia) Hd).
  - apply (@max_floor_positive _ _ _ _ H2 ltac:(lia) Hd).
  - apply (@max_floor_positive _ _ _ _ H2 ltac:(lia) Hd).
Qed.

(** The common shape of the two loop bodies: no NaN unless a result is
    infinite. *)
Lemma contribution_finite (K v r : float) (from to : Position float) :
  finite3 from = true -> finite3 to = true ->
  isFinite K = true -> isFinite v = true -> (0 <? r * r) = true ->
  let magnitude := K * v / (r * r) in
  let u := unitVector from to in
  noOverflow [K * v; magnitude;
              fst (fst to) - fst (fst from); snd (fst to) - snd (fst from);
              snd to - snd from;
              fst (fst u); snd (fst u); snd u;
              magnitude * fst (fst u); magnitude * snd (fst u); magnitude * snd u]
    = true ->
  finiteVector {| x := magnitude * fst (fst u); y := magnitude * snd (fst u);
                  z := magnitude * snd u |} = true.
Proof.
  intros Hfrom Hto HK Hv Hr magnitude u Hno.
  destruct (@divisors_positive from to Hfrom Hto) as (Hr' & _ & _).
  unfold u in *. rewrite unitVector_divisor in *. cbv zeta in *.
  destruct from as [[f0 f1] f2], to as [[t0 t1] t2]. cbn [fst snd] in *.
  cbn [sub div FNumber] in *.
  unfold finite3 in Hfrom, Hto. rewrite !andb_true_iff in Hfrom, Hto.
  destruct Hfrom as [[Hf0 Hf1] Hf2]. destruct Hto as [[Ht0 Ht1] Ht2].
  repeat (apply noOverflow_cons in Hno; destruct Hno as [? Hno]).
  set (r' := max (distance (f0, f1, f2) (t0, t1, t2)) MIN_DISTANCE) in *.
  assert (Hkv : isFinite (K * v) = true).
  { apply finite_of_not_infinite; [now apply finite_operations|assumption]. }
  assert (Hm : isFinite magnitude = true).
  { apply finite_of_not_infinite; [now apply finite_quotient|assumption]. }
  assert (Hd0 : isFinite (t0 - f0) = true).
  { apply finite_of_not_infinite; [now apply finite_operations|assumption]. }
  assert (Hd1 : isFinite (t1 - f1) = true).
  { apply finite_of_not_infinite; [now apply finite_operations|assumption]. }
  assert (Hd2 : isFinite (t2 - f2) = true).
  { apply finite_of_not_infinite; [now apply finite_operations|assumption]. }
  assert (Hu0 : isFinite ((t0 - f0) / r') = true).
  { apply finite_of_not_infinite; [now apply finite_quotient|assumption]. }
  assert (Hu1 : isFinite ((t1 - f1) / r') = true).
  { apply finite_of_not_infinite; [now apply finite_quotient|assumption]. }
  assert (Hu2 : isFinite ((t2 - f2) / r') = true).
  { apply finite_of_not_infinite; [now apply finite_quotient|assumption]. }
  unfold finiteVector. cbn [x y z]. rewrite !andb_true_iff. repeat split;
    (apply finite_of_not_infinite; [now apply finite_operations|assumption]).
Qed.

End KernelDoubles.

Section PassDoubles.

Local Open Scope float_scope.

Lemma constants_finite :
  isFinite (COULOMB_CONSTANT (T:=float)) = true /\
  isFinite (GRAVITATIONAL_CONSTANT (T:=float)) = true.
Proof. split; vm_compute; reflexivity. Qed.

Lemma electricContribution_finite (pm : Position float) (s : FieldSource float) :
  let sm := sceneToMeters (position s) in
  let r := max (distance pm sm) (mul MIN_DISTANCE METERS_PER_SCENE_UNIT) in
  finite3 pm = true -> finite3 sm = true -> isFinite (value s) = true ->
  noOverflow (passResults COULOMB_CONSTANT (value s) r sm pm) = true ->
  finiteVector (electricContribution pm s) = true.
Proof.
  intros sm r Hpm Hsm Hv Hno.
  rewrite electricContribution_divisors. cbv zeta. fold sm r.
  destruct (@divisors_positive pm sm Hpm Hsm) as (_ & _ & Hr). fold r in Hr.
  exact (@contribution_finite COULOMB_CONSTANT (value s) r sm pm Hsm Hpm
           (proj1 constants_finite) Hv Hr Hno).
Qed.

Lemma gravitationalContribution_finite (pm : Position float) (s : FieldSource float) :
  let sm := sceneToMeters (position s) in
  let r := max (distance pm sm) (mul MIN_DISTANCE METERS_PER_SCENE_UNIT) in
  finite3 pm = true -> finite3 sm = true -> isFinite (value s) = true ->
  noOverflow (passResults GRAVITATIONAL_CONSTANT (value s) r pm sm) = true ->
  finiteVector (gravitationalContribution pm s) = true.
Proof.
  intros sm r Hpm Hsm Hv Hno.
  rewrite gravitationalContribution_divisors. cbv zeta. fold sm r.
  destruct (@divisors_positive pm sm Hpm Hsm) as (_ & _ & Hr). fold r in Hr.
  exact (@contribution_finite GRAVITATIONAL_CONSTANT (value s) r pm sm Hpm Hsm
           (proj2 constants_finite) Hv Hr Hno).
Qed.

Lemma potential_term_finite (K v r : float) :
  isFinite K = true -> isFinite v = true -> (0 <? r) = true ->
  noOverflow [K * v; K * v / r] = true -> isFinite (K * v / r) = true.
Proof.
  intros HK Hv Hr Hno.
  apply noOverflow_cons in Hno. destruct Hno as [H1 Hno].
  apply noOverflow_cons in Hno. destruct Hno as [H2 _].
  assert (Hkv : isFinite (K * v) = true).
  { apply finite_of_not_infinite; [now apply finite_operations|assumption]. }
  apply finite_of_not_infinite; [now apply finite_quotient|assumption].
Qed.

Lemma vadd_finite (a b : Vector3 float) :
  finiteVector a = true -> finiteVector b = true ->
  noOverflow (components (vadd a b)) = true -> finiteVector (vadd a b) = true.
Proof.
  unfold finiteVector, components, vadd. cbn [x y z add FNumber].
  rewrite !andb_true_iff. intros [[Ha0 Ha1] Ha2] [[Hb0 Hb1] Hb2] Hno.
  repeat (apply noOverflow_cons in Hno; destruct Hno as [? Hno]).
  repeat split; (apply finite_of_not_infinite; [now apply finite_operations|assumption]).
Qed.

Lemma force_finite (field : Vector3 float) (testValue : float) :
  finiteVector field = true -> isFinite testValue = true ->
  let F := {| x := x field * testValue; y := y field * testValue;
              z := z field * testValue |} in
  noOverflow (components F) = true -> finiteVector F = true.
Proof.
  unfold finiteVector, components. cbn [x y z].
  rewrite !andb_true_iff. intros [[Ha0 Ha1] Ha2] Hq Hno.
  repeat (apply noOverflow_cons in Hno; destruct Hno as [? Hno]).
  repeat split; (apply finite_of_not_infinite; [now apply finite_operations|assumption]).
Qed.

End PassDoubles.

Section LoopDoubles.

Local Open Scope float_scope.

Lemma fieldAt_fold (mode : FieldMode) (p : Position float)
    (sources : list (FieldSource float)) :
  fieldAt mode p sources =
    fold_left (fun acc s => vadd acc (passContribution mode p s)) sources vzero.
Proof. destruct mode; reflexivity. Qed.

Lemma potential_fold (p : Position float) (sources : list (FieldSource float)) :
  computeElectricPotentialAtPoint p sources =
    fold_left (potentialPass electric p) sources (lit 0) /\
  computeGravitationalPotentialAtPoint p sources =
    fold_left (potentialPass gravity p) sources (lit 0).
Proof. split; reflexivity. Qed.

Lemma finiteSource_spec (s : FieldSource float) :
  finiteSource s = true <-> finite3 (position s) = true /\ isFinite (value s) = true.
Proof. unfold finiteSource. apply andb_true_iff. Qed.

Lemma passContribution_finite (mode : FieldMode) (p : Position float)
    (s : FieldSource float) :
  finite3 p = true -> finiteSource s = true ->
  noOverflow (fieldPassResults mode p s) = true ->
  finiteVector (passContribution mode p s) = true.
Proof.
  intros Hp Hs Hno. apply finiteSource_spec in Hs. destruct Hs as [Hpos Hv].
  pose proof (sceneToMeters_finite _ Hp) as Hpm.
  pose proof (sceneToMeters_finite _ Hpos) as Hsm.
  destruct mode; cbn [passContribution fieldPassResults] in *.
  - now apply electricContribution_finite.
  - now apply gravitationalContribution_finite.
Qed.

Lemma fieldLoop_finite (mode : FieldMode) (p : Position float) :
  finite3 p = true ->
  forall (sources : list (FieldSource float)) (acc : Vector3 float),
    forallb finiteSource sources = true -> finiteVector acc = true ->
    fieldLoopNoOverflow mode p acc sources = true ->
    finiteVector (fold_left (fun acc s => vadd acc (passContribution mode p s)) sources acc)
      = true.
Proof.
  intros Hp sources. induction sources as [|s rest IH]; intros acc Hall Hacc Hno.
  - exact Hacc.
  - cbn [forallb] in Hall. apply andb_true_iff in Hall. destruct Hall as [Hs Hall].
    cbn [fieldLoopNoOverflow] in Hno. cbv zeta in Hno.
    rewrite !andb_true_iff in Hno. destruct Hno as [[Hpass Hsum] Hrest].
    cbn [fold_left]. apply IH; [exact Hall| |exact Hrest].
    apply vadd_finite; [exact Hacc| |exact Hsum].
    now apply passContribution_finite.
Qed.

Lemma potentialPass_finite (mode : FieldMode) (p : Position float) (acc : float)
    (s : FieldSource float) :
  finite3 p = true -> finiteSource s = true -> isFinite acc = true ->
  noOverflow [match mode with
              | electric => mul COULOMB_CONSTANT (value s)
              | gravity => mul GRAVITATIONAL_CONSTANT (value s)
              end; potentialTerm mode p s; potentialPass mode p acc s] = true ->
  isFinite (potentialPass mode p acc s) = true.
Proof.
  intros Hp Hs Hacc Hno. apply finiteSource_spec in Hs. destruct Hs as [Hpos Hv].
  pose proof (sceneToMeters_finite _ Hp) as Hpm.
  pose proof (sceneToMeters_finite _ Hpos) as Hsm.
  destruct (@divisors_positive _ _ Hpm Hsm) as (_ & Hr & _).
  apply noOverflow_cons in Hno. destruct Hno as [H1 Hno].
  apply noOverflow_cons in Hno. destruct Hno as [H2 Hno].
  apply noOverflow_cons in Hno. destruct Hno as [H3 _].
  assert (Hterm : isFinite (potentialTerm mode p s) = true).
  { destruct mode; cbn [potentialTerm] in *; unfold rMetersOf in *;
      apply potential_term_finite; try assumption; try apply constants_finite;
      apply noOverflow_cons; (split; [assumption|]);
      apply noOverflow_cons; (split; [assumption|reflexivity]). }
  destruct mode; cbn [potentialPass] in *;
    (apply finite_of_not_infinite; [now apply finite_operations|assumption]).
Qed.

Lemma potentialLoop_finite (mode : FieldMode) (p : Position float) :
  finite3 p = true ->
  forall (sources : list (FieldSource float)) (acc : float),
    forallb finiteSource sources = true -> isFinite acc = true ->
    potentialLoopNoOverflow mode p acc sources = true ->
    isFinite (fold_left (potentialPass mode p) sources acc) = true.
Proof.
  intros Hp sources. induction sources as [|s rest IH]; intros acc Hall Hacc Hno.
  - exact Hacc.
  - cbn [forallb] in Hall. apply andb_true_iff in Hall. destruct Hall as [Hs Hall].
    cbn [potentialLoopNoOverflow] in Hno. cbv zeta in Hno.
    rewrite andb_true_iff in Hno. destruct Hno as [Hpass Hrest].
    cbn [fold_left]. apply IH; [exact Hall| |exact Hrest].
    now apply potentialPass_finite.
Qed.

End LoopDoubles.

(** ** Exact arithmetic: the kernel over the real numbers *)

Module Exact.

Local Open Scope R_scope.

Abbreviation Pos := (Position R).
Abbreviation Source := (FieldSource R).
Abbreviation Vec := (Vector3 R).

(** *** The interface at [R] *)

Lemma ltb_true (a b : R) : ltb a b = true <-> a < b.
Proof. cbn. unfold Rltb. destruct (Rlt_dec a b); split; intros; auto; discriminate. Qed.

Lemma ltb_false (a b : R) : ltb a b = false <-> b <= a.
Proof.
  cbn. unfold Rltb. destruct (Rlt_dec a b); split; intros; auto; try discriminate; lra.
Qed.

Lemma leb_true (a b : R) : leb a b = true <-> a <= b.
Proof. cbn. unfold Rleb. destruct (Rle_dec a b); split; intros; auto; discriminate. Qed.

Lemma leb_false (a b : R) : leb a b = false <-> b < a.
Proof.
  cbn. unfold Rleb. destruct (Rle_dec a b); split; intros; auto; try discriminate; lra.
Qed.

Lemma eqb_true (a b : R) : eqb a b = true <-> a = b.
Proof. cbn. unfold Reqb. destruct (Req_dec_T a b); split; intros; auto; discriminate. Qed.

Lemma eqb_false (a b : R) : eqb a b = false <-> a <> b.
Proof.
  cbn. unfold Reqb. destruct (Req_dec_T a b); split; intros; auto; try discriminate.
  contradiction.
Qed.

Lemma eqb_refl (a : R) : eqb a a = true.
Proof. now apply eqb_true. Qed.

Lemma max_Rmax (a b : R) : max a b = Rmax a b.
Proof.
  unfold max. rewrite !eqb_refl. cbn [negb].
  destruct (ltb a b) eqn:H.
  - apply ltb_true in H. rewrite Rmax_right; lra.
  - apply ltb_false in H. rewrite Rmax_left; lra.
Qed.

Lemma min_Rmin (a b : R) : min a b = Rmin a b.
Proof.
  unfold min. rewrite !eqb_refl. cbn [negb].
  destruct (ltb b a) eqn:H.
  - apply ltb_true in H. rewrite Rmin_right; lra.
  - apply ltb_false in H. rewrite Rmin_left; lra.
Qed.

Lemma e_neg_eq (m k : Z) : e_neg m k = IZR m / IZR (10 ^ k).
Proof. reflexivity. Qed.

Lemma MIN_DISTANCE_eq : MIN_DISTANCE = 1 / 10.
Proof. reflexivity. Qed.

Lemma METERS_PER_SCENE_UNIT_eq : METERS_PER_SCENE_UNIT = 1 / 10.
Proof. reflexivity. Qed.

Lemma COULOMB_CONSTANT_eq : COULOMB_CONSTANT = 8990000000.
Proof. reflexivity. Qed.

Lemma GRAVITATIONAL_CONSTANT_eq : GRAVITATIONAL_CONSTANT = 6674 / 100000000000000.
Proof. reflexivity. Qed.

Lemma vec_eq (a b : Vec) : x a = x b -> y a = y b -> z a = z b -> a = b.
Proof. destruct a, b; cbn; intros; subst; reflexivity. Qed.

Lemma triple_eq (a b c a' b' c' : R) :
  a = a' -> b = b' -> c = c' -> (a, b, c) = (a', b', c').
Proof. intros -> -> ->. reflexivity. Qed.

Lemma vadd_assoc (a b c : Vec) : vadd (vadd a b) c = vadd a (vadd b c).
Proof. apply vec_eq; cbn; ring. Qed.

Lemma vadd_zero_r (a : Vec) : vadd a vzero = a.
Proof. apply vec_eq; cbn; ring. Qed.

Lemma vadd_zero_l (a : Vec) : vadd vzero a = a.
Proof. apply vec_eq; cbn; ring. Qed.

(** *** Superposition *)

Lemma fold_vadd (c : Source -> Vec) (sources : list Source) :
  forall acc : Vec,
    fold_left (fun E source => vadd E (c source)) sources acc =
    vadd acc (fold_left (fun E source => vadd E (c source)) sources vzero).
Proof.
  induction sources as [|s sources IH]; intros acc; cbn [fold_left].
  - now rewrite vadd_zero_r.
  - rewrite IH, (IH (vadd vzero (c s))), vadd_zero_l. apply vadd_assoc.
Qed.

Lemma fold_vadd_app (c : Source -> Vec) (A B : list Source) :
  fold_left (fun E source => vadd E (c source)) (A ++ B) vzero =
  vadd (fold_left (fun E source => vadd E (c source)) A vzero)
       (fold_left (fun E source => vadd E (c source)) B vzero).
Proof. rewrite fold_left_app. apply fold_vadd. Qed.

(** C1 -- Over exact arithmetic the field of a concatenated source list is
    the component-wise sum of the fields of its two parts, at every point
    and in both modes. *)
Theorem superposition :
  forall (p : Pos) (A B : list Source),
    computeElectricFieldAtPoint p (A ++ B) =
      vadd (computeElectricFieldAtPoint p A) (computeElectricFieldAtPoint p B) /\
    computeGravitationalFieldAtPoint p (A ++ B) =
      vadd (computeGravitationalFieldAtPoint p A) (computeGravitationalFieldAtPoint p B) /\
    (forall mode, fieldAt mode p (A ++ B) = vadd (fieldAt mode p A) (fieldAt mode p B)).
Proof.
  intros p A B.
  assert (He : computeElectricFieldAtPoint p (A ++ B) =
      vadd (computeElectricFieldAtPoint p A) (computeElectricFieldAtPoint p B))
    by apply fold_vadd_app.
  assert (Hg : computeGravitationalFieldAtPoint p (A ++ B) =
      vadd (computeGravitationalFieldAtPoint p A) (computeGravitationalFieldAtPoint p B))
    by apply fold_vadd_app.
  repeat split; auto.
  intros [|]; assumption.
Qed.

(** *** Distances and norms *)

Lemma sum_squares_nonneg (a b c : R) : 0 <= a * a + b * b + c * c.
Proof. nra. Qed.

Lemma norm3_nonneg (a b c : R) : 0 <= norm3 a b c.
Proof. apply sqrt_pos. Qed.

Lemma norm3_square (a b c : R) : norm3 a b c * norm3 a b c = a * a + b * b + c * c.
Proof. apply sqrt_sqrt, sum_squares_nonneg. Qed.

Lemma norm3_scale (m a b c : R) : norm3 (m * a) (m * b) (m * c) = Rabs m * norm3 a b c.
Proof.
  unfold norm3.
  replace (m * a * (m * a) + m * b * (m * b) + m * c * (m * c))
    with (Rsqr m * (a * a + b * b + c * c)) by (unfold Rsqr; ring).
  rewrite sqrt_mult; [|apply Rle_0_sqr|apply sum_squares_nonneg].
  now rewrite sqrt_Rsqr_abs.
Qed.

Lemma norm3_axis (a : R) : norm3 a 0 0 = Rabs a.
Proof.
  unfold norm3. replace (a * a + 0 * 0 + 0 * 0) with (Rsqr a) by (unfold Rsqr; ring).
  apply sqrt_Rsqr_abs.
Qed.

Lemma distance_eq (a b : Pos) :
  distance a b =
  norm3 (fst (fst b) - fst (fst a)) (snd (fst b) - snd (fst a)) (snd b - snd a).
Proof. destruct a as [[a0 a1] a2], b as [[b0 b1] b2]. reflexivity. Qed.

Lemma distance_nonneg (a b : Pos) : 0 <= distance a b.
Proof. rewrite distance_eq. apply norm3_nonneg. Qed.

Lemma distance_sym (a b : Pos) : distance a b = distance b a.
Proof.
  rewrite !distance_eq. unfold norm3. f_equal. ring.
Qed.

Lemma distance_meters (a b : Pos) :
  distance (sceneToMeters a) (sceneToMeters b) = (1 / 10) * distance a b.
Proof.
  destruct a as [[a0 a1] a2], b as [[b0 b1] b2].
  rewrite !distance_eq. cbn [sceneToMeters fst snd].
  rewrite METERS_PER_SCENE_UNIT_eq. cbn [mul RNumber].
  replace (b0 * (1 / 10) - a0 * (1 / 10)) with ((1 / 10) * (b0 - a0)) by lra.
  replace (b1 * (1 / 10) - a1 * (1 / 10)) with ((1 / 10) * (b1 - a1)) by lra.
  replace (b2 * (1 / 10) - a2 * (1 / 10)) with ((1 / 10) * (b2 - a2)) by lra.
  rewrite norm3_scale. rewrite Rabs_pos_eq by lra. reflexivity.
Qed.

(** *** The clamp *)

Lemma rMetersOf_eq (pm sm : Pos) : rMetersOf pm sm = Rmax (distance pm sm) (1 / 100).
Proof.
  unfold rMetersOf. rewrite max_Rmax, MIN_DISTANCE_eq, METERS_PER_SCENE_UNIT_eq.
  cbn [mul RNumber]. f_equal. lra.
Qed.

Lemma floor_meters_eq : (MIN_DISTANCE * METERS_PER_SCENE_UNIT)%num = 1 / 100.
Proof. rewrite MIN_DISTANCE_eq, METERS_PER_SCENE_UNIT_eq. cbn [mul RNumber]. lra. Qed.

Lemma rMetersOf_floor (pm sm : Pos) : 1 / 100 <= rMetersOf pm sm.
Proof. rewrite rMetersOf_eq. apply Rmax_r. Qed.

Lemma unitVector_eq (from to : Pos) :
  unitVector from to =
  let r := Rmax (distance from to) (1 / 10) in
  ((fst (fst to) - fst (fst from)) / r,
   (snd (fst to) - snd (fst from)) / r,
   (snd to - snd from) / r).
Proof.
  destruct from as [[f0 f1] f2], to as [[t0 t1] t2].
  unfold unitVector. rewrite max_Rmax, MIN_DISTANCE_eq. reflexivity.
Qed.

(** *** What one source adds to the field *)

Lemma div_le_bound (a b c : R) : 0 < c -> a <= b * c -> a / c <= b.
Proof.
  intros Hc Hab. unfold Rdiv.
  apply Rmult_le_reg_r with c; [assumption|].
  rewrite Rmult_assoc, Rinv_l by lra. lra.
Qed.

Lemma clamp_ratio_le (d : R) :
  0 <= d -> d / (Rmax d (1 / 100) * Rmax d (1 / 100) * Rmax d (1 / 10)) <= 1000.
Proof.
  intros Hd.
  assert (Ha : 1 / 100 <= Rmax d (1 / 100)) by apply Rmax_r.
  assert (Hb : 1 / 10 <= Rmax d (1 / 10)) by apply Rmax_r.
  assert (Ha' : d <= Rmax d (1 / 100)) by apply Rmax_l.
  assert (Hb' : d <= Rmax d (1 / 10)) by apply Rmax_l.
  set (a := Rmax d (1 / 100)) in *. set (b := Rmax d (1 / 10)) in *.
  apply div_le_bound; [nra|].
  destruct (Rle_dec d (1 / 100)).
  - assert (1 / 100 * (1 / 100) <= a * a) by nra. nra.
  - assert (d * d <= a * a) by nra. assert (1 / 100 * d <= d * d) by nra. nra.
Qed.

Lemma clampedMagnitude_le (K v d : R) :
  0 <= K -> 0 <= d -> clampedMagnitude K v d <= 1000 * (K * Rabs v).
Proof.
  intros HK Hd. unfold clampedMagnitude.
  pose proof (clamp_ratio_le Hd) as H.
  pose proof (Rabs_pos v) as Hv.
  assert (Ha : 1 / 100 <= Rmax d (1 / 100)) by apply Rmax_r.
  assert (Hb : 1 / 10 <= Rmax d (1 / 10)) by apply Rmax_r.
  replace (K * Rabs v / (Rmax d (1 / 100) * Rmax d (1 / 100)) * (d / Rmax d (1 / 10)))
    with ((K * Rabs v) * (d / (Rmax d (1 / 100) * Rmax d (1 / 100) * Rmax d (1 / 10))))
    by (field; split; lra).
  assert (0 <= K * Rabs v) by nra. nra.
Qed.

Lemma clampedMagnitude_floor (K v : R) :
  clampedMagnitude K v (1 / 100) = 1000 * (K * Rabs v).
Proof.
  unfold clampedMagnitude.
  rewrite (Rmax_left (1 / 100) (1 / 100)) by lra.
  rewrite (Rmax_right (1 / 100) (1 / 10)) by lra.
  field.
Qed.

Lemma contribution_norm (m dx dy dz r : R) :
  0 < r ->
  norm3 (m * (dx / r)) (m * (dy / r)) (m * (dz / r)) = Rabs m * (norm3 dx dy dz / r).
Proof.
  intros Hr. rewrite norm3_scale. f_equal.
  replace (dx / r) with (/ r * dx) by (field; lra).
  replace (dy / r) with (/ r * dy) by (field; lra).
  replace (dz / r) with (/ r * dz) by (field; lra).
  rewrite norm3_scale, Rabs_pos_eq.
  - field; lra.
  - left. now apply Rinv_0_lt_compat.
Qed.

Lemma fieldMagnitude_eq (v : Vec) : fieldMagnitude v = norm3 (x v) (y v) (z v).
Proof. reflexivity. Qed.

Lemma single_source_electric (p : Pos) (s : Source) :
  computeElectricFieldAtPoint p [s] = electricContribution (sceneToMeters p) s.
Proof. unfold computeElectricFieldAtPoint. cbn [fold_left]. apply vadd_zero_l. Qed.

Lemma single_source_gravitational (p : Pos) (s : Source) :
  computeGravitationalFieldAtPoint p [s] = gravitationalContribution (sceneToMeters p) s.
Proof. unfold computeGravitationalFieldAtPoint. cbn [fold_left]. apply vadd_zero_l. Qed.

(** The common shape of the two loop bodies: the constant [K], and the
    vector from [from] to [to] over the clamped length. *)
Lemma inverse_square_magnitude (K v : R) (from to : Pos) (d : R) :
  0 <= K -> d = distance from to ->
  let r := Rmax d (1 / 100) in
  let r' := Rmax (distance from to) (1 / 10) in
  let m := K * v / (r * r) in
  norm3 (m * ((fst (fst to) - fst (fst from)) / r'))
        (m * ((snd (fst to) - snd (fst from)) / r'))
        (m * ((snd to - snd from) / r')) = clampedMagnitude K v d.
Proof.
  intros HK Hd r r' m. subst r r' m. rewrite <- Hd.
  assert (H0 : 0 <= d) by (rewrite Hd; apply distance_nonneg).
  assert (Ha : 1 / 100 <= Rmax d (1 / 100)) by apply Rmax_r.
  assert (Hb : 1 / 10 <= Rmax d (1 / 10)) by apply Rmax_r.
  rewrite contribution_norm by lra.
  replace (norm3 (fst (fst to) - fst (fst from)) (snd (fst to) - snd (fst from))
             (snd to - snd from)) with d by (rewrite Hd; apply distance_eq).
  unfold clampedMagnitude. f_equal.
  unfold Rdiv. rewrite !Rabs_mult, Rabs_inv, (Rabs_pos_eq K) by assumption.
  rewrite (Rabs_pos_eq (Rmax d (1 * / 100) * Rmax d (1 * / 100))); [reflexivity|].
  unfold Rdiv in Ha. nra.
Qed.

Lemma electricContribution_magnitude (pm : Pos) (s : Source) :
  fieldMagnitude (electricContribution pm s) =
  clampedMagnitude COULOMB_CONSTANT (value s) (distance pm (sceneToMeters (position s))).
Proof.
  unfold electricContribution.
  rewrite unitVector_eq, rMetersOf_eq. cbv zeta.
  rewrite fieldMagnitude_eq. cbn [x y z mul div RNumber].
  apply inverse_square_magnitude.
  - rewrite COULOMB_CONSTANT_eq. lra.
  - apply distance_sym.
Qed.

Lemma gravitationalContribution_magnitude (pm : Pos) (s : Source) :
  fieldMagnitude (gravitationalContribution pm s) =
  clampedMagnitude GRAVITATIONAL_CONSTANT (value s) (distance pm (sceneToMeters (position s))).
Proof.
  unfold gravitationalContribution.
  rewrite unitVector_eq, rMetersOf_eq. cbv zeta.
  rewrite fieldMagnitude_eq. cbn [x y z mul div RNumber].
  apply inverse_square_magnitude.
  - rewrite GRAVITATIONAL_CONSTANT_eq. lra.
  - reflexivity.
Qed.

Lemma Rabs_le_norm3_1 (a b c : R) : Rabs a <= norm3 a b c.
Proof.
  unfold norm3. rewrite <- sqrt_Rsqr_abs. apply sqrt_le_1_alt. unfold Rsqr. nra.
Qed.

Lemma Rabs_le_norm3_2 (a b c : R) : Rabs b <= norm3 a b c.
Proof.
  unfold norm3. rewrite <- sqrt_Rsqr_abs. apply sqrt_le_1_alt. unfold Rsqr. nra.
Qed.

Lemma Rabs_le_norm3_3 (a b c : R) : Rabs c <= norm3 a b c.
Proof.
  unfold norm3. rewrite <- sqrt_Rsqr_abs. apply sqrt_le_1_alt. unfold Rsqr. nra.
Qed.

(** A component [m * (delta / r')] of a contribution, when [delta] is a
    coordinate of a vector of length [d <= r'] and [m] is the
    inverse-square magnitude over [r >= 1/100]. *)
Lemma component_bound (K v delta d r r' : R) :
  0 <= K -> Rabs delta <= d -> d <= r' -> 1 / 10 <= r' -> 1 / 100 <= r ->
  Rabs (K * v / (r * r) * (delta / r')) <= K * Rabs v / (1 / 100 * (1 / 100)).
Proof.
  intros HK Hdelta Hd Hr' Hr.
  pose proof (Rabs_pos v) as Hv. pose proof (Rabs_pos delta) as Hdl.
  unfold Rdiv. rewrite !Rabs_mult, !Rabs_inv, (Rabs_pos_eq K) by assumption.
  rewrite (Rabs_pos_eq (r * r)) by nra. rewrite (Rabs_pos_eq r') by lra.
  assert (Hu : Rabs delta * / r' <= 1).
  { apply (div_le_bound (a:=Rabs delta) (b:=1) (c:=r')); lra. }
  assert (Hu0 : 0 <= Rabs delta * / r').
  { apply Rmult_le_pos; [assumption|]. left. apply Rinv_0_lt_compat. lra. }
  assert (Hm : K * Rabs v * / (r * r) <= K * Rabs v * / (1 * / 100 * (1 * / 100))).
  { apply Rmult_le_compat_l; [nra|]. apply Rinv_le_contravar; nra. }
  assert (Hm0 : 0 <= K * Rabs v * / (r * r)).
  { apply Rmult_le_pos; [nra|]. left. apply Rinv_0_lt_compat. nra. }
  nra.
Qed.

Lemma inverse_square_components (K v : R) (from to : Pos) (d : R) :
  0 <= K -> d = distance from to ->
  let r := Rmax d (1 / 100) in
  let r' := Rmax (distance from to) (1 / 10) in
  let m := K * v / (r * r) in
  let bound := K * Rabs v / (1 / 100 * (1 / 100)) in
  Rabs (m * ((fst (fst to) - fst (fst from)) / r')) <= bound /\
  Rabs (m * ((snd (fst to) - snd (fst from)) / r')) <= bound /\
  Rabs (m * ((snd to - snd from) / r')) <= bound.
Proof.
  intros HK Hd r r' m bound. subst r r' m bound.
  pose proof (distance_eq from to) as He.
  repeat split; apply component_bound with (d := distance from to);
    try assumption; try apply Rmax_l; try apply Rmax_r; rewrite He.
  - apply Rabs_le_norm3_1.
  - apply Rabs_le_norm3_2.
  - apply Rabs_le_norm3_3.
Qed.

(** *** Sums of contributions *)

Lemma totalAbsValue_nonneg (sources : list Source) : 0 <= totalAbsValue sources.
Proof.
  induction sources as [|s l IH]; cbn [totalAbsValue fold_right]; [lra|].
  fold (totalAbsValue l). pose proof (Rabs_pos (value s)). lra.
Qed.

Lemma fold_component_bound (proj : Vec -> R) (c : Source -> Vec) (B : R) :
  (forall a b, proj (vadd a b) = proj a + proj b) ->
  (forall s, Rabs (proj (c s)) <= B * Rabs (value s)) ->
  forall (sources : list Source) (acc : Vec),
    Rabs (proj (fold_left (fun E source => vadd E (c source)) sources acc)) <=
    Rabs (proj acc) + B * totalAbsValue sources.
Proof.
  intros Hadd Hc. induction sources as [|s l IH]; intros acc; cbn [fold_left].
  - cbn [totalAbsValue fold_right]. lra.
  - specialize (IH (vadd acc (c s))). rewrite Hadd in IH.
    cbn [totalAbsValue fold_right]. fold (totalAbsValue l).
    pose proof (Rabs_triang (proj acc) (proj (c s))). specialize (Hc s). lra.
Qed.

Lemma fold_scalar_bound (f : Source -> R) (B : R) (op : R -> R -> R) :
  (forall a b, Rabs (op a b) <= Rabs a + Rabs b) ->
  (forall s, Rabs (f s) <= B * Rabs (value s)) ->
  forall (sources : list Source) (acc : R),
    Rabs (fold_left (fun potential source => op potential (f source)) sources acc) <=
    Rabs acc + B * totalAbsValue sources.
Proof.
  intros Hop Hf. induction sources as [|s l IH]; intros acc; cbn [fold_left].
  - cbn [totalAbsValue fold_right]. lra.
  - specialize (IH (op acc (f s))).
    cbn [totalAbsValue fold_right]. fold (totalAbsValue l).
    specialize (Hop acc (f s)). specialize (Hf s). lra.
Qed.

Lemma contribution_components (mode : FieldMode) (pm : Pos) (s : Source) :
  let c := match mode with
           | electric => electricContribution pm s
           | gravity => gravitationalContribution pm s
           end in
  let B := modeConstant mode / (1 / 100 * (1 / 100)) in
  Rabs (x c) <= B * Rabs (value s) /\
  Rabs (y c) <= B * Rabs (value s) /\
  Rabs (z c) <= B * Rabs (value s).
Proof.
  assert (Hk : 0 <= COULOMB_CONSTANT) by (rewrite COULOMB_CONSTANT_eq; lra).
  assert (Hg : 0 <= GRAVITATIONAL_CONSTANT) by (rewrite GRAVITATIONAL_CONSTANT_eq; lra).
  assert (Hre : forall K v : R, K / (1 / 100 * (1 / 100)) * v = K * v / (1 / 100 * (1 / 100)))
    by (intros; field).
  destruct mode; cbv zeta; cbn [modeConstant]; rewrite Hre.
  - unfold electricContribution. rewrite unitVector_eq, rMetersOf_eq. cbv zeta.
    cbn [x y z mul div RNumber].
    apply inverse_square_components; [assumption|apply distance_sym].
  - unfold gravitationalContribution. rewrite unitVector_eq, rMetersOf_eq. cbv zeta.
    cbn [x y z mul div RNumber].
    apply inverse_square_components; [assumption|reflexivity].
Qed.

Lemma fold_field_bound (c : Source -> Vec) (B : R) (sources : list Source) :
  (forall s, Rabs (x (c s)) <= B * Rabs (value s) /\
             Rabs (y (c s)) <= B * Rabs (value s) /\
             Rabs (z (c s)) <= B * Rabs (value s)) ->
  let total := fold_left (fun E source => vadd E (c source)) sources vzero in
  Rabs (x total) <= B * totalAbsValue sources /\
  Rabs (y total) <= B * totalAbsValue sources /\
  Rabs (z total) <= B * totalAbsValue sources.
Proof.
  intros Hc. cbv zeta.
  assert (H0 : Rabs 0 = 0) by apply Rabs_R0.
  pose proof (@fold_component_bound (fun v => x v) c B (fun a b => eq_refl)
                (fun s => proj1 (Hc s)) sources vzero) as Hx.
  pose proof (@fold_component_bound (fun v => y v) c B (fun a b => eq_refl)
                (fun s => proj1 (proj2 (Hc s))) sources vzero) as Hy.
  pose proof (@fold_component_bound (fun v => z v) c B (fun a b => eq_refl)
                (fun s => proj2 (proj2 (Hc s))) sources vzero) as Hz.
  cbn [x y z vzero] in Hx, Hy, Hz. change (lit 0) with 0 in Hx, Hy, Hz.
  rewrite H0 in Hx, Hy, Hz. repeat split; lra.
Qed.

Lemma summed_field_bound (mode : FieldMode) (p : Pos) (sources : list Source) :
  let B := modeConstant mode / (1 / 100 * (1 / 100)) in
  Rabs (x (fieldAt mode p sources)) <= B * totalAbsValue sources /\
  Rabs (y (fieldAt mode p sources)) <= B * totalAbsValue sources /\
  Rabs (z (fieldAt mode p sources)) <= B * totalAbsValue sources.
Proof.
  cbv zeta. destruct mode; cbn [fieldAt].
  - apply (@fold_field_bound (electricContribution (sceneToMeters p))).
    intros s. apply (@contribution_components electric (sceneToMeters p) s).
  - apply (@fold_field_bound (gravitationalContribution (sceneToMeters p))).
    intros s. apply (@contribution_components gravity (sceneToMeters p) s).
Qed.

Lemma potential_term_bound (K v r : R) :
  0 <= K -> 1 / 100 <= r -> Rabs (K * v / r) <= K / (1 / 100) * Rabs v.
Proof.
  intros HK Hr. pose proof (Rabs_pos v) as Hv.
  unfold Rdiv. rewrite !Rabs_mult, Rabs_inv, (Rabs_pos_eq K), (Rabs_pos_eq r) by lra.
  assert (Hi : / r <= / (1 * / 100)).
  { apply Rinv_le_contravar; lra. }
  assert (Hi0 : 0 < / r) by (apply Rinv_0_lt_compat; lra).
  assert (0 <= K * Rabs v) by nra. nra.
Qed.

Lemma summed_potential_bound (p : Pos) (sources : list Source) :
  Rabs (computeElectricPotentialAtPoint p sources) <=
    COULOMB_CONSTANT / (1 / 100) * totalAbsValue sources /\
  Rabs (computeGravitationalPotentialAtPoint p sources) <=
    GRAVITATIONAL_CONSTANT / (1 / 100) * totalAbsValue sources.
Proof.
  assert (Hk : 0 <= COULOMB_CONSTANT) by (rewrite COULOMB_CONSTANT_eq; lra).
  assert (Hg : 0 <= GRAVITATIONAL_CONSTANT) by (rewrite GRAVITATIONAL_CONSTANT_eq; lra).
  assert (H0 : Rabs 0 = 0) by apply Rabs_R0.
  split.
  - unfold computeElectricPotentialAtPoint. cbv zeta.
    pose proof (@fold_scalar_bound
      (fun source => COULOMB_CONSTANT * value source /
                     rMetersOf (sceneToMeters p) (sceneToMeters (position source)))
      (COULOMB_CONSTANT / (1 / 100)) Rplus Rabs_triang) as H.
    specialize (H (fun s => potential_term_bound (value s) Hk (rMetersOf_floor _ _))
                  sources 0).
    rewrite H0 in H. change (lit 0) with 0. cbn [add mul div RNumber]. lra.
  - unfold computeGravitationalPotentialAtPoint. cbv zeta.
    pose proof (@fold_scalar_bound
      (fun source => GRAVITATIONAL_CONSTANT * value source /
                     rMetersOf (sceneToMeters p) (sceneToMeters (position source)))
      (GRAVITATIONAL_CONSTANT / (1 / 100)) Rminus) as H.
    assert (Hop : forall a b : R, Rabs (a - b) <= Rabs a + Rabs b).
    { intros a b. unfold Rminus. rewrite <- (Rabs_Ropp b). apply Rabs_triang. }
    specialize (H Hop (fun s => potential_term_bound (value s) Hg (rMetersOf_floor _ _))
                  sources 0).
    rewrite H0 in H. change (lit 0) with 0. cbn [sub mul div RNumber]. lra.
Qed.

Lemma force_bound (mode : FieldMode) (p : Pos) (testValue : R) (sources : list Source) :
  let B := modeConstant mode / (1 / 100 * (1 / 100)) in
  let F := computeForceOnTestCharge p testValue mode sources in
  Rabs (x F) <= B * totalAbsValue sources * Rabs testValue /\
  Rabs (y F) <= B * totalAbsValue sources * Rabs testValue /\
  Rabs (z F) <= B * totalAbsValue sources * Rabs testValue.
Proof.
  cbv zeta. destruct (summed_field_bound mode p sources) as (Hx & Hy & Hz).
  unfold computeForceOnTestCharge. cbv zeta. cbn [x y z mul RNumber].
  rewrite !Rabs_mult. pose proof (Rabs_pos testValue).
  repeat split; apply Rmult_le_compat_r; assumption.
Qed.



(** *** The equilibrium solver: when it answers *)

Lemma sign_eq (v : R) :
  sign v = if Rlt_dec 0 v then 1 else if Rlt_dec v 0 then -1 else 0.
Proof.
  unfold sign, lit. cbn [ofZ ltb opp RNumber]. unfold Rltb.
  destruct (Rlt_dec 0 v); [reflexivity|].
  destruct (Rlt_dec v 0); [reflexivity|]. lra.
Qed.

Lemma like_signed_iff (v1 v2 : R) : 0 < sign v1 * sign v2 <-> 0 < v1 * v2.
Proof.
  rewrite !sign_eq.
  destruct (Rlt_dec 0 v1), (Rlt_dec v1 0), (Rlt_dec 0 v2), (Rlt_dec v2 0);
    split; intros H; try lra; try nra.
Qed.

Lemma sqrt_abs_sum_pos (v1 v2 : R) :
  0 < v1 * v2 -> R_sqrt.sqrt (Rabs v1) + R_sqrt.sqrt (Rabs v2) <> 0.
Proof.
  intros H.
  assert (H1 : 0 < Rabs v1) by (apply Rabs_pos_lt; intros ->; lra).
  pose proof (sqrt_lt_R0 _ H1). pose proof (sqrt_pos (Rabs v2)). lra.
Qed.

Lemma opposite_sum_zero (v1 v2 : R) :
  v1 * v2 <= 0 -> (Rabs v1 = Rabs v2 <-> v1 + v2 = 0).
Proof.
  intros H. unfold Rabs.
  destruct (Rcase_abs v1), (Rcase_abs v2); split; intros; try lra; try nra.
Qed.

Lemma like_sum_nonzero (v1 v2 : R) : 0 < v1 * v2 -> v1 + v2 <> 0.
Proof. intros H Hs. nra. Qed.

Lemma closedForm_none_iff (q1 q2 : Source) :
  closedForm q1 q2 = None <->
  distance (sceneToMeters (position q1)) (sceneToMeters (position q2)) <
    (MIN_DISTANCE * METERS_PER_SCENE_UNIT)%num \/
  value q1 + value q2 = 0.
Proof.
  unfold closedForm.
  set (d := distance (sceneToMeters (position q1)) (sceneToMeters (position q2))).
  destruct (ltb d (MIN_DISTANCE * METERS_PER_SCENE_UNIT)%num) eqn:Hd.
  { apply ltb_true in Hd. split; auto. }
  apply ltb_false in Hd.
  destruct (unitVector _ _) as [[ux uy] uz].
  destruct (sceneToMeters (position q1)) as [[a0 a1] a2].
  destruct (sceneToMeters (position q2)) as [[b0 b1] b2].
  destruct (ltb (lit 0) (sign (value q1) * sign (value q2))%num) eqn:Hlike.
  - apply ltb_true in Hlike. change (lit 0) with 0 in Hlike.
    cbn [mul RNumber] in Hlike. apply -> like_signed_iff in Hlike.
    destruct (eqb _ (lit 0)) eqn:Hden.
    + apply eqb_true in Hden. change (lit 0) with 0 in Hden.
      cbn [abs sqrt add RNumber] in Hden.
      exfalso. now apply (sqrt_abs_sum_pos Hlike).
    + split; [discriminate|]. intros [Hlt|Hsum]; [lra|].
      now apply like_sum_nonzero in Hlike.
  - apply ltb_false in Hlike. change (lit 0) with 0 in Hlike.
    cbn [mul RNumber] in Hlike.
    assert (Hopp : value q1 * value q2 <= 0).
    { destruct (Rle_dec (value q1 * value q2) 0) as [|Hn]; [assumption|].
      assert (Hp : 0 < value q1 * value q2) by lra.
      apply <- like_signed_iff in Hp. lra. }
    pose proof (opposite_sum_zero Hopp) as Hiff.
    cbn [abs sqrt sub RNumber].
    destruct (ltb (Rabs (value q1)) (Rabs (value q2))) eqn:Hweak;
      [apply ltb_true in Hweak | apply ltb_false in Hweak].
    + destruct (leb _ (lit 0)) eqn:Hden;
        [apply leb_true in Hden | apply leb_false in Hden]; change (lit 0) with 0 in Hden.
      * pose proof (sqrt_lt_1_alt (Rabs (value q1)) (Rabs (value q2))
                      (conj (Rabs_pos _) Hweak)). lra.
      * split; [discriminate|]. intros [Hlt|Hsum]; [lra|].
        apply Hiff in Hsum. lra.
    + destruct (leb _ (lit 0)) eqn:Hden;
        [apply leb_true in Hden | apply leb_false in Hden]; change (lit 0) with 0 in Hden.
      * split; [|reflexivity]. intros _. right. apply Hiff.
        destruct (Req_dec (Rabs (value q1)) (Rabs (value q2))) as [|Hne]; [assumption|].
        assert (Hlt : Rabs (value q2) < Rabs (value q1)) by lra.
        pose proof (sqrt_lt_1_alt (Rabs (value q2)) (Rabs (value q1))
                      (conj (Rabs_pos _) Hlt)). lra.
      * split; [discriminate|]. intros [Hlt|Hsum]; [lra|].
        apply Hiff in Hsum. rewrite Hsum in Hden. lra.
Qed.

Lemma solver_tests_exact (q1 q2 : Source) :
  (closerThanFloor q1 q2 = true <->
   distance (sceneToMeters (position q1)) (sceneToMeters (position q2)) <
     (MIN_DISTANCE * METERS_PER_SCENE_UNIT)%num) /\
  (areLikeCharges q1 q2 = true <-> 0 < value q1 * value q2) /\
  (areLikeCharges q1 q2 = true -> eqb (rootSum q1 q2) (lit 0) = false) /\
  (areLikeCharges q1 q2 = false ->
   (leb (rootGap q1 q2) (lit 0) = true <-> Rabs (value q1) = Rabs (value q2))).
Proof.
  unfold closerThanFloor, areLikeCharges, rootSum, rootGap.
  change (lit 0) with 0. cbn [mul add sub abs sqrt RNumber].
  assert (Hlike : ltb 0 (sign (value q1) * sign (value q2)) = true <->
                  0 < value q1 * value q2).
  { rewrite ltb_true. apply like_signed_iff. }
  split; [apply ltb_true|]. split; [exact Hlike|]. split.
  - intros H. apply Hlike in H. apply eqb_false. now apply sqrt_abs_sum_pos.
  - intros _. rewrite leb_true.
    pose proof (Rabs_pos (value q1)) as H1. pose proof (Rabs_pos (value q2)) as H2.
    destruct (ltb (Rabs (value q1)) (Rabs (value q2))) eqn:Hweak;
      [apply ltb_true in Hweak | apply ltb_false in Hweak].
    + pose proof (sqrt_lt_1_alt _ _ (conj H1 Hweak)). split; intros; lra.
    + split.
      * intros Hden.
        destruct (Req_dec (Rabs (value q1)) (Rabs (value q2))) as [|Hne]; [assumption|].
        assert (Hlt : Rabs (value q2) < Rabs (value q1)) by lra.
        pose proof (sqrt_lt_1_alt _ _ (conj H2 Hlt)). lra.
      * intros ->. lra.
Qed.

(** C3 (as amended) -- [findEquilibriumPoint] returns [null] exactly when
    the list does not hold two sources, or the mode is not electric, or the
    computed distance of the two sources is below the floor
    [MIN_DISTANCE * METERS_PER_SCENE_UNIT], or the signs are alike and the
    computed [sqrt|q1| + sqrt|q2|] is 0, or the signs are not alike and the
    computed [sqrt(strong) - sqrt(weak)] is not positive; in every other
    case it returns a position, and being a total function it never raises.
    This holds for every reading of the numbers, doubles included.

    In exact arithmetic the tests read: the sources are closer than the
    floor; like signs never give [null]; and signs that are not alike give
    [null] exactly when the magnitudes are equal -- an opposite-signed pair
    of equal magnitudes, or two sources of value zero.  In doubles the last
    test also holds for magnitudes whose square roots round to the same
    number: for the values 1 and -1.0000000000000002, five scene units
    apart, the answer is [null]. *)
Theorem equilibrium_none_iff :
  (forall (T : Type) (NT : Number T) (sources : list (FieldSource T)) (mode : FieldMode),
     (findEquilibriumPoint sources mode = None <->
      (length sources <> 2%nat \/ mode <> electric \/
       exists q1 q2 : FieldSource T, sources = [q1; q2] /\
         (closerThanFloor q1 q2 = true \/
          (areLikeCharges q1 q2 = true /\ eqb (rootSum q1 q2) (lit 0) = true) \/
          (areLikeCharges q1 q2 = false /\ leb (rootGap q1 q2) (lit 0) = true)))) /\
     (findEquilibriumPoint sources mode = None \/
      exists pos, findEquilibriumPoint sources mode = Some pos)) /\
  (forall q1 q2 : Source,
     (closerThanFloor q1 q2 = true <->
      distance (sceneToMeters (position q1)) (sceneToMeters (position q2)) <
        (MIN_DISTANCE * METERS_PER_SCENE_UNIT)%num) /\
     (areLikeCharges q1 q2 = true <-> 0 < value q1 * value q2) /\
     (areLikeCharges q1 q2 = true -> eqb (rootSum q1 q2) (lit 0) = false) /\
     (areLikeCharges q1 q2 = false ->
      (leb (rootGap q1 q2) (lit 0) = true <-> Rabs (value q1) = Rabs (value q2)))) /\
  (forall (sources : list Source) (mode : FieldMode),
     findEquilibriumPoint sources mode = None <->
     (length sources <> 2%nat \/ mode <> electric \/
      exists q1 q2, sources = [q1; q2] /\
        (distance (sceneToMeters (position q1)) (sceneToMeters (position q2)) <
           (MIN_DISTANCE * METERS_PER_SCENE_UNIT)%num \/
         (value q1 * value q2 <= 0 /\ Rabs (value q1) = Rabs (value q2))))) /\
  (let a := source64 0 0 0 1 in
   let b := source64 5 0 0 (-0x1.0000000000001p+0) in
   findEquilibriumPoint [a; b] electric = None /\
   closerThanFloor a b = false /\ areLikeCharges a b = false /\
   rootGap a b = 0%float /\
   PrimFloat.eqb (PrimFloat.abs (value a)) (PrimFloat.abs (value b)) = false /\
   PrimFloat.eqb (value a + value b)%float 0 = false).
Proof.
  split; [|split; [exact solver_tests_exact|split; [|vm_compute; repeat split; reflexivity]]].
  - intros T NT sources mode.
    split; [|destruct (findEquilibriumPoint sources mode) as [pos|]; eauto].
    rewrite findEquilibriumPoint_none.
    split; (intros [H|[H|(q1 & q2 & Heq & H)]]; [now left|now right; left|]);
      right; right; exists q1, q2; (split; [exact Heq|]); now apply closedForm_none.
  - intros sources mode. rewrite findEquilibriumPoint_none.
    assert (Hcf : forall q1 q2 : Source,
               closedForm q1 q2 = None <->
               (distance (sceneToMeters (position q1)) (sceneToMeters (position q2)) <
                  (MIN_DISTANCE * METERS_PER_SCENE_UNIT)%num \/
                (value q1 * value q2 <= 0 /\ Rabs (value q1) = Rabs (value q2)))).
    { intros q1 q2. rewrite closedForm_none.
      destruct (solver_tests_exact q1 q2) as (Hclose & Hlike & Hsum & Hgap).
      rewrite Hclose.
      destruct (areLikeCharges q1 q2) eqn:E.
      - assert (Hp : 0 < value q1 * value q2) by now apply Hlike.
        rewrite (Hsum eq_refl).
        split; [intros [H|[[_ H]|[H _]]]; [now left|discriminate|discriminate]|].
        intros [H|[H _]]; [now left|lra].
      - assert (Hn : value q1 * value q2 <= 0).
        { destruct (Rle_dec (value q1 * value q2) 0) as [|Hn]; [assumption|].
          assert (Hp : 0 < value q1 * value q2) by lra.
          apply Hlike in Hp. discriminate. }
        rewrite (Hgap eq_refl).
        split; [intros [H|[[H _]|[_ H]]]; [now left|discriminate|now right]|].
        intros [H|[_ H]]; [now left|right; right; now split]. }
    split; (intros [H|[H|(q1 & q2 & Heq & H)]]; [now left|now right; left|]);
      right; right; exists q1, q2; (split; [exact Heq|]); now apply Hcf.
Qed.

Lemma distance_on_axis (a b : R) : distance (a, 0, 0) (b, 0, 0) = Rabs (b - a).
Proof.
  rewrite distance_eq. cbn [fst snd]. replace (0 - 0) with 0 by lra. apply norm3_axis.
Qed.

Lemma sceneToMeters_eq (p0 p1 p2 : R) :
  sceneToMeters (p0, p1, p2) = (p0 * (1 / 10), p1 * (1 / 10), p2 * (1 / 10)).
Proof. reflexivity. Qed.

(** C3, the claim as stated fails -- two sources of value zero, ten scene
    units apart, in electric mode: the list has two sources, they are not
    closer than the floor, and they are not an opposite-signed pair, yet the
    answer is [null]. *)
Lemma zero_pair_counterexample :
  findEquilibriumPoint [sourceAt 0 0; sourceAt 10 0] electric = None /\
  length [sourceAt 0 0; sourceAt 10 0] = 2%nat /\
  ~ (distance (sceneToMeters (position (sourceAt 0 0)))
              (sceneToMeters (position (sourceAt 10 0))) <
       (MIN_DISTANCE * METERS_PER_SCENE_UNIT)%num) /\
  ~ (value (sourceAt 0 0) * value (sourceAt 10 0) < 0).
Proof.
  split; [|split; [reflexivity|split]].
  - cbn [findEquilibriumPoint].
    assert (H : closedForm (sourceAt 0 0) (sourceAt 10 0) = None).
    { apply closedForm_none_iff. right. cbn [value sourceAt]. lra. }
    now rewrite H.
  - cbn [position sourceAt]. rewrite !sceneToMeters_eq, floor_meters_eq.
    replace (0 * (1 / 10)) with 0 by lra.
    rewrite distance_on_axis, Rabs_pos_eq; lra.
  - cbn [value sourceAt]. lra.
Qed.

(** *** The direction of a contribution *)

(** The vector [unitVector] returns is the true unit vector, shortened by
    the factor [d / max d MIN_DISTANCE]: [unitVector] clamps the length it
    divides by to [MIN_DISTANCE] = 0.1, a number of scene units, while its
    arguments are in meters. *)
Lemma unitVector_shrink (from to : Pos) :
  let d := distance from to in
  0 < d ->
  unitVector from to =
    (d / Rmax d (1 / 10) * ((fst (fst to) - fst (fst from)) / d),
     d / Rmax d (1 / 10) * ((snd (fst to) - snd (fst from)) / d),
     d / Rmax d (1 / 10) * ((snd to - snd from) / d)) /\
  0 < d / Rmax d (1 / 10) <= 1 /\
  (1 / 10 <= d -> d / Rmax d (1 / 10) = 1) /\
  (d < 1 / 10 -> d / Rmax d (1 / 10) = 10 * d).
Proof.
  intros d Hd. rewrite unitVector_eq. cbv zeta. fold d.
  assert (Hb : 1 / 10 <= Rmax d (1 / 10)) by apply Rmax_r.
  assert (Hb' : d <= Rmax d (1 / 10)) by apply Rmax_l.
  split; [|split; [|split]].
  - f_equal; [f_equal|]; field; split; lra.
  - split.
    + apply Rdiv_lt_0_compat; lra.
    + apply div_le_bound; lra.
  - intros H. rewrite Rmax_left by lra. field. lra.
  - intros H. rewrite Rmax_right by lra. field.
Qed.

(** X1 -- What the kernel computes for one source, in both modes: the signed
    inverse-square magnitude times the unit vector (from the source to the
    point in electric mode, from the point to the source in gravity mode),
    times the factor [d / max d 0.1], which is 1 only from one scene unit
    (0.1 m) on. *)
Lemma contribution_direction (pm : Pos) (s : Source) :
  let sm := sceneToMeters (position s) in
  let d := distance pm sm in
  let r := rMetersOf pm sm in
  let shrink := d / Rmax d (1 / 10) in
  0 < d ->
  electricContribution pm s =
    (let magnitude := COULOMB_CONSTANT * value s / (r * r) in
     {| x := magnitude * (shrink * ((fst (fst pm) - fst (fst sm)) / d));
        y := magnitude * (shrink * ((snd (fst pm) - snd (fst sm)) / d));
        z := magnitude * (shrink * ((snd pm - snd sm) / d)) |}) /\
  gravitationalContribution pm s =
    (let magnitude := GRAVITATIONAL_CONSTANT * value s / (r * r) in
     {| x := magnitude * (shrink * ((fst (fst sm) - fst (fst pm)) / d));
        y := magnitude * (shrink * ((snd (fst sm) - snd (fst pm)) / d));
        z := magnitude * (shrink * ((snd sm - snd pm) / d)) |}) /\
  0 < shrink <= 1 /\ (1 / 10 <= d -> shrink = 1) /\ (d < 1 / 10 -> shrink = 10 * d).
Proof.
  intros sm d r shrink Hd.
  assert (Hd' : 0 < distance sm pm) by (rewrite distance_sym; exact Hd).
  destruct (unitVector_shrink pm sm Hd) as (Hg & Hrange & Hfar & Hnear).
  destruct (unitVector_shrink sm pm Hd') as (He & _).
  rewrite (distance_sym sm pm) in He. fold d in He, Hg, Hrange, Hfar, Hnear.
  split; [|split; [|exact (conj Hrange (conj Hfar Hnear))]].
  - unfold electricContribution. fold sm. rewrite He. reflexivity.
  - unfold gravitationalContribution. fold sm. rewrite Hg. reflexivity.
Qed.

Lemma contribution_direction_witness :
  electricContribution (sceneToMeters (2, 0, 0)) (sourceAt 0 2) =
    {| x := COULOMB_CONSTANT * 2 / (2 / 10 * (2 / 10)); y := 0; z := 0 |}.
Proof.
  assert (Hd : distance (sceneToMeters (2, 0, 0)) (sceneToMeters (position (sourceAt 0 2))) =
               2 / 10).
  { cbn [position sourceAt]. rewrite !sceneToMeters_eq.
    replace (0 * (1 / 10)) with 0 by lra.
    rewrite distance_on_axis, Rabs_left; lra. }
  destruct (@contribution_direction (sceneToMeters (2, 0, 0)) (sourceAt 0 2)) as (He & _).
  { rewrite Hd. lra. }
  rewrite He, rMetersOf_eq, Hd. cbn [position sourceAt value].
  rewrite !sceneToMeters_eq. cbn [fst snd].
  rewrite (Rmax_left (2 / 10) (1 / 100)), (Rmax_left (2 / 10) (1 / 10)) by lra.
  apply vec_eq; cbn [x y z]; field.
Defined.

(** C5, at the failing input -- a unit charge at the origin and the point
    half a scene unit away on the x axis: the magnitude is [400 k], the unit
    vector from the source to the point is [(1, 0, 0)], and the kernel
    returns [200 k] along x, half of magnitude times unit vector. *)
Lemma near_source_contribution :
  let s := sourceAt 0 1 in
  let p : Pos := (1 / 2, 0, 0) in
  let r := rMetersOf (sceneToMeters p) (sceneToMeters (position s)) in
  let magnitude := COULOMB_CONSTANT * value s / (r * r) in
  magnitude = 400 * COULOMB_CONSTANT /\
  computeElectricFieldAtPoint p [s] = {| x := 200 * COULOMB_CONSTANT; y := 0; z := 0 |} /\
  200 * COULOMB_CONSTANT <> magnitude * 1.
Proof.
  intros s p r magnitude.
  assert (Hd : distance (sceneToMeters p) (sceneToMeters (position s)) = 1 / 20).
  { unfold p, s. cbn [position sourceAt]. rewrite !sceneToMeters_eq.
    replace (0 * (1 / 10)) with 0 by lra.
    rewrite distance_on_axis, Rabs_left; lra. }
  assert (Hr : r = 1 / 20).
  { unfold r. rewrite rMetersOf_eq, Hd. apply Rmax_left. lra. }
  assert (Hm : magnitude = 400 * COULOMB_CONSTANT).
  { unfold magnitude. rewrite Hr. cbn [value s sourceAt]. field. }
  split; [exact Hm|split].
  - rewrite single_source_electric.
    destruct (@contribution_direction (sceneToMeters p) s) as (He & _).
    { rewrite Hd. lra. }
    rewrite He. fold r. rewrite Hr, Hd.
    unfold p, s. cbn [position sourceAt value]. rewrite !sceneToMeters_eq. cbn [fst snd].
    rewrite (Rmax_right (1 / 20) (1 / 10)) by lra.
    apply vec_eq; cbn [x y z]; field.
  - rewrite Hm, COULOMB_CONSTANT_eq. lra.
Qed.

(** *** The like-signed closed form *)

Lemma electricContribution_eq (pm : Pos) (s : Source) :
  electricContribution pm s =
  (let sm := sceneToMeters (position s) in
   let d := distance pm sm in
   let m := COULOMB_CONSTANT * value s / (Rmax d (1 / 100) * Rmax d (1 / 100)) in
   {| x := m * ((fst (fst pm) - fst (fst sm)) / Rmax d (1 / 10));
      y := m * ((snd (fst pm) - snd (fst sm)) / Rmax d (1 / 10));
      z := m * ((snd pm - snd sm) / Rmax d (1 / 10)) |}).
Proof.
  unfold electricContribution. rewrite unitVector_eq, rMetersOf_eq. cbv zeta.
  now rewrite (distance_sym (sceneToMeters (position s)) pm).
Qed.

Lemma closedForm_like (q1 q2 : Source) :
  let p1Meters := sceneToMeters (position q1) in
  let p2Meters := sceneToMeters (position q2) in
  let d := distance p1Meters p2Meters in
  0 < value q1 * value q2 -> 1 / 100 <= d ->
  closedForm q1 q2 =
    (let r1 := R_sqrt.sqrt (Rabs (value q1)) /
               (R_sqrt.sqrt (Rabs (value q1)) + R_sqrt.sqrt (Rabs (value q2))) * d in
     let '(ux, uy, uz) := unitVector p1Meters p2Meters in
     Some (fst (fst p1Meters) + ux * r1, snd (fst p1Meters) + uy * r1, snd p1Meters + uz * r1)).
Proof.
  intros p1Meters p2Meters d Hlike Hd. unfold closedForm. fold p1Meters p2Meters d.
  rewrite floor_meters_eq.
  destruct (ltb d (1 / 100)) eqn:Hlt; [apply ltb_true in Hlt; lra|].
  destruct (unitVector p1Meters p2Meters) as [[ux uy] uz].
  destruct p1Meters as [[a0 a1] a2]. destruct p2Meters as [[b0 b1] b2].
  destruct (ltb (lit 0) (sign (value q1) * sign (value q2))%num) eqn:Hs.
  - destruct (eqb _ (lit 0)) eqn:Hden.
    + apply eqb_true in Hden. exfalso. now apply (sqrt_abs_sum_pos Hlike).
    + reflexivity.
  - apply ltb_false in Hs. apply <- like_signed_iff in Hlike.
    change (lit 0) with 0 in Hs. cbn [mul RNumber] in Hs. lra.
Qed.

(** X2 -- The like-signed estimate lies on the segment between the two
    sources, at distance [r1 * (d / max d 0.1)] from source 1, where
    [r1 / d = sqrt|q1| / (sqrt|q1| + sqrt|q2|)]: at distance [r1] exactly
    when the sources are at least 0.1 m (one scene unit) apart. *)
Lemma closedForm_like_position (q1 q2 : Source) :
  let p1Meters := sceneToMeters (position q1) in
  let p2Meters := sceneToMeters (position q2) in
  let d := distance p1Meters p2Meters in
  let r1 := R_sqrt.sqrt (Rabs (value q1)) /
            (R_sqrt.sqrt (Rabs (value q1)) + R_sqrt.sqrt (Rabs (value q2))) * d in
  0 < value q1 * value q2 -> 1 / 100 <= d ->
  exists (eqMeters : Pos) (t : R),
    closedForm q1 q2 = Some eqMeters /\
    0 <= t <= 1 /\
    eqMeters =
      (fst (fst p1Meters) + t * (fst (fst p2Meters) - fst (fst p1Meters)),
       snd (fst p1Meters) + t * (snd (fst p2Meters) - snd (fst p1Meters)),
       snd p1Meters + t * (snd p2Meters - snd p1Meters)) /\
    distance p1Meters eqMeters = r1 * (d / Rmax d (1 / 10)) /\
    (1 / 10 <= d -> distance p1Meters eqMeters = r1) /\
    (d < 1 / 10 -> distance p1Meters eqMeters = r1 * (10 * d)).
Proof.
  intros p1Meters p2Meters d r1 Hlike Hd.
  pose proof (closedForm_like q1 q2 Hlike Hd) as Hcf. cbv zeta in Hcf.
  fold p1Meters p2Meters d r1 in Hcf.
  rewrite unitVector_eq in Hcf. cbv zeta in Hcf. fold d in Hcf.
  assert (Hd0 : 0 < d) by lra.
  assert (Hb : 1 / 10 <= Rmax d (1 / 10)) by apply Rmax_r.
  assert (Hb' : d <= Rmax d (1 / 10)) by apply Rmax_l.
  assert (Hr1 : 0 <= r1 <= d).
  { unfold r1.
    pose proof (sqrt_pos (Rabs (value q1))) as H1.
    pose proof (sqrt_pos (Rabs (value q2))) as H2.
    pose proof (sqrt_abs_sum_pos Hlike) as H3.
    set (s1 := R_sqrt.sqrt (Rabs (value q1))) in *.
    set (s2 := R_sqrt.sqrt (Rabs (value q2))) in *.
    assert (Hq0 : 0 <= s1 / (s1 + s2)).
    { apply Rmult_le_pos; [assumption|]. left. apply Rinv_0_lt_compat. lra. }
    assert (Hq1 : s1 / (s1 + s2) <= 1) by (apply div_le_bound; lra).
    split; nra. }
  set (t := r1 / Rmax d (1 / 10)).
  assert (Ht : 0 <= t <= 1).
  { unfold t. split.
    - apply Rmult_le_pos; [lra|]. left. apply Rinv_0_lt_compat. lra.
    - apply div_le_bound; lra. }
  set (dx := fst (fst p2Meters) - fst (fst p1Meters)) in *.
  set (dy := snd (fst p2Meters) - snd (fst p1Meters)) in *.
  set (dz := snd p2Meters - snd p1Meters) in *.
  assert (Hdist : distance p1Meters
            (fst (fst p1Meters) + t * dx, snd (fst p1Meters) + t * dy, snd p1Meters + t * dz) =
          r1 * (d / Rmax d (1 / 10))).
  { rewrite distance_eq. cbn [fst snd].
    replace (fst (fst p1Meters) + t * dx - fst (fst p1Meters)) with (t * dx) by ring.
    replace (snd (fst p1Meters) + t * dy - snd (fst p1Meters)) with (t * dy) by ring.
    replace (snd p1Meters + t * dz - snd p1Meters) with (t * dz) by ring.
    rewrite norm3_scale.
    replace (norm3 dx dy dz) with d by (unfold d; apply distance_eq).
    rewrite Rabs_pos_eq by lra. unfold t. field. lra. }
  exists (fst (fst p1Meters) + t * dx, snd (fst p1Meters) + t * dy, snd p1Meters + t * dz), t.
  split; [|split; [exact Ht|split; [reflexivity|split; [exact Hdist|split]]]].
  - rewrite Hcf. unfold t. apply f_equal, triple_eq; field; lra.
  - intros H. rewrite Hdist, Rmax_left by lra. field. lra.
  - intros H. rewrite Hdist, Rmax_right by lra. field.
Qed.

Lemma symmetric_distance (d : R) :
  0 <= d ->
  distance (sceneToMeters (position (sourceAt (- d / 2) 1)))
           (sceneToMeters (position (sourceAt (d / 2) 1))) = d / 10.
Proof.
  intros Hd. cbn [position sourceAt]. rewrite !sceneToMeters_eq.
  replace (0 * (1 / 10)) with 0 by lra.
  rewrite distance_on_axis, Rabs_pos_eq; lra.
Qed.

Lemma closedForm_like_position_witness :
  exists eqMeters,
    closedForm (sourceAt (- 4 / 2) 2) (sourceAt (4 / 2) 2) = Some eqMeters /\
    distance (sceneToMeters (position (sourceAt (- 4 / 2) 2))) eqMeters =
      R_sqrt.sqrt (Rabs 2) / (R_sqrt.sqrt (Rabs 2) + R_sqrt.sqrt (Rabs 2)) *
      distance (sceneToMeters (position (sourceAt (- 4 / 2) 2)))
               (sceneToMeters (position (sourceAt (4 / 2) 2))).
Proof.
  assert (Hd : distance (sceneToMeters (position (sourceAt (- 4 / 2) 2)))
                        (sceneToMeters (position (sourceAt (4 / 2) 2))) = 4 / 10).
  { apply (symmetric_distance (d:=4)). lra. }
  destruct (@closedForm_like_position (sourceAt (- 4 / 2) 2) (sourceAt (4 / 2) 2))
    as (eqMeters & t & Hcf & _ & _ & _ & Hfar & _).
  - cbn [value sourceAt]. lra.
  - rewrite Hd. lra.
  - exists eqMeters. split; [exact Hcf|]. apply Hfar. rewrite Hd. lra.
Defined.

(** The estimate for two equal like charges at [(-d/2, 0, 0)] and
    [(d/2, 0, 0)], in meters: the midpoint (the origin) from one scene unit
    on, and [-(d/20) * (1 - d)], short of the midpoint, when the sources are
    closer than one scene unit. *)
Lemma closedForm_symmetric (Q d : R) :
  Q <> 0 -> 1 / 10 <= d ->
  closedForm (sourceAt (- d / 2) Q) (sourceAt (d / 2) Q) =
    Some (- (d / 20) * (1 - d / 10 / Rmax (d / 10) (1 / 10)), 0, 0).
Proof.
  intros HQ Hd.
  assert (Hdist : distance (sceneToMeters (position (sourceAt (- d / 2) Q)))
                           (sceneToMeters (position (sourceAt (d / 2) Q))) = d / 10).
  { apply (symmetric_distance (d:=d)). lra. }
  rewrite closedForm_like.
  - cbv zeta. rewrite unitVector_eq. cbv zeta. rewrite Hdist.
    cbn [position sourceAt value]. rewrite !sceneToMeters_eq. cbn [fst snd].
    assert (Hs : R_sqrt.sqrt (Rabs Q) <> 0).
    { intros H0. apply sqrt_eq_0 in H0; [|apply Rabs_pos].
      now apply Rabs_no_R0 in H0. }
    assert (Hb : 1 / 10 <= Rmax (d / 10) (1 / 10)) by apply Rmax_r.
    f_equal. f_equal; [f_equal|]; field; repeat split; lra.
  - cbn [value sourceAt]. nra.
  - rewrite Hdist. lra.
Qed.

Lemma symmetric_field_at_origin (Q d : R) :
  0 <= d ->
  computeElectricFieldAtPoint origin [sourceAt (- d / 2) Q; sourceAt (d / 2) Q] = vzero.
Proof.
  intros Hd. unfold computeElectricFieldAtPoint. cbn [fold_left].
  rewrite vadd_zero_l, !electricContribution_eq. cbv zeta.
  unfold origin. cbn [position sourceAt value]. rewrite !sceneToMeters_eq. cbn [fst snd].
  replace (0 * (1 / 10)) with 0 by lra.
  rewrite !distance_on_axis.
  replace (Rabs (- d / 2 * (1 / 10) - 0)) with (d / 20) by (rewrite Rabs_left1; lra).
  replace (Rabs (d / 2 * (1 / 10) - 0)) with (d / 20) by (rewrite Rabs_pos_eq; lra).
  assert (Ha : 1 / 100 <= Rmax (d / 20) (1 / 100)) by apply Rmax_r.
  assert (Hb : 1 / 10 <= Rmax (d / 20) (1 / 10)) by apply Rmax_r.
  apply vec_eq; cbn [x y z vadd vzero add RNumber]; change (lit 0) with 0; field;
    split; lra.
Qed.

Lemma refine_at_zero_field (iters : nat) (sources : list Source) (pos : Pos) :
  computeElectricFieldAtPoint pos sources = vzero -> refine iters sources pos = pos.
Proof.
  intros Hz. destruct iters as [|n]; [reflexivity|]. cbn [refine]. rewrite Hz.
  assert (Hm : fieldMagnitude (vzero (T:=R)) = 0).
  { rewrite fieldMagnitude_eq. cbn [x y z vzero]. change (lit 0) with 0.
    rewrite norm3_axis. apply Rabs_R0. }
  rewrite Hm.
  assert (Ht : ltb 0 (TOLERANCE (T:=R)) = true).
  { apply ltb_true. unfold TOLERANCE. rewrite e_neg_eq.
    apply Rdiv_lt_0_compat; [lra|]. apply IZR_lt. reflexivity. }
  now rewrite Ht.
Qed.

(** X3 -- Two equal like charges at least one scene unit apart: the solver
    returns the origin, where the field is the zero vector. *)
Lemma like_charges_symmetric_far (Q d : R) :
  Q <> 0 -> 1 <= d ->
  findEquilibriumPoint [sourceAt (- d / 2) Q; sourceAt (d / 2) Q] electric = Some origin /\
  computeElectricFieldAtPoint origin [sourceAt (- d / 2) Q; sourceAt (d / 2) Q] = vzero /\
  (fieldMagnitude (computeElectricFieldAtPoint origin
                     [sourceAt (- d / 2) Q; sourceAt (d / 2) Q]) < TOLERANCE)%R.
Proof.
  intros HQ Hd.
  assert (Hfield : computeElectricFieldAtPoint origin
                     [sourceAt (- d / 2) Q; sourceAt (d / 2) Q] = vzero)
    by (apply symmetric_field_at_origin; lra).
  split; [|split; [exact Hfield|]].
  - cbn [findEquilibriumPoint].
    rewrite closedForm_symmetric by lra.
    rewrite (Rmax_left (d / 10) (1 / 10)) by lra.
    rewrite METERS_PER_SCENE_UNIT_eq. cbn [div RNumber].
    replace (- (d / 20) * (1 - d / 10 / (d / 10)) / (1 / 10)) with 0 by (field; lra).
    replace (0 / (1 / 10)) with 0 by lra.
    f_equal. apply refine_at_zero_field. exact Hfield.
  - rewrite Hfield, fieldMagnitude_eq. cbn [x y z vzero]. change (lit 0) with 0.
    rewrite norm3_axis, Rabs_R0. unfold TOLERANCE. rewrite e_neg_eq.
    apply Rdiv_lt_0_compat; [lra|]. apply IZR_lt. reflexivity.
Qed.

Lemma like_charges_symmetric_far_witness :
  findEquilibriumPoint [sourceAt (- 4 / 2) 2; sourceAt (4 / 2) 2] electric = Some origin.
Proof. apply (@like_charges_symmetric_far 2 4); lra. Defined.

(** X4 -- The failing input of C4 in exact arithmetic: equal like charges at
    [(-1/4, 0, 0)] and [(1/4, 0, 0)], half a scene unit apart.  The estimate
    the refinement starts from is [(-1/8, 0, 0)] in scene units, not the
    midpoint, and the kernel's field there is not zero. *)
Lemma like_charges_near_estimate (Q : R) :
  Q <> 0 ->
  closedForm (sourceAt (- (1 / 2) / 2) Q) (sourceAt ((1 / 2) / 2) Q) = Some (- (1 / 80), 0, 0) /\
  x (computeElectricFieldAtPoint (- (1 / 8), 0, 0)
       [sourceAt (- (1 / 2) / 2) Q; sourceAt ((1 / 2) / 2) Q]) =
    1600 / 3 * (COULOMB_CONSTANT * Q).
Proof.
  intros HQ. split.
  - rewrite closedForm_symmetric by lra.
    rewrite (Rmax_right (1 / 2 / 10) (1 / 10)) by lra.
    do 3 f_equal. field.
  - unfold computeElectricFieldAtPoint. cbn [fold_left].
    rewrite vadd_zero_l, !electricContribution_eq. cbv zeta.
    cbn [position sourceAt value]. rewrite !sceneToMeters_eq. cbn [fst snd].
    replace (0 * (1 / 10)) with 0 by lra.
    rewrite !distance_on_axis.
    replace (Rabs (- (1 / 2) / 2 * (1 / 10) - - (1 / 8) * (1 / 10))) with (1 / 80)
      by (rewrite Rabs_left; lra).
    replace (Rabs (1 / 2 / 2 * (1 / 10) - - (1 / 8) * (1 / 10))) with (3 / 80)
      by (rewrite Rabs_pos_eq; lra).
    rewrite (Rmax_left (1 / 80) (1 / 100)), (Rmax_right (1 / 80) (1 / 10)) by lra.
    rewrite (Rmax_left (3 / 80) (1 / 100)), (Rmax_right (3 / 80) (1 / 10)) by lra.
    cbn [x vadd add RNumber]. field.
Qed.

Lemma like_charges_near_estimate_witness :
  closedForm (sourceAt (- (1 / 2) / 2) 1) (sourceAt ((1 / 2) / 2) 1) = Some (- (1 / 80), 0, 0).
Proof. apply (@like_charges_near_estimate 1). lra. Defined.

(** *** The seeds of the field lines *)

Lemma generateSphereShellSeeds_eq (sources : list Source) (numSeeds : nat) :
  FieldFlow.generateSphereShellSeeds sources numSeeds =
  map (FieldFlow.shellSeed numSeeds)
    (filter (fun i => negb (existsb (fun source =>
                 ltb (FieldFlow.distance (FieldFlow.shellSeed numSeeds i) (position source))
                     FieldFlow.MIN_DISTANCE_FROM_SOURCE) sources))
       (seq 0 numSeeds)).
Proof.
  unfold FieldFlow.generateSphereShellSeeds.
  rewrite (fold_push_filter
    (fun i => negb (existsb (fun source =>
                 ltb (FieldFlow.distance (FieldFlow.shellSeed numSeeds i) (position source))
                     FieldFlow.MIN_DISTANCE_FROM_SOURCE) sources))
    (FieldFlow.shellSeed numSeeds)).
  reflexivity.
Qed.

Lemma shellY_range (n i : nat) :
  (2 <= n)%nat -> (i < n)%nat -> -1 <= FieldFlow.shellY n i <= 1.
Proof.
  intros Hn Hi. unfold FieldFlow.shellY, lit. cbn [ofZ sub mul div RNumber].
  rewrite <- !INR_IZR_INZ.
  assert (H2 : 2 <= INR n) by (apply (le_INR 2); assumption).
  assert (Hi0 : 0 <= INR i) by apply pos_INR.
  assert (Hi1 : INR i <= INR n - 1).
  { replace (INR n - 1) with (INR (n - 1)) by (rewrite minus_INR by lia; reflexivity).
    apply le_INR. lia. }
  assert (Hq0 : 0 <= INR i / (INR n - 1)).
  { apply Rmult_le_pos; [assumption|]. left. apply Rinv_0_lt_compat. lra. }
  assert (Hq1 : INR i / (INR n - 1) <= 1).
  { apply div_le_bound; lra. }
  lra.
Qed.

Lemma shellSeed_on_sphere (n i : nat) :
  (2 <= n)%nat -> (i < n)%nat ->
  FieldFlow.distance origin (FieldFlow.shellSeed n i) = 6.
Proof.
  intros Hn Hi. pose proof (shellY_range Hn Hi) as Hy.
  unfold FieldFlow.shellSeed. cbv zeta. set (yy := FieldFlow.shellY n i) in *.
  unfold FieldFlow.distance, origin, FieldFlow.SEED_SPHERE_RADIUS, lit.
  cbn [ofZ sub mul add sqrt cos sin RNumber RElementary].
  match goal with |- context [Rtrigo_def.cos ?u] => set (t := u) end.
  assert (Hrad : 0 <= 1 - yy * yy) by nra.
  pose proof (sqrt_sqrt _ Hrad) as Hs.
  set (rad := R_sqrt.sqrt (1 - yy * yy)) in *.
  pose proof (sin2_cos2 t) as Hsc. unfold Rsqr in Hsc.
  replace ((Rtrigo_def.cos t * rad * 6 - 0) * (Rtrigo_def.cos t * rad * 6 - 0) +
           (yy * 6 - 0) * (yy * 6 - 0) +
           (Rtrigo_def.sin t * rad * 6 - 0) * (Rtrigo_def.sin t * rad * 6 - 0))
    with (6 * 6).
  - apply sqrt_square. lra.
  - transitivity
      (36 * ((rad * rad) *
             (Rtrigo_def.sin t * Rtrigo_def.sin t + Rtrigo_def.cos t * Rtrigo_def.cos t) +
             yy * yy)).
    + rewrite Hsc, Hs. ring.
    + ring.
Qed.

Lemma distance_FieldFlow (a b : Pos) : FieldFlow.distance a b = distance a b.
Proof. reflexivity. Qed.


Lemma shellSeed_top : FieldFlow.shellSeed 2 0 = (0, 6, 0).
Proof.
  unfold FieldFlow.shellSeed, FieldFlow.shellY, FieldFlow.SEED_SPHERE_RADIUS, lit.
  change (Z.of_nat 2) with 2%Z. change (Z.of_nat 0) with 0%Z.
  cbn [ofZ sub mul div add sqrt cos sin RNumber RElementary].
  replace (1 - 0 / (2 - 1) * 2) with 1 by lra.
  replace (1 - 1 * 1) with 0 by lra. rewrite sqrt_0.
  apply triple_eq; lra.
Qed.

Lemma shellSeed_bottom : FieldFlow.shellSeed 2 1 = (0, -6, 0).
Proof.
  unfold FieldFlow.shellSeed, FieldFlow.shellY, FieldFlow.SEED_SPHERE_RADIUS, lit.
  change (Z.of_nat 2) with 2%Z. change (Z.of_nat 1) with 1%Z.
  cbn [ofZ sub mul div add sqrt cos sin RNumber RElementary].
  replace (1 - 1 / (2 - 1) * 2) with (-1) by lra.
  replace (1 - -1 * -1) with 0 by lra. rewrite sqrt_0.
  apply triple_eq; lra.
Qed.


(** Asked for one seed, the loop divides by [numSeeds - 1 = 0]. *)
Lemma one_seed_divisor : (lit (Z.of_nat 1) - lit 1)%num = 0.
Proof. unfold lit. cbn [ofZ sub RNumber Z.of_nat Pos.of_succ_nat]. lra. Qed.

(** *** The lattice *)

Lemma forValues_counts (step hi : R) (count : nat) :
  forall (fuel : nat) (v : R),
    (count < fuel)%nat ->
    (forall j, (j < count)%nat -> v + step * INR j <= hi) ->
    hi < v + step * INR count ->
    FieldVectors.forValues fuel v hi step =
      Some (map (fun j => v + step * INR j) (seq 0 count)).
Proof.
  induction count as [|count IH]; intros fuel v Hfuel Hin Hout.
  - destruct fuel as [|fuel]; [lia|]. cbn [FieldVectors.forValues seq map].
    assert (Hl : leb v hi = false) by (apply leb_false; cbn [INR] in Hout; lra).
    now rewrite Hl.
  - destruct fuel as [|fuel]; [lia|]. cbn [FieldVectors.forValues].
    assert (Hl : leb v hi = true).
    { apply leb_true. specialize (Hin 0%nat ltac:(lia)). cbn [INR] in Hin. lra. }
    rewrite Hl. cbn [add RNumber].
    rewrite (IH fuel (v + step)).
    + cbn [seq map]. f_equal. f_equal.
      * cbn [INR]. lra.
      * rewrite <- seq_shift, map_map. apply map_ext. intros j.
        rewrite S_INR. lra.
    + lia.
    + intros j Hj. specialize (Hin (S j) ltac:(lia)). rewrite S_INR in Hin. lra.
    + rewrite S_INR in Hout. lra.
Qed.

Lemma floor_bounds (g : R) :
  0 <= g -> INR (Z.to_nat (Int_part g)) <= g < INR (Z.to_nat (Int_part g)) + 1.
Proof.
  intros Hg. destruct (base_Int_part g) as [Hlo Hhi].
  assert (H0 : (0 <= Int_part g)%Z).
  { destruct (Z_lt_le_dec (Int_part g) 0) as [Hneg|]; [|assumption].
    assert (Int_part g <= -1)%Z by lia.
    apply IZR_le in H. lra. }
  rewrite INR_IZR_INZ, Z2Nat.id by assumption. lra.
Qed.

Lemma forValues_axis (gridSize : R) (fuel : nat) :
  0 <= gridSize -> (perAxis gridSize < fuel)%nat ->
  FieldVectors.forValues fuel (- gridSize) gridSize 2 = Some (axisSpec gridSize).
Proof.
  intros Hg Hfuel. unfold axisSpec.
  pose proof (floor_bounds Hg) as [Hlo Hhi].
  apply forValues_counts; [assumption| |].
  - intros j Hj. unfold perAxis in Hj.
    assert (INR j <= INR (Z.to_nat (Int_part gridSize))) by (apply le_INR; lia). lra.
  - unfold perAxis. rewrite S_INR. lra.
Qed.

Lemma flat_map_length_const (A B : Type) (f : A -> list B) (c : nat) (l : list A) :
  (forall a, length (f a) = c) -> length (flat_map f l) = (length l * c)%nat.
Proof.
  intros Hf. induction l as [|a l IH]; [reflexivity|].
  cbn [flat_map length]. rewrite length_app, Hf, IH. lia.
Qed.

Lemma lattice_length (gridSize : R) :
  length (latticeSpec gridSize) = (perAxis gridSize ^ 3)%nat.
Proof.
  unfold latticeSpec.
  assert (Ha : length (axisSpec gridSize) = perAxis gridSize).
  { unfold axisSpec. now rewrite length_map, length_seq. }
  rewrite (flat_map_length_const _ (c := (perAxis gridSize * perAxis gridSize)%nat)).
  - rewrite Ha. cbn [Nat.pow]. lia.
  - intros a. rewrite (flat_map_length_const _ (c := perAxis gridSize)).
    + now rewrite Ha.
    + intros b. now rewrite length_map.
Qed.

Lemma generateGridPoints_eq (gridSize : R) (fuel : nat) :
  0 <= gridSize -> (perAxis gridSize < fuel)%nat ->
  FieldVectors.generateGridPoints fuel gridSize = Some (FieldVectors.thin (latticeSpec gridSize)).
Proof.
  intros Hg Hfuel. unfold FieldVectors.generateGridPoints.
  cbn [FieldVectors.step_x FieldVectors.step_y FieldVectors.step_z FieldVectors.GRID_STEP].
  change (lit 2) with 2. cbn [opp RNumber].
  now rewrite (forValues_axis Hg Hfuel).
Qed.

(** C8 (as amended) -- Whenever the loops of [generateGridPoints] end (for
    every reading of the numbers, doubles included): the values of an axis
    are the values the loop variable takes, [-gridSize], then 2 more at
    every pass, as long as it does not exceed [gridSize]; the lattice is
    the triples of these values, x outermost; a lattice of at most
    [MAX_ARROWS] = 500 points is returned as it is, a larger one is thinned
    to its points of index [0, N, 2N, ...], where [N] is
    [ceil(count / MAX_ARROWS)], the least number with
    [count <= N * MAX_ARROWS]; the result has at most 500 points, and, the
    function being a function, equal inputs give equal outputs (more fuel
    gives the same list).

    In exact arithmetic the loops end for every [gridSize >= 0] (any fuel
    above the number of values per axis is enough), and the values of an
    axis are the [-gridSize + 2 j <= gridSize].  In doubles they do not end
    when [gridSize] is so large that adding 2 does not change [-gridSize]
    (see [Binary64.huge_grid_never_returns]). *)
Theorem grid_points_lattice :
  (forall (T : Type) (NT : Number T) (fuel : nat) (gridSize : T)
          (points : list (Position T)),
     FieldVectors.generateGridPoints fuel gridSize = Some points ->
     exists vs : list T,
       FieldVectors.forValues fuel (opp gridSize) gridSize (lit 2) = Some vs /\
       (forall k : nat, (k < length vs)%nat ->
          nth_error vs k = Some (stepped k (opp gridSize) (lit 2)) /\
          leb (stepped k (opp gridSize) (lit 2)) gridSize = true) /\
       leb (stepped (length vs) (opp gridSize) (lit 2)) gridSize = false /\
       length (cube vs) = (length vs ^ 3)%nat /\
       ((length (cube vs) <= FieldVectors.MAX_ARROWS)%nat -> points = cube vs) /\
       ((FieldVectors.MAX_ARROWS < length (cube vs))%nat ->
          let N := FieldVectors.ceilDiv (length (cube vs)) FieldVectors.MAX_ARROWS in
          ((N - 1) * FieldVectors.MAX_ARROWS < length (cube vs) <=
           N * FieldVectors.MAX_ARROWS)%nat /\
          forall k : nat, nth_error points k = nth_error (cube vs) (k * N)) /\
       (length points <= FieldVectors.MAX_ARROWS)%nat /\
       (forall fuel' : nat, (fuel <= fuel')%nat ->
          FieldVectors.generateGridPoints fuel' gridSize = Some points)) /\
  (forall (gridSize : R) (fuel : nat),
     0 <= gridSize -> (perAxis gridSize < fuel)%nat ->
     exists points : list Pos,
       FieldVectors.generateGridPoints fuel gridSize = Some points /\
       latticeSpec gridSize = cube (axisSpec gridSize) /\
       length (latticeSpec gridSize) = (perAxis gridSize ^ 3)%nat /\
       ((length (latticeSpec gridSize) <= FieldVectors.MAX_ARROWS)%nat ->
          points = latticeSpec gridSize) /\
       ((FieldVectors.MAX_ARROWS < length (latticeSpec gridSize))%nat ->
          let N := FieldVectors.ceilDiv (length (latticeSpec gridSize))
                     FieldVectors.MAX_ARROWS in
          ((N - 1) * FieldVectors.MAX_ARROWS < length (latticeSpec gridSize) <=
           N * FieldVectors.MAX_ARROWS)%nat /\
          forall k : nat,
            nth_error points k = nth_error (latticeSpec gridSize) (k * N)) /\
       (length points <= FieldVectors.MAX_ARROWS)%nat /\
       (forall fuel', (perAxis gridSize < fuel')%nat ->
          FieldVectors.generateGridPoints fuel' gridSize = Some points)) /\
  FieldVectors.MAX_ARROWS = 500%nat.
Proof.
  split; [|split; [|reflexivity]].
  - intros T NT fuel gridSize points Hpoints.
    destruct (@generateGridPoints_some _ _ _ _ _ Hpoints) as (vs & Hvs & ->).
    destruct (@forValues_spec _ _ _ _ _ _ _ Hvs) as (Hk & Hend & _).
    destruct (thin_spec (cube vs)) as (Hsmall & Hlarge & Hlen).
    exists vs. split; [exact Hvs|]. split; [exact Hk|]. split; [exact Hend|].
    split; [apply cube_length|]. split; [exact Hsmall|]. split; [exact Hlarge|].
    split; [exact Hlen|].
    intros fuel' Hfuel. unfold FieldVectors.generateGridPoints.
    cbn [FieldVectors.step_x FieldVectors.step_y FieldVectors.step_z FieldVectors.GRID_STEP].
    now rewrite (@forValues_more_fuel _ _ _ _ _ _ _ _ Hvs Hfuel).
  - intros gridSize fuel Hg Hfuel.
    destruct (thin_spec (latticeSpec gridSize)) as (Hsmall & Hlarge & Hlen).
    exists (FieldVectors.thin (latticeSpec gridSize)).
    split; [now apply generateGridPoints_eq|].
    split; [reflexivity|].
    split; [apply lattice_length|].
    split; [exact Hsmall|]. split; [exact Hlarge|]. split; [exact Hlen|].
    intros fuel' Hfuel'. now apply generateGridPoints_eq.
Qed.

Lemma perAxis_INR (n : nat) : perAxis (INR n) = S n.
Proof. unfold perAxis. now rewrite Int_part_INR, Nat2Z.id. Qed.

Lemma grid_points_lattice_witness :
  exists points : list Pos,
    FieldVectors.generateGridPoints 10 (INR 8) = Some points /\
    (length points <= 500)%nat /\
    forall k : nat, nth_error points k = nth_error (latticeSpec (INR 8)) (k * 2).
Proof.
  destruct (proj1 (proj2 grid_points_lattice) (INR 8) 10%nat)
    as (points & Hpoints & _ & Hcount & _ & Hlarge & Hlen & _).
  - apply pos_INR.
  - rewrite perAxis_INR. lia.
  - exists points. split; [exact Hpoints|]. split; [exact Hlen|].
    rewrite perAxis_INR in Hcount. rewrite Hcount in Hlarge.
    apply Hlarge. unfold FieldVectors.MAX_ARROWS. cbn. lia.
Defined.

(** *** The first pass and the normalized strength *)

Abbreviation Arrow := (FieldVectors.ArrowData (T:=R)).

Lemma MIN_FIELD_THRESHOLD_eq : FieldVectors.MIN_FIELD_THRESHOLD = 1 / 10000000000.
Proof. reflexivity. Qed.

Lemma samplePoint_tracked (sources : list Source) (mode : FieldMode)
    (st : FieldVectors.PassState) (point : Pos) :
  tracked st -> tracked (FieldVectors.samplePoint sources mode st point).
Proof.
  destruct st as [[arrows maxM] minM]. intros (Hmax & Hatt & Hmin).
  unfold FieldVectors.samplePoint.
  destruct (existsb _ sources); [exact (conj Hmax (conj Hatt Hmin))|].
  set (field := fieldAt mode point sources).
  set (mag := fieldMagnitude field).
  set (arrow := {| FieldVectors.arrow_position := point;
                   FieldVectors.arrow_field := field;
                   FieldVectors.magnitude := mag |}).
  assert (Hin : forall a : Arrow, In a (arrows ++ [arrow]) <-> In a arrows \/ a = arrow).
  { intros a. rewrite in_app_iff. cbn [In]. intuition. }
  assert (Hmag : 0 <= mag) by (unfold mag; rewrite fieldMagnitude_eq; apply norm3_nonneg).
  unfold tracked. split; [|split].
  - intros a Ha. apply Hin in Ha.
    destruct (ltb maxM mag) eqn:E; [apply ltb_true in E|apply ltb_false in E];
      destruct Ha as [Ha| ->]; try (specialize (Hmax a Ha));
      cbn [FieldVectors.magnitude arrow]; lra.
  - destruct (ltb maxM mag) eqn:E.
    + right. exists arrow. split; [apply Hin; now right|reflexivity].
    + destruct Hatt as [H0|(a & Ha & Hm)]; [now left|].
      right. exists a. split; [apply Hin; now left|exact Hm].
  - destruct minM as [m|]; cbn [FieldVectors.belowMin].
    + destruct Hmin as (Hm & (a0 & Ha0 & Hm0) & Hleast).
      destruct (ltb mag m && ltb FieldVectors.MIN_FIELD_THRESHOLD mag) eqn:E.
      * apply andb_true_iff in E. destruct E as [E1 E2].
        apply ltb_true in E1. apply ltb_true in E2.
        split; [exact E2|split].
        -- exists arrow. split; [apply Hin; now right|reflexivity].
        -- intros a Ha Habove. apply Hin in Ha. destruct Ha as [Ha| ->].
           ++ specialize (Hleast a Ha Habove). lra.
           ++ cbn [FieldVectors.magnitude arrow]. lra.
      * split; [exact Hm|split].
        -- exists a0. split; [apply Hin; now left|exact Hm0].
        -- intros a Ha Habove. apply Hin in Ha. destruct Ha as [Ha| ->].
           ++ now apply Hleast.
           ++ cbn [FieldVectors.magnitude arrow] in *.
              apply andb_false_iff in E. destruct E as [E|E].
              ** apply ltb_false in E. exact E.
              ** apply ltb_false in E. lra.
    + cbn [ltInfinity RNumber andb].
      destruct (ltb FieldVectors.MIN_FIELD_THRESHOLD mag) eqn:E.
      * apply ltb_true in E. split; [exact E|split].
        -- exists arrow. split; [apply Hin; now right|reflexivity].
        -- intros a Ha Habove. apply Hin in Ha. destruct Ha as [Ha| ->].
           ++ specialize (Hmin a Ha). lra.
           ++ cbn [FieldVectors.magnitude arrow]. lra.
      * apply ltb_false in E. intros a Ha. apply Hin in Ha. destruct Ha as [Ha| ->].
        -- now apply Hmin.
        -- exact E.
Qed.

Lemma samplePass_tracked (sources : list Source) (mode : FieldMode) (gridPoints : list Pos) :
  tracked (fold_left (FieldVectors.samplePoint sources mode) gridPoints ([], lit 0, None)).
Proof.
  assert (H0 : tracked (([], lit 0, None) : FieldVectors.PassState (T:=R))).
  { unfold tracked. split; [intros a []|split; [now left|intros a []]]. }
  revert H0. generalize (([], lit 0, None) : FieldVectors.PassState (T:=R)).
  induction gridPoints as [|p rest IH]; intros st Hst; cbn [fold_left]; [exact Hst|].
  apply IH. now apply samplePoint_tracked.
Qed.

Lemma ln10_pos : 0 < ln 10.
Proof. rewrite <- ln_1. apply ln_increasing; lra. Qed.

Lemma log10_eq (a : R) : log10 a = ln a / ln 10.
Proof. reflexivity. Qed.

Lemma log10_increasing (a b : R) : 0 < a -> a < b -> log10 a < log10 b.
Proof.
  intros Ha Hab. rewrite !log10_eq. pose proof ln10_pos.
  apply Rmult_lt_compat_r; [now apply Rinv_0_lt_compat|]. now apply ln_increasing.
Qed.

(** The branches of [normalizedStrength] once the tracked minimum is above
    the floor. *)
Lemma normalizedStrength_eq (fd : FieldVectors.FieldData (T:=R)) (mag : R) :
  FieldVectors.MIN_FIELD_THRESHOLD < FieldVectors.minMagnitude fd ->
  FieldVectors.minMagnitude fd <= FieldVectors.maxMagnitude fd ->
  0 < mag ->
  FieldVectors.normalizedStrength fd mag =
    if Rlt_dec (FieldVectors.minMagnitude fd) (FieldVectors.maxMagnitude fd)
    then Rmax 0 (Rmin 1 ((log10 mag - log10 (FieldVectors.minMagnitude fd)) /
                         (log10 (FieldVectors.maxMagnitude fd) -
                          log10 (FieldVectors.minMagnitude fd))))
    else if Rle_dec (FieldVectors.maxMagnitude fd) mag then 1 else 1 / 2.
Proof.
  intros Hmin Hle Hmag. rewrite MIN_FIELD_THRESHOLD_eq in Hmin.
  unfold FieldVectors.normalizedStrength.
  set (mn := FieldVectors.minMagnitude fd) in *.
  set (mx := FieldVectors.maxMagnitude fd) in *.
  change (lit 0) with 0. change (lit 1) with 1.
  assert (H1 : ltb 0 mx = true) by (apply ltb_true; lra).
  assert (H2 : ltb 0 mag = true) by (apply ltb_true; lra).
  rewrite H1, H2. cbn [andb].
  assert (Ht : truthy mn = true).
  { unfold truthy. rewrite eqb_refl. change (lit 0) with 0.
    assert (E : eqb mn 0 = false) by (apply eqb_false; lra). now rewrite E. }
  rewrite Ht, !max_Rmax, min_Rmin, MIN_FIELD_THRESHOLD_eq.
  rewrite (Rmax_left mn) by lra.
  destruct (Rlt_dec mn mx) as [Hlt|Hge].
  - assert (E : ltb (log10 mn) (log10 mx) = true).
    { apply ltb_true. apply log10_increasing; lra. }
    rewrite E. reflexivity.
  - assert (Heq : mn = mx) by lra.
    assert (E : ltb (log10 mn) (log10 mx) = false).
    { apply ltb_false. rewrite Heq. lra. }
    rewrite E. destruct (Rle_dec mx mag) as [Hm|Hm].
    + assert (E2 : leb mx mag = true) by now apply leb_true.
      now rewrite E2.
    + assert (E2 : leb mx mag = false) by (apply leb_false; lra).
      rewrite E2. rewrite e_neg_eq. change (10 ^ 1)%Z with 10%Z. lra.
Qed.

(** The branches of [normalizedStrength] when no sample is above the floor
    and the tracked minimum is the maximum. *)
Lemma normalizedStrength_low (fd : FieldVectors.FieldData (T:=R)) (mag : R) :
  FieldVectors.minMagnitude fd = FieldVectors.maxMagnitude fd ->
  0 < FieldVectors.maxMagnitude fd <= FieldVectors.MIN_FIELD_THRESHOLD ->
  0 < mag ->
  FieldVectors.normalizedStrength fd mag =
    if Rle_dec (FieldVectors.maxMagnitude fd) mag then 1 else 1 / 2.
Proof.
  intros Heq Hmx Hmag. rewrite MIN_FIELD_THRESHOLD_eq in Hmx.
  unfold FieldVectors.normalizedStrength. rewrite Heq.
  set (mx := FieldVectors.maxMagnitude fd) in *.
  change (lit 0) with 0. change (lit 1) with 1.
  assert (H1 : ltb 0 mx = true) by (apply ltb_true; lra).
  assert (H2 : ltb 0 mag = true) by (apply ltb_true; lra).
  rewrite H1, H2. cbn [andb].
  assert (Ht : truthy mx = true).
  { unfold truthy. rewrite eqb_refl. change (lit 0) with 0.
    assert (E : eqb mx 0 = false) by (apply eqb_false; lra). now rewrite E. }
  rewrite Ht, !max_Rmax, MIN_FIELD_THRESHOLD_eq.
  rewrite (Rmax_right mx) by lra.
  assert (E : ltb (log10 (1 / 10000000000)) (log10 mx) = false).
  { apply ltb_false. destruct (Req_dec mx (1 / 10000000000)) as [->|Hne]; [lra|].
    left. apply log10_increasing; lra. }
  rewrite E. destruct (Rle_dec mx mag) as [Hm|Hm].
  - assert (E2 : leb mx mag = true) by now apply leb_true.
    now rewrite E2.
  - assert (E2 : leb mx mag = false) by (apply leb_false; lra).
    rewrite E2. rewrite e_neg_eq. change (10 ^ 1)%Z with 10%Z. lra.
Qed.

Lemma normalizedStrength_zero (fd : FieldVectors.FieldData (T:=R)) :
  FieldVectors.normalizedStrength fd 0 = 0.
Proof.
  unfold FieldVectors.normalizedStrength. change (lit 0) with 0.
  assert (E : ltb 0 0 = false) by (apply ltb_false; lra).
  rewrite E, andb_false_r. reflexivity.
Qed.

Lemma rendered_iff (mag : R) :
  FieldVectors.rendered mag = true <-> FieldVectors.MIN_FIELD_THRESHOLD <= mag.
Proof.
  unfold FieldVectors.rendered. rewrite negb_true_iff. apply ltb_false.
Qed.

(** What the pass tracks and what strength each of its samples gets, for
    any list of grid points. *)
Lemma samplePass_strengths (sources : list Source) (mode : FieldMode)
    (gridPoints : list Pos) :
  let fd := FieldVectors.samplePass sources mode gridPoints in
  let mn := FieldVectors.minMagnitude fd in
  let mx := FieldVectors.maxMagnitude fd in
  let floor := FieldVectors.MIN_FIELD_THRESHOLD in
  (forall a : Arrow, In a (FieldVectors.arrowData fd) ->
     0 <= FieldVectors.magnitude a <= mx) /\
  (mx = 0 \/
   exists a : Arrow, In a (FieldVectors.arrowData fd) /\ FieldVectors.magnitude a = mx) /\
  ((exists a : Arrow, In a (FieldVectors.arrowData fd) /\ floor < FieldVectors.magnitude a) ->
   floor < mn <= mx /\
   (exists a : Arrow, In a (FieldVectors.arrowData fd) /\ FieldVectors.magnitude a = mn) /\
   (forall a : Arrow, In a (FieldVectors.arrowData fd) ->
      floor < FieldVectors.magnitude a -> mn <= FieldVectors.magnitude a)) /\
  ((forall a : Arrow, In a (FieldVectors.arrowData fd) -> FieldVectors.magnitude a <= floor) ->
   mn = mx) /\
  (forall a : Arrow, In a (FieldVectors.arrowData fd) ->
     let mag := FieldVectors.magnitude a in
     (mag = 0 -> FieldVectors.normalizedStrength fd mag = 0) /\
     (0 < mag -> mn < mx ->
      FieldVectors.normalizedStrength fd mag =
        Rmax 0 (Rmin 1 ((log10 mag - log10 mn) / (log10 mx - log10 mn)))) /\
     (0 < mag -> mn = mx ->
      (mx <= mag -> FieldVectors.normalizedStrength fd mag = 1) /\
      (mag < mx -> FieldVectors.normalizedStrength fd mag = 1 / 2 /\ mag <= floor)) /\
     (FieldVectors.rendered mag = true <-> floor <= mag) /\
     (mag = floor -> FieldVectors.rendered mag = true)).
Proof.
  cbv zeta.
  pose proof (samplePass_tracked sources mode gridPoints) as Htr.
  unfold FieldVectors.samplePass in *.
  destruct (fold_left _ gridPoints _) as [[arrows maxM] minM].
  cbn [FieldVectors.finishPass FieldVectors.arrowData FieldVectors.maxMagnitude
       FieldVectors.minMagnitude] in *.
  destruct Htr as (Hmax & Hatt & Hmin).
  pose proof MIN_FIELD_THRESHOLD_eq as Hfloor.
  split; [exact Hmax|]. split; [exact Hatt|].
  destruct minM as [m|].
  - (* some sample is above the floor *)
    destruct Hmin as (Hm & (a1 & Ha1 & Hm1) & Hleast).
    assert (Hle : m <= maxM) by (rewrite <- Hm1; now apply Hmax).
    split; [|split].
    + intros _. split; [lra|]. split; [now exists a1|exact Hleast].
    + intros Hall. specialize (Hall a1 Ha1). lra.
    + intros a Ha. set (mag := FieldVectors.magnitude a) in *.
      pose proof (@normalizedStrength_eq
                    {| FieldVectors.arrowData := arrows;
                       FieldVectors.maxMagnitude := maxM;
                       FieldVectors.minMagnitude := m |} mag Hm Hle) as Hns.
      cbn [FieldVectors.maxMagnitude FieldVectors.minMagnitude] in Hns.
      split; [intros ->; apply normalizedStrength_zero|].
      split; [|split; [|split; [apply rendered_iff|]]].
      * intros Hmag Hlt. rewrite (Hns Hmag).
        destruct (Rlt_dec m maxM); [reflexivity|lra].
      * intros Hmag Heq. specialize (Hns Hmag).
        revert Hns. destruct (Rlt_dec m maxM) as [Hlt|_]; [lra|]. intros Hns.
        split.
        -- intros Hge. rewrite Hns. destruct (Rle_dec maxM mag); [reflexivity|lra].
        -- intros Hlt. split.
           ++ rewrite Hns. destruct (Rle_dec maxM mag); [lra|reflexivity].
           ++ destruct (Rle_dec mag FieldVectors.MIN_FIELD_THRESHOLD) as [|Hn];
                [assumption|].
              assert (Hab : FieldVectors.MIN_FIELD_THRESHOLD < mag) by lra.
              specialize (Hleast a Ha Hab). unfold mag in *. lra.
      * intros ->. apply rendered_iff. lra.
  - (* no sample is above the floor *)
    split; [|split].
    + intros (a0 & Ha0 & Habove). specialize (Hmin a0 Ha0). lra.
    + intros _. reflexivity.
    + intros a Ha. set (mag := FieldVectors.magnitude a) in *.
      assert (Hlow : mag <= FieldVectors.MIN_FIELD_THRESHOLD) by (apply Hmin; exact Ha).
      assert (Hm : 0 <= mag <= maxM) by (apply Hmax; exact Ha).
      split; [intros ->; apply normalizedStrength_zero|].
      split; [intros _ Hlt; lra|].
      split; [|split; [apply rendered_iff|intros ->; apply rendered_iff; lra]].
      intros Hmag _.
      assert (Hmx : 0 < maxM <= FieldVectors.MIN_FIELD_THRESHOLD).
      { split; [lra|]. destruct Hatt as [H0|(a1 & Ha1 & Hm1)]; [lra|].
        rewrite <- Hm1. now apply Hmin. }
      pose proof (@normalizedStrength_low
                    {| FieldVectors.arrowData := arrows;
                       FieldVectors.maxMagnitude := maxM;
                       FieldVectors.minMagnitude := maxM |} mag eq_refl Hmx Hmag) as Hns.
      cbn [FieldVectors.maxMagnitude] in Hns.
      split.
      * intros Hge. rewrite Hns. destruct (Rle_dec maxM mag); [reflexivity|lra].
      * intros Hlt. split; [|exact Hlow].
        rewrite Hns. destruct (Rle_dec maxM mag); [lra|reflexivity].
Qed.


Lemma in_cube (A : Type) (vs : list A) (a b c : A) :
  In (a, b, c) (cube vs) <-> In a vs /\ In b vs /\ In c vs.
Proof.
  unfold cube. rewrite in_flat_map. split.
  - intros (a' & Ha & Hin). apply in_flat_map in Hin. destruct Hin as (b' & Hb & Hin).
    apply in_map_iff in Hin. destruct Hin as (c' & Heq & Hc).
    injection Heq as <- <- <-. now repeat split.
  - intros (Ha & Hb & Hc). exists a. split; [exact Ha|].
    apply in_flat_map. exists b. split; [exact Hb|].
    apply in_map_iff. now exists c.
Qed.

Lemma axis_of_two : axisSpec (INR 2) = [-2; 0; 2].
Proof.
  unfold axisSpec. rewrite perAxis_INR. cbn [seq map INR].
  repeat (f_equal; try lra).
Qed.

Lemma origin_source_magnitude (v a b c : R) :
  1 <= a * a + b * b + c * c ->
  fieldMagnitude (fieldAt electric (a, b, c) [sourceAt 0 v]) =
    100 * COULOMB_CONSTANT * Rabs v / (a * a + b * b + c * c).
Proof.
  intros HS. cbn [fieldAt].
  rewrite single_source_electric, electricContribution_magnitude.
  cbn [position value sourceAt]. rewrite distance_meters, distance_eq. cbn [fst snd].
  pose proof (norm3_square (0 - a) (0 - b) (0 - c)) as Hsq.
  pose proof (norm3_nonneg (0 - a) (0 - b) (0 - c)) as Hr.
  set (r := norm3 (0 - a) (0 - b) (0 - c)) in *.
  assert (HrS : r * r = a * a + b * b + c * c) by (rewrite Hsq; ring).
  assert (Hr1 : 1 <= r) by nra.
  unfold clampedMagnitude. rewrite !Rmax_left by lra.
  rewrite <- HrS. field. lra.
Qed.

Lemma origin_source_clear (v a b c : R) :
  clearOfSources [sourceAt 0 v] (a, b, c) = true <-> 64 / 100 <= a * a + b * b + c * c.
Proof.
  unfold clearOfSources. cbn [existsb position sourceAt]. rewrite orb_false_r.
  rewrite negb_true_iff, ltb_false.
  change (FieldVectors.distance (a, b, c) (0, 0, 0)) with (distance (a, b, c) (0, 0, 0)).
  rewrite distance_eq. cbn [fst snd].
  pose proof (norm3_square (0 - a) (0 - b) (0 - c)) as Hsq.
  pose proof (norm3_nonneg (0 - a) (0 - b) (0 - c)) as Hr.
  set (r := norm3 (0 - a) (0 - b) (0 - c)) in *.
  assert (HrS : r * r = a * a + b * b + c * c) by (rewrite Hsq; ring).
  unfold FieldVectors.MIN_DISTANCE_FROM_SOURCE. rewrite e_neg_eq.
  change (10 ^ 1)%Z with 10%Z. rewrite <- HrS. split; intros H; nra.
Qed.

(** The magnitudes the sampler records on the grid of [gridSize = 2] for
    [gridCharge]: [2e-10] at the six points at distance 2, [1e-10] at the
    twelve at distance [2 sqrt 2], [2/3 e-10] at the eight corners. *)
Lemma grid_of_two_magnitudes (a b c : R) :
  In (a, b, c) (latticeSpec (INR 2)) ->
  clearOfSources [gridCharge] (a, b, c) = true ->
  let m := fieldMagnitude (fieldAt electric (a, b, c) [gridCharge]) in
  m = 2 / 10000000000 \/ m = 1 / 10000000000 \/ m = 2 / 3 / 10000000000.
Proof.
  intros Hin Hclear m.
  change (latticeSpec (INR 2)) with (cube (axisSpec (INR 2))) in Hin.
  rewrite axis_of_two in Hin. apply in_cube in Hin. cbn [In] in Hin.
  apply origin_source_clear in Hclear.
  assert (Hv : 100 * COULOMB_CONSTANT * Rabs (8 / 1000000000000 / 8990000000) =
               8 / 10000000000).
  { rewrite COULOMB_CONSTANT_eq, Rabs_pos_eq; lra. }
  assert (HS : a * a + b * b + c * c = 4 \/ a * a + b * b + c * c = 8 \/
               a * a + b * b + c * c = 12).
  { destruct Hin as ([ <- | [ <- | [ <- | [] ] ] ] & [ <- | [ <- | [ <- | [] ] ] ] &
                    [ <- | [ <- | [ <- | [] ] ] ]);
      first [lra | left; lra | right; left; lra | right; right; lra]. }
  unfold m, gridCharge. rewrite origin_source_magnitude by lra. rewrite Hv.
  destruct HS as [ -> | [ -> | -> ] ]; [left|right; left|right; right]; lra.
Qed.



(** *** The potentials: superposition and potential differences *)

Lemma fold_plus_shift (f : Source -> R) (sources : list Source) :
  forall acc : R,
    fold_left (fun potential source => potential + f source) sources acc =
    acc + fold_left (fun potential source => potential + f source) sources 0.
Proof.
  induction sources as [|s l IH]; intros acc; cbn [fold_left].
  - lra.
  - rewrite IH, (IH (0 + f s)). lra.
Qed.

Lemma fold_minus_shift (f : Source -> R) (sources : list Source) :
  forall acc : R,
    fold_left (fun potential source => potential - f source) sources acc =
    acc + fold_left (fun potential source => potential - f source) sources 0.
Proof.
  induction sources as [|s l IH]; intros acc; cbn [fold_left].
  - lra.
  - rewrite IH, (IH (0 - f s)). lra.
Qed.

Lemma electric_potential_app (p : Pos) (A B : list Source) :
  computeElectricPotentialAtPoint p (A ++ B) =
  computeElectricPotentialAtPoint p A + computeElectricPotentialAtPoint p B.
Proof.
  unfold computeElectricPotentialAtPoint. cbv zeta. rewrite fold_left_app.
  cbn [add RNumber].
  apply (fold_plus_shift
           (fun source => (COULOMB_CONSTANT * value source /
              rMetersOf (sceneToMeters p) (sceneToMeters (position source)))%num)).
Qed.

Lemma gravitational_potential_app (p : Pos) (A B : list Source) :
  computeGravitationalPotentialAtPoint p (A ++ B) =
  computeGravitationalPotentialAtPoint p A + computeGravitationalPotentialAtPoint p B.
Proof.
  unfold computeGravitationalPotentialAtPoint. cbv zeta. rewrite fold_left_app.
  cbn [sub RNumber].
  apply (fold_minus_shift
           (fun source => (GRAVITATIONAL_CONSTANT * value source /
              rMetersOf (sceneToMeters p) (sceneToMeters (position source)))%num)).
Qed.

Lemma potential_difference_eq (p1 p2 : Pos) (mode : FieldMode) (sources : list Source) :
  computePotentialDifference p1 p2 mode sources =
  match mode with
  | electric =>
      computeElectricPotentialAtPoint p2 sources - computeElectricPotentialAtPoint p1 sources
  | gravity =>
      computeGravitationalPotentialAtPoint p2 sources -
      computeGravitationalPotentialAtPoint p1 sources
  end.
Proof. destruct mode; reflexivity. Qed.

(** X5 -- the potentials obey superposition like the fields do: the electric
    and the gravitational potential of the sources [A ++ B] at a point are
    the sums of the potentials of [A] and of [B], so is the potential
    difference between two points; and potential differences add up along a
    path [p1], [p2], [p3] and change sign when the end points are swapped. *)
Theorem potential_superposition :
  forall (p1 p2 p3 : Pos) (mode : FieldMode) (A B : list Source),
    computeElectricPotentialAtPoint p1 (A ++ B) =
      computeElectricPotentialAtPoint p1 A + computeElectricPotentialAtPoint p1 B /\
    computeGravitationalPotentialAtPoint p1 (A ++ B) =
      computeGravitationalPotentialAtPoint p1 A + computeGravitationalPotentialAtPoint p1 B /\
    computePotentialDifference p1 p2 mode (A ++ B) =
      computePotentialDifference p1 p2 mode A + computePotentialDifference p1 p2 mode B /\
    computePotentialDifference p1 p3 mode A =
      computePotentialDifference p1 p2 mode A + computePotentialDifference p2 p3 mode A /\
    computePotentialDifference p2 p1 mode A = - computePotentialDifference p1 p2 mode A.
Proof.
  intros p1 p2 p3 mode A B.
  split; [apply electric_potential_app|].
  split; [apply gravitational_potential_app|].
  rewrite !potential_difference_eq.
  destruct mode;
    rewrite ?electric_potential_app, ?gravitational_potential_app;
    repeat split; lra.
Qed.

(** The potential of the sources at a point depends on the point through
    its distances to the sources only. *)
Lemma rMetersOf_scene (p : Pos) (s : Source) :
  rMetersOf (sceneToMeters p) (sceneToMeters (position s)) =
  Rmax (1 / 10 * distance p (position s)) (1 / 100).
Proof. now rewrite rMetersOf_eq, distance_meters. Qed.

Lemma fold_left_ext_in (A B : Type) (f g : A -> B -> A) (l : list B) :
  (forall a b, In b l -> f a b = g a b) ->
  forall acc, fold_left f l acc = fold_left g l acc.
Proof.
  induction l as [|b l IH]; intros H acc; cbn [fold_left]; [reflexivity|].
  rewrite (H acc b (or_introl eq_refl)). apply IH.
  intros a b' Hin. apply H. now right.
Qed.

Lemma potentials_equidistant (p1 p2 : Pos) (sources : list Source) :
  (forall s, In s sources -> distance p1 (position s) = distance p2 (position s)) ->
  computeElectricPotentialAtPoint p1 sources = computeElectricPotentialAtPoint p2 sources /\
  computeGravitationalPotentialAtPoint p1 sources =
    computeGravitationalPotentialAtPoint p2 sources.
Proof.
  intros H.
  unfold computeElectricPotentialAtPoint, computeGravitationalPotentialAtPoint. cbv zeta.
  split; apply fold_left_ext_in; intros a s Hin;
    now rewrite !rMetersOf_scene, (H s Hin).
Qed.

(** X6 -- equipotential surfaces: two points that are at the same distance
    from every source (each source may have its own distance) are at the
    same potential, in both modes. *)
Theorem equidistant_points_equipotential (p1 p2 : Pos) (mode : FieldMode)
    (sources : list Source) :
  (forall s, In s sources -> distance p1 (position s) = distance p2 (position s)) ->
  computePotentialDifference p1 p2 mode sources = 0.
Proof.
  intros H. destruct (potentials_equidistant p1 p2 sources H) as [He Hg].
  rewrite potential_difference_eq. destruct mode; [rewrite He|rewrite Hg]; lra.
Qed.

Lemma equidistant_points_equipotential_witness :
  computePotentialDifference (3, 0, 0) (0, 3, 0) electric [unitCharge; sourceAt 0 2] = 0.
Proof.
  apply equidistant_points_equipotential.
  intros s [<-|[<-|[]]]; cbn [position unitCharge sourceAt];
    rewrite !distance_eq; cbn [fst snd]; unfold norm3; f_equal; lra.
Defined.

(** *** The textbook formulas, one source at a time *)

Lemma gravitationalContribution_eq (pm : Pos) (s : Source) :
  gravitationalContribution pm s =
  (let sm := sceneToMeters (position s) in
   let d := distance pm sm in
   let m := GRAVITATIONAL_CONSTANT * value s / (Rmax d (1 / 100) * Rmax d (1 / 100)) in
   {| x := m * ((fst (fst sm) - fst (fst pm)) / Rmax d (1 / 10));
      y := m * ((snd (fst sm) - snd (fst pm)) / Rmax d (1 / 10));
      z := m * ((snd sm - snd pm) / Rmax d (1 / 10)) |}).
Proof.
  unfold gravitationalContribution. cbv zeta.
  rewrite unitVector_eq, rMetersOf_eq. reflexivity.
Qed.

Lemma clampedMagnitude_far (K v d : R) :
  1 / 10 <= d -> clampedMagnitude K v d = K * Rabs v / (d * d).
Proof.
  intros Hd. unfold clampedMagnitude.
  rewrite !Rmax_left by lra. field. lra.
Qed.

Lemma single_source_magnitude (mode : FieldMode) (p : Pos) (s : Source) :
  fieldMagnitude (fieldAt mode p [s]) =
  clampedMagnitude (modeConstant mode) (value s)
    (distance (sceneToMeters p) (sceneToMeters (position s))).
Proof.
  destruct mode; cbn [fieldAt modeConstant].
  - rewrite single_source_electric. apply electricContribution_magnitude.
  - rewrite single_source_gravitational. apply gravitationalContribution_magnitude.
Qed.

Lemma force_magnitude (p : Pos) (q : R) (mode : FieldMode) (sources : list Source) :
  fieldMagnitude (computeForceOnTestCharge p q mode sources) =
  fieldMagnitude (fieldAt mode p sources) * Rabs q.
Proof.
  unfold computeForceOnTestCharge. cbv zeta. rewrite !fieldMagnitude_eq. cbn [x y z].
  cbn [mul RNumber].
  rewrite (Rmult_comm (x _) q), (Rmult_comm (y _) q), (Rmult_comm (z _) q).
  rewrite norm3_scale. ring.
Qed.

Lemma single_source_potentials (p : Pos) (s : Source) :
  computeElectricPotentialAtPoint p [s] =
    COULOMB_CONSTANT * value s /
    Rmax (distance (sceneToMeters p) (sceneToMeters (position s))) (1 / 100) /\
  computeGravitationalPotentialAtPoint p [s] =
    - (GRAVITATIONAL_CONSTANT * value s /
       Rmax (distance (sceneToMeters p) (sceneToMeters (position s))) (1 / 100)).
Proof.
  unfold computeElectricPotentialAtPoint, computeGravitationalPotentialAtPoint.
  cbv zeta. cbn [fold_left]. rewrite rMetersOf_eq.
  change (lit 0) with 0. cbn [add sub mul div RNumber]. split; lra.
Qed.

(** X7 -- the formulas of the textbook hold exactly from 0.1 m on: for one
    source of value [Q] at distance [r >= 0.1] m (one scene unit) from the
    point, the field has magnitude [K |Q| / r^2], the force on a test value
    [q] has magnitude [K |Q| |q| / r^2], and the potential is [k Q / r] in
    electric mode and [- G Q / r] in gravity mode; [r] is a tenth of the
    distance in scene units. *)
Theorem textbook_formulas_far (p : Pos) (s : Source) (q : R) (mode : FieldMode) :
  let r := distance (sceneToMeters p) (sceneToMeters (position s)) in
  1 / 10 <= r ->
  r = distance p (position s) / 10 /\
  fieldMagnitude (fieldAt mode p [s]) = modeConstant mode * Rabs (value s) / (r * r) /\
  fieldMagnitude (computeForceOnTestCharge p q mode [s]) =
    modeConstant mode * Rabs (value s) * Rabs q / (r * r) /\
  computeElectricPotentialAtPoint p [s] = COULOMB_CONSTANT * value s / r /\
  computeGravitationalPotentialAtPoint p [s] = - (GRAVITATIONAL_CONSTANT * value s / r).
Proof.
  cbv zeta. intros Hr.
  destruct (single_source_potentials p s) as [He Hg].
  rewrite force_magnitude, single_source_magnitude, He, Hg.
  rewrite clampedMagnitude_far by exact Hr.
  rewrite Rmax_left by lra.
  repeat split; try reflexivity.
  - rewrite distance_meters. lra.
  - field. lra.
Qed.

Lemma textbook_formulas_far_witness :
  fieldMagnitude (fieldAt electric (2, 0, 0) [unitCharge]) =
  COULOMB_CONSTANT * Rabs 1 / (2 / 10 * (2 / 10)).
Proof.
  assert (Hd : distance (sceneToMeters (2, 0, 0)) (sceneToMeters (position unitCharge)) = 2 / 10).
  { unfold unitCharge, sourceAt. cbn [position].
    rewrite distance_meters, distance_on_axis, Rabs_left; lra. }
  pose proof (@textbook_formulas_far (2, 0, 0) unitCharge 1 electric) as H.
  cbv zeta in H. rewrite Hd in H.
  destruct H as (_ & H & _); [lra|]. exact H.
Defined.

(** *** Gravity against electricity *)

Lemma unitVector_opposite (a b : Pos) :
  unitVector a b =
  (let '(u0, u1, u2) := unitVector b a in (- u0, - u1, - u2)).
Proof.
  rewrite !unitVector_eq. cbv zeta. rewrite (distance_sym b a).
  destruct a as [[a0 a1] a2], b as [[b0 b1] b2]. cbn [fst snd].
  apply triple_eq; field;
    (apply Rgt_not_eq; apply Rlt_le_trans with (1 / 10); [lra|apply Rmax_r]).
Qed.

Lemma COULOMB_CONSTANT_pos : 0 < COULOMB_CONSTANT.
Proof. rewrite COULOMB_CONSTANT_eq. lra. Qed.

Lemma gravitationalContribution_mirror (pm : Pos) (s : Source) :
  gravitationalContribution pm s =
  (let c := GRAVITATIONAL_CONSTANT / COULOMB_CONSTANT in
   let E := electricContribution pm s in
   {| x := - c * x E; y := - c * y E; z := - c * z E |}).
Proof.
  rewrite gravitationalContribution_eq, electricContribution_eq. cbv zeta.
  rewrite (distance_sym pm).
  set (d := distance (sceneToMeters (position s)) pm).
  assert (H1 : 0 < Rmax d (1 / 100)).
  { apply Rlt_le_trans with (1 / 100); [lra|apply Rmax_r]. }
  assert (H2 : 0 < Rmax d (1 / 10)).
  { apply Rlt_le_trans with (1 / 10); [lra|apply Rmax_r]. }
  pose proof COULOMB_CONSTANT_pos as Hk.
  apply vec_eq; cbn [x y z]; field; repeat split; apply Rgt_not_eq; assumption.
Qed.

Lemma fold_mirror (c : R) (e g : Source -> Vec) (sources : list Source) :
  (forall s, g s = {| x := c * x (e s); y := c * y (e s); z := c * z (e s) |}) ->
  forall accE accG : Vec,
    accG = {| x := c * x accE; y := c * y accE; z := c * z accE |} ->
    fold_left (fun G source => vadd G (g source)) sources accG =
    (let E := fold_left (fun E source => vadd E (e source)) sources accE in
     {| x := c * x E; y := c * y E; z := c * z E |}).
Proof.
  intros Hg. induction sources as [|s l IH]; intros accE accG Hacc; cbn [fold_left].
  - exact Hacc.
  - apply IH. rewrite Hacc, Hg. apply vec_eq; cbn; ring.
Qed.

Lemma fold_scalar_mirror (c : R) (e g : Source -> R) (sources : list Source) :
  (forall s, g s = c * e s) ->
  forall accE accG : R,
    accG = - c * accE ->
    fold_left (fun potential source => potential - g source) sources accG =
    - c * fold_left (fun potential source => potential + e source) sources accE.
Proof.
  intros Hg. induction sources as [|s l IH]; intros accE accG Hacc; cbn [fold_left].
  - exact Hacc.
  - apply IH. rewrite Hacc, Hg. ring.
Qed.

(** X8 -- the gravitational kernel is the electric one mirrored: for the
    same sources, read as masses instead of charges, the gravitational field
    at every point is the electric field times [- G / k], and so is the
    potential; a positive mass attracts where a positive charge repels. *)
Theorem gravity_mirrors_electric (p : Pos) (sources : list Source) :
  let c := GRAVITATIONAL_CONSTANT / COULOMB_CONSTANT in
  let E := computeElectricFieldAtPoint p sources in
  let G := computeGravitationalFieldAtPoint p sources in
  0 < c /\
  G = {| x := - c * x E; y := - c * y E; z := - c * z E |} /\
  computeGravitationalPotentialAtPoint p sources =
    - c * computeElectricPotentialAtPoint p sources.
Proof.
  cbv zeta. split; [|split].
  - rewrite GRAVITATIONAL_CONSTANT_eq, COULOMB_CONSTANT_eq. lra.
  - unfold computeGravitationalFieldAtPoint, computeElectricFieldAtPoint. cbv zeta.
    apply (@fold_mirror (- (GRAVITATIONAL_CONSTANT / COULOMB_CONSTANT))
             (electricContribution (sceneToMeters p))
             (gravitationalContribution (sceneToMeters p))).
    + intros s. apply gravitationalContribution_mirror.
    + apply vec_eq; cbn; change (lit 0) with 0; ring.
  - unfold computeGravitationalPotentialAtPoint, computeElectricPotentialAtPoint. cbv zeta.
    cbn [add sub RNumber].
    apply (@fold_scalar_mirror (GRAVITATIONAL_CONSTANT / COULOMB_CONSTANT)
             (fun source => (COULOMB_CONSTANT * value source /
                rMetersOf (sceneToMeters p) (sceneToMeters (position source)))%num)
             (fun source => (GRAVITATIONAL_CONSTANT * value source /
                rMetersOf (sceneToMeters p) (sceneToMeters (position source)))%num)).
    + intros s. cbn [mul div RNumber].
      pose proof COULOMB_CONSTANT_pos as Hk.
      pose proof (rMetersOf_floor (sceneToMeters p) (sceneToMeters (position s))) as Hr.
      field. split; apply Rgt_not_eq; lra.
    + change (lit 0) with 0. ring.
Qed.

(** *** Scaling the sources *)

Lemma fold_scaled (c : R) (e : Source -> Vec) (f : Source -> Source) (sources : list Source) :
  (forall s, e (f s) = {| x := c * x (e s); y := c * y (e s); z := c * z (e s) |}) ->
  forall acc' acc : Vec,
    acc' = {| x := c * x acc; y := c * y acc; z := c * z acc |} ->
    fold_left (fun E source => vadd E (e source)) (map f sources) acc' =
    (let E := fold_left (fun E source => vadd E (e source)) sources acc in
     {| x := c * x E; y := c * y E; z := c * z E |}).
Proof.
  intros He. induction sources as [|s l IH]; intros acc' acc Hacc; cbn [fold_left map].
  - exact Hacc.
  - apply IH. rewrite Hacc, He. apply vec_eq; cbn; ring.
Qed.

Lemma fold_scalar_scaled (c : R) (op : R -> R -> R) (e : Source -> R) (f : Source -> Source)
    (sources : list Source) :
  (forall a b, op (c * a) (c * b) = c * op a b) ->
  (forall s, e (f s) = c * e s) ->
  forall acc' acc : R,
    acc' = c * acc ->
    fold_left (fun potential source => op potential (e source)) (map f sources) acc' =
    c * fold_left (fun potential source => op potential (e source)) sources acc.
Proof.
  intros Hop He. induction sources as [|s l IH]; intros acc' acc Hacc; cbn [fold_left map].
  - exact Hacc.
  - apply IH. now rewrite Hacc, He, Hop.
Qed.

(** X9 -- the kernel is linear in the values of the sources: multiplying
    every value by [c] multiplies the field and both potentials at every
    point by [c], and the force on a test value [q] becomes the force the
    original sources exert on [c * q]. *)
Theorem kernel_linear_in_values (c q : R) (mode : FieldMode) (p : Pos)
    (sources : list Source) :
  let scaled := scaleValues c sources in
  let F := fieldAt mode p sources in
  fieldAt mode p scaled = {| x := c * x F; y := c * y F; z := c * z F |} /\
  computeElectricPotentialAtPoint p scaled = c * computeElectricPotentialAtPoint p sources /\
  computeGravitationalPotentialAtPoint p scaled =
    c * computeGravitationalPotentialAtPoint p sources /\
  computeForceOnTestCharge p q mode scaled = computeForceOnTestCharge p (c * q) mode sources.
Proof.
  cbv zeta.
  assert (HF : fieldAt mode p (scaleValues c sources) =
               {| x := c * x (fieldAt mode p sources);
                  y := c * y (fieldAt mode p sources);
                  z := c * z (fieldAt mode p sources) |}).
  { unfold scaleValues.
    destruct mode; cbn [fieldAt];
      unfold computeElectricFieldAtPoint, computeGravitationalFieldAtPoint; cbv zeta.
    - apply (@fold_scaled c (electricContribution (sceneToMeters p))).
      + intros s. rewrite !electricContribution_eq. cbv zeta. cbn [position value].
        apply vec_eq; cbn [x y z]; unfold Rdiv; ring.
      + apply vec_eq; cbn; change (lit 0) with 0; ring.
    - apply (@fold_scaled c (gravitationalContribution (sceneToMeters p))).
      + intros s. rewrite !gravitationalContribution_eq. cbv zeta. cbn [position value].
        apply vec_eq; cbn [x y z]; unfold Rdiv; ring.
      + apply vec_eq; cbn; change (lit 0) with 0; ring. }
  split; [exact HF|]. split; [|split].
  - unfold computeElectricPotentialAtPoint, scaleValues. cbv zeta. cbn [add RNumber].
    apply (@fold_scalar_scaled c Rplus
             (fun source => (COULOMB_CONSTANT * value source /
                rMetersOf (sceneToMeters p) (sceneToMeters (position source)))%num)).
    + intros; ring.
    + intros s. cbn [position value mul div RNumber]. unfold Rdiv. ring.
    + change (lit 0) with 0. ring.
  - unfold computeGravitationalPotentialAtPoint, scaleValues. cbv zeta. cbn [sub RNumber].
    apply (@fold_scalar_scaled c Rminus
             (fun source => (GRAVITATIONAL_CONSTANT * value source /
                rMetersOf (sceneToMeters p) (sceneToMeters (position source)))%num)).
    + intros; ring.
    + intros s. cbn [position value mul div RNumber]. unfold Rdiv. ring.
    + change (lit 0) with 0. ring.
  - unfold computeForceOnTestCharge. cbv zeta. rewrite HF.
    apply vec_eq; cbn [x y z mul RNumber]; ring.
Qed.

(** *** A source at the query point *)

Lemma distance_self (a : Pos) : distance a a = 0.
Proof.
  rewrite distance_eq. unfold norm3.
  replace (_ + _ + _) with 0 by ring. apply sqrt_0.
Qed.

Lemma contribution_at_source (s : Source) :
  electricContribution (sceneToMeters (position s)) s = vzero /\
  gravitationalContribution (sceneToMeters (position s)) s = vzero.
Proof.
  rewrite electricContribution_eq, gravitationalContribution_eq. cbv zeta.
  rewrite distance_self, !Rmax_right by lra.
  split; apply vec_eq; cbn [x y z vzero]; change (lit 0) with 0; field.
Qed.

(** X10 -- a source is invisible at its own position: at the position of a
    source, the field of a list of sources is the field of the list without
    that source (its own contribution is the zero vector there, not an
    infinite or undefined one), while the source adds to the potential
    there its value over the floor of 0.01 m. *)
Theorem source_invisible_at_own_position (s : Source) (A B : list Source)
    (mode : FieldMode) :
  fieldAt mode (position s) (A ++ s :: B) = fieldAt mode (position s) (A ++ B) /\
  computeElectricPotentialAtPoint (position s) (A ++ s :: B) =
    computeElectricPotentialAtPoint (position s) (A ++ B) +
    COULOMB_CONSTANT * value s / (1 / 100) /\
  computeGravitationalPotentialAtPoint (position s) (A ++ s :: B) =
    computeGravitationalPotentialAtPoint (position s) (A ++ B) -
    GRAVITATIONAL_CONSTANT * value s / (1 / 100).
Proof.
  destruct (contribution_at_source s) as [He Hg].
  split; [|split].
  - destruct mode; cbn [fieldAt];
      unfold computeElectricFieldAtPoint, computeGravitationalFieldAtPoint; cbv zeta;
      rewrite !fold_vadd_app; cbn [fold_left];
      rewrite (fold_vadd _ B (vadd vzero _)), ?He, ?Hg, !vadd_zero_l; reflexivity.
  - change (s :: B) with ([s] ++ B).
    rewrite !electric_potential_app.
    destruct (single_source_potentials (position s) s) as [-> _].
    rewrite distance_self, Rmax_right by lra. lra.
  - change (s :: B) with ([s] ++ B).
    rewrite !gravitational_potential_app.
    destruct (single_source_potentials (position s) s) as [_ ->].
    rewrite distance_self, Rmax_right by lra. lra.
Qed.

(** *** Scene units and meters *)

(** X11 -- the two conversions of units.ts are inverse to each other, and a
    distance in meters is [METERS_PER_SCENE_UNIT] = 0.1 times the distance in
    scene units (exact arithmetic). *)
Theorem units_round_trip (p a b : Pos) :
  metersToScene (sceneToMeters p) = p /\
  sceneToMeters (metersToScene p) = p /\
  distance (sceneToMeters a) (sceneToMeters b) = METERS_PER_SCENE_UNIT * distance a b.
Proof.
  split; [|split].
  - destruct p as [[p0 p1] p2]. unfold metersToScene, sceneToMeters.
    rewrite METERS_PER_SCENE_UNIT_eq. cbn [mul div RNumber]. apply triple_eq; field.
  - destruct p as [[p0 p1] p2]. unfold metersToScene, sceneToMeters.
    rewrite METERS_PER_SCENE_UNIT_eq. cbn [mul div RNumber]. apply triple_eq; field.
  - rewrite METERS_PER_SCENE_UNIT_eq. apply distance_meters.
Qed.

(** *** The solver where the unit vectors are unit vectors *)

Lemma distance_onLine (p1 p2 : Pos) (t : R) :
  distance (onLine p1 p2 t) p1 = Rabs t * distance p1 p2 /\
  distance (onLine p1 p2 t) p2 = Rabs (1 - t) * distance p1 p2.
Proof.
  destruct p1 as [[a0 a1] a2], p2 as [[b0 b1] b2]. unfold onLine.
  rewrite !distance_eq. cbn [fst snd]. split.
  - replace (a0 - (a0 + t * (b0 - a0))) with (- t * (b0 - a0)) by ring.
    replace (a1 - (a1 + t * (b1 - a1))) with (- t * (b1 - a1)) by ring.
    replace (a2 - (a2 + t * (b2 - a2))) with (- t * (b2 - a2)) by ring.
    now rewrite norm3_scale, Rabs_Ropp.
  - replace (b0 - (a0 + t * (b0 - a0))) with ((1 - t) * (b0 - a0)) by ring.
    replace (b1 - (a1 + t * (b1 - a1))) with ((1 - t) * (b1 - a1)) by ring.
    replace (b2 - (a2 + t * (b2 - a2))) with ((1 - t) * (b2 - a2)) by ring.
    now rewrite norm3_scale.
Qed.

(** The field of two sources at a point of the line through them, at least
    one scene unit from both. *)
Lemma field_on_line (q1 q2 : Source) (t : R) :
  let D := distance (position q1) (position q2) in
  let pos := onLine (position q1) (position q2) t in
  1 <= Rabs t * D -> 1 <= Rabs (1 - t) * D ->
  computeElectricFieldAtPoint pos [q1; q2] =
    (let w := COULOMB_CONSTANT * 100 / (D * D * D) *
              (value q1 * t / (Rabs t * Rabs t * Rabs t) -
               value q2 * (1 - t) / (Rabs (1 - t) * Rabs (1 - t) * Rabs (1 - t))) in
     {| x := w * (fst (fst (position q2)) - fst (fst (position q1)));
        y := w * (snd (fst (position q2)) - snd (fst (position q1)));
        z := w * (snd (position q2) - snd (position q1)) |}).
Proof.
  intros D pos H1 H2.
  destruct (distance_onLine (position q1) (position q2) t) as [Hd1 Hd2].
  fold D pos in Hd1, Hd2.
  assert (HD : 0 <= D) by apply distance_nonneg.
  assert (Ht1 : 0 <= Rabs t) by apply Rabs_pos.
  assert (Ht2 : 0 <= Rabs (1 - t)) by apply Rabs_pos.
  assert (HD0 : 0 < D) by nra.
  assert (Ht10 : 0 < Rabs t) by nra.
  assert (Ht20 : 0 < Rabs (1 - t)) by nra.
  unfold computeElectricFieldAtPoint. cbv zeta. cbn [fold_left].
  rewrite vadd_zero_l, !electricContribution_eq. cbv zeta.
  rewrite !distance_meters, Hd1, Hd2.
  rewrite !Rmax_left by nra.
  unfold pos.
  destruct (position q1) as [[a0 a1] a2]. destruct (position q2) as [[b0 b1] b2].
  unfold onLine. rewrite !sceneToMeters_eq. cbn [fst snd].
  apply vec_eq; cbn [x y z vadd add RNumber]; field; repeat split; lra.
Qed.

Lemma sqrt_abs_square (v : R) : R_sqrt.sqrt (Rabs v) * R_sqrt.sqrt (Rabs v) = Rabs v.
Proof. apply sqrt_sqrt, Rabs_pos. Qed.

Lemma sqrt_abs_pos (v : R) : v <> 0 -> 0 < R_sqrt.sqrt (Rabs v).
Proof. intros Hv. apply sqrt_lt_R0. now apply Rabs_pos_lt. Qed.

Lemma vec_zero (w a b c : R) :
  w = 0 -> {| x := w * a; y := w * b; z := w * c |} = vzero (T:=R).
Proof. intros ->. apply vec_eq; cbn; change (lit 0) with 0; ring. Qed.

(** The balance point of a like-signed pair: the ratio, the field there,
    and the closed form. *)
Lemma like_pair_ratio (v1 v2 : R) :
  let s1 := R_sqrt.sqrt (Rabs v1) in
  let s2 := R_sqrt.sqrt (Rabs v2) in
  0 < v1 * v2 -> 0 < s1 /\ 0 < s2 /\ 0 < s1 / (s1 + s2) < 1.
Proof.
  intros s1 s2 Hlike.
  assert (Hv1 : v1 <> 0) by (intros E; rewrite E in Hlike; lra).
  assert (Hv2 : v2 <> 0) by (intros E; rewrite E in Hlike; lra).
  pose proof (sqrt_abs_pos Hv1) as Hs1. pose proof (sqrt_abs_pos Hv2) as Hs2.
  fold s1 in Hs1. fold s2 in Hs2.
  split; [exact Hs1|]. split; [exact Hs2|]. split.
  - apply Rdiv_lt_0_compat; lra.
  - apply Rmult_lt_reg_r with (s1 + s2); [lra|]. unfold Rdiv.
    rewrite Rmult_assoc, Rinv_l by lra. lra.
Qed.

Lemma like_pair_field_zero (q1 q2 : Source) :
  let D := distance (position q1) (position q2) in
  let s1 := R_sqrt.sqrt (Rabs (value q1)) in
  let s2 := R_sqrt.sqrt (Rabs (value q2)) in
  let t := s1 / (s1 + s2) in
  0 < value q1 * value q2 -> 1 <= t * D -> 1 <= (1 - t) * D ->
  computeElectricFieldAtPoint (onLine (position q1) (position q2) t) [q1; q2] = vzero.
Proof.
  intros D s1 s2 t Hlike H1 H2.
  destruct (@like_pair_ratio (value q1) (value q2) Hlike) as (Hs1 & Hs2 & Ht).
  fold s1 s2 t in Hs1, Hs2, Ht.
  rewrite field_on_line.
  - cbv zeta. apply vec_zero. fold D.
    rewrite (Rabs_pos_eq t), (Rabs_pos_eq (1 - t)) by lra.
    pose proof (sqrt_abs_square (value q1)) as Hq1.
    pose proof (sqrt_abs_square (value q2)) as Hq2.
    fold s1 in Hq1. fold s2 in Hq2.
    assert (HD : 0 <= D) by apply distance_nonneg.
    assert (HD2 : 2 <= D) by nra.
    assert (Hv1 : value q1 <> 0) by (intros E; rewrite E in Hlike; lra).
    assert (Hv2 : value q2 <> 0) by (intros E; rewrite E in Hlike; lra).
    assert (Hcases : (value q1 = s1 * s1 /\ value q2 = s2 * s2) \/
                     (value q1 = - (s1 * s1) /\ value q2 = - (s2 * s2))).
    { destruct (Rlt_dec 0 (value q1)) as [Hp|Hn].
      - left. rewrite Hq1, Hq2, !Rabs_pos_eq by nra. split; reflexivity.
      - right. rewrite Hq1, Hq2, !Rabs_left by nra. split; ring. }
    unfold t.
    destruct Hcases as [[-> ->]|[-> ->]]; field; repeat split; lra.
  - fold D. rewrite Rabs_pos_eq by lra. exact H1.
  - fold D. rewrite Rabs_pos_eq by lra. exact H2.
Qed.

Lemma like_pair_closedForm (q1 q2 : Source) :
  let D := distance (position q1) (position q2) in
  let s1 := R_sqrt.sqrt (Rabs (value q1)) in
  let s2 := R_sqrt.sqrt (Rabs (value q2)) in
  0 < value q1 * value q2 -> 1 <= D ->
  closedForm q1 q2 =
    Some (onLine (sceneToMeters (position q1)) (sceneToMeters (position q2))
            (s1 / (s1 + s2))).
Proof.
  intros D s1 s2 Hlike HD.
  destruct (@like_pair_ratio (value q1) (value q2) Hlike) as (Hs1 & Hs2 & _).
  fold s1 s2 in Hs1, Hs2.
  assert (Hd : distance (sceneToMeters (position q1)) (sceneToMeters (position q2)) = D / 10).
  { rewrite distance_meters. fold D. lra. }
  rewrite closedForm_like by (rewrite ?Hd; lra).
  cbv zeta. rewrite unitVector_eq. cbv zeta. rewrite Hd.
  rewrite Rmax_left by lra. fold s1 s2.
  destruct (position q1) as [[a0 a1] a2]. destruct (position q2) as [[b0 b1] b2].
  rewrite !sceneToMeters_eq. unfold onLine. cbn [fst snd].
  apply f_equal, triple_eq; field; lra.
Qed.

(** X12 -- the closed-form estimate of the solver for like-signed
    charges is the balance point; the refinement that follows it does not
    keep it in doubles.

    In exact arithmetic, whenever the balance point is at least 0.1 m (one
    scene unit) from both charges: the estimate divides the segment from
    source 1 to source 2 in the ratio [sqrt|q1| : sqrt|q2|], and the
    electric field the kernel computes at that point is the zero vector.

    In doubles, for the charges 1 and 4 at [x = 0] and [x = 9]: the estimate
    is [0.3] m, right up to rounding; the field the kernel computes at the
    scene point of the estimate, [2.9999999999999996], is the rounding
    residual [2^-15], which is not below the tolerance [1e-15]; the ten
    passes of the refinement then move the point, and
    [findEquilibriumPoint] returns [x = -1420.4975520902917], not 3. *)
Theorem equilibrium_like_exact (q1 q2 : Source) :
  let D := distance (position q1) (position q2) in
  let s1 := R_sqrt.sqrt (Rabs (value q1)) in
  let s2 := R_sqrt.sqrt (Rabs (value q2)) in
  let t := s1 / (s1 + s2) in
  let pos := onLine (position q1) (position q2) t in
  (0 < value q1 * value q2 -> 1 <= t * D -> 1 <= (1 - t) * D ->
   closedForm q1 q2 =
     Some (onLine (sceneToMeters (position q1)) (sceneToMeters (position q2)) t) /\
   onLine (sceneToMeters (position q1)) (sceneToMeters (position q2)) t = sceneToMeters pos /\
   computeElectricFieldAtPoint pos [q1; q2] = vzero /\
   0 < t < 1 /\
   distance pos (position q1) = t * D /\ distance pos (position q2) = (1 - t) * D) /\
  (let a := source64 0 0 0 1 in
   let b := source64 9 0 0 4 in
   closedForm a b = Some (0x1.3333333333333p-2, 0, 0)%float /\
   div 0x1.3333333333333p-2%float METERS_PER_SCENE_UNIT = 0x1.7ffffffffffffp+1%float /\
   computeElectricFieldAtPoint (0x1.7ffffffffffffp+1, 0, 0)%float [a; b] =
     {| x := 0x1p-15%float; y := 0%float; z := 0%float |} /\
   ltb 0x1p-15%float TOLERANCE = false /\
   findEquilibriumPoint [a; b] electric = Some (-0x1.631fd7e4b8f7p+10, 0, 0)%float).
Proof.
  intros D s1 s2 t pos. split; [|vm_compute; repeat split; reflexivity].
  intros Hlike H1 H2.
  destruct (@like_pair_ratio (value q1) (value q2) Hlike) as (Hs1 & Hs2 & Ht).
  fold s1 s2 t in Hs1, Hs2, Ht.
  assert (HD : 0 <= D) by apply distance_nonneg.
  assert (HD2 : 2 <= D) by nra.
  pose proof (like_pair_field_zero q1 q2 Hlike H1 H2) as Hz. fold s1 s2 t pos in Hz.
  destruct (distance_onLine (position q1) (position q2) t) as [Hd1 Hd2].
  fold D pos in Hd1, Hd2.
  rewrite (Rabs_pos_eq t) in Hd1 by lra. rewrite (Rabs_pos_eq (1 - t)) in Hd2 by lra.
  split; [|split; [|split; [exact Hz|split; [exact Ht|split; assumption]]]].
  - apply like_pair_closedForm; [exact Hlike|fold D; lra].
  - unfold pos. destruct (position q1) as [[a0 a1] a2]. destruct (position q2) as [[b0 b1] b2].
    unfold onLine. rewrite !sceneToMeters_eq. apply triple_eq; ring.
Qed.

Lemma equilibrium_like_exact_witness :
  closedForm (sourceAt 0 1) (sourceAt 9 4) = Some (3 / 10, 0, 0) /\
  computeElectricFieldAtPoint (3, 0, 0) [sourceAt 0 1; sourceAt 9 4] = vzero.
Proof.
  assert (H1 : R_sqrt.sqrt (Rabs 1) = 1) by (rewrite Rabs_R1; apply sqrt_1).
  assert (H4 : R_sqrt.sqrt (Rabs 4) = 2).
  { rewrite Rabs_pos_eq by lra. replace 4 with (2 * 2) by lra. apply sqrt_square. lra. }
  assert (HD : distance (position (sourceAt 0 1)) (position (sourceAt 9 4)) = 9).
  { unfold sourceAt. cbn [position]. rewrite distance_on_axis, Rabs_pos_eq; lra. }
  pose proof (proj1 (@equilibrium_like_exact (sourceAt 0 1) (sourceAt 9 4))) as H.
  cbv zeta in H. rewrite HD in H. unfold sourceAt in H. cbn [value position] in H.
  rewrite H1, H4 in H.
  destruct H as (Hcf & _ & Hz & _); [lra|lra|lra|].
  unfold sourceAt. split.
  - rewrite Hcf. rewrite !sceneToMeters_eq. unfold onLine. apply f_equal, triple_eq; lra.
  - rewrite <- Hz. f_equal. unfold onLine. apply triple_eq; lra.
Defined.

Lemma opposite_not_like (v1 v2 : R) :
  v1 * v2 < 0 -> ltb (lit 0) (sign v1 * sign v2)%num = false.
Proof.
  intros H. apply ltb_false. change (lit 0) with 0. cbn [mul RNumber].
  destruct (Rle_dec (sign v1 * sign v2) 0) as [Hle|Hgt]; [exact Hle|].
  exfalso. apply Rnot_le_lt in Hgt. apply -> like_signed_iff in Hgt. lra.
Qed.

Lemma closedForm_opposite (q1 q2 : Source) :
  let p1Meters := sceneToMeters (position q1) in
  let p2Meters := sceneToMeters (position q2) in
  let d := distance p1Meters p2Meters in
  let s1 := R_sqrt.sqrt (Rabs (value q1)) in
  let s2 := R_sqrt.sqrt (Rabs (value q2)) in
  value q1 * value q2 < 0 -> Rabs (value q1) <> Rabs (value q2) -> 1 / 10 <= d ->
  closedForm q1 q2 = Some (onLine p1Meters p2Meters (s1 / (s1 - s2))).
Proof.
  intros p1Meters p2Meters d s1 s2 Hopp Hne Hd. unfold closedForm.
  fold p1Meters p2Meters d. rewrite floor_meters_eq.
  destruct (ltb d (1 / 100)) eqn:Hlt; [apply ltb_true in Hlt; lra|].
  rewrite (opposite_not_like Hopp).
  rewrite unitVector_eq. cbv zeta. fold d. rewrite Rmax_left by lra.
  cbn [abs sqrt sub mul div add ltb leb RNumber]. fold s1 s2.
  destruct p1Meters as [[a0 a1] a2]. destruct p2Meters as [[b0 b1] b2].
  cbn [fst snd]. unfold onLine.
  assert (H1 : 0 <= Rabs (value q1)) by apply Rabs_pos.
  assert (H2 : 0 <= Rabs (value q2)) by apply Rabs_pos.
  destruct (Rltb (Rabs (value q1)) (Rabs (value q2))) eqn:Hw.
  - apply (ltb_true (Rabs (value q1)) (Rabs (value q2))) in Hw.
    assert (Hs : s1 < s2) by (apply sqrt_lt_1_alt; lra).
    fold s1 s2. destruct (Rleb (s2 - s1) (lit 0)) eqn:Hden.
    + apply (leb_true (s2 - s1) 0) in Hden. lra.
    + apply f_equal, triple_eq; field; lra.
  - apply (ltb_false (Rabs (value q1)) (Rabs (value q2))) in Hw.
    assert (Hs : s2 < s1) by (apply sqrt_lt_1_alt; lra).
    fold s1 s2. destruct (Rleb (s1 - s2) (lit 0)) eqn:Hden.
    + apply (leb_true (s1 - s2) 0) in Hden. lra.
    + apply f_equal, triple_eq; field; lra.
Qed.

(** X13 -- the closed-form estimate of the solver for opposite-signed
    charges of different magnitudes is the balance point; the refinement
    that follows it does not keep it in doubles.

    In exact arithmetic, whenever the sources are at least one scene unit
    (0.1 m) apart and the balance point is at least one scene unit from
    both: the estimate lies on the line through the sources, outside the
    segment, on the side of the weaker charge, and the electric field the
    kernel computes at that point is the zero vector.

    In doubles, for the charges 9 and -1 at [x = 0] and [x = 4], whose
    balance point is [x = 6]: the estimate is [0.6000000000000001] m, right
    up to rounding; the field the kernel computes at its scene point is a
    rounding residual that is not below the tolerance [1e-15]; the ten
    passes of the refinement then move the point, and
    [findEquilibriumPoint] returns [x = -1919.6661417504852]. *)
Theorem equilibrium_opposite_exact (q1 q2 : Source) :
  let D := distance (position q1) (position q2) in
  let s1 := R_sqrt.sqrt (Rabs (value q1)) in
  let s2 := R_sqrt.sqrt (Rabs (value q2)) in
  let t := s1 / (s1 - s2) in
  let pos := onLine (position q1) (position q2) t in
  (value q1 * value q2 < 0 -> Rabs (value q1) <> Rabs (value q2) ->
   1 <= D -> 1 <= Rabs t * D -> 1 <= Rabs (1 - t) * D ->
   closedForm q1 q2 =
     Some (onLine (sceneToMeters (position q1)) (sceneToMeters (position q2)) t) /\
   onLine (sceneToMeters (position q1)) (sceneToMeters (position q2)) t = sceneToMeters pos /\
   computeElectricFieldAtPoint pos [q1; q2] = vzero /\
   (Rabs (value q1) < Rabs (value q2) -> t < 0) /\
   (Rabs (value q2) < Rabs (value q1) -> 1 < t) /\
   distance pos (position q1) = Rabs t * D /\
   distance pos (position q2) = Rabs (1 - t) * D) /\
  (let a := source64 0 0 0 9 in
   let b := source64 4 0 0 (-1) in
   closedForm a b = Some (0x1.3333333333334p-1, 0, 0)%float /\
   div 0x1.3333333333334p-1%float METERS_PER_SCENE_UNIT = 0x1.8000000000001p+2%float /\
   computeElectricFieldAtPoint (0x1.8000000000001p+2, 0, 0)%float [a; b] =
     {| x := 0x1.8p-14%float; y := 0%float; z := 0%float |} /\
   ltb 0x1.8p-14%float TOLERANCE = false /\
   findEquilibriumPoint [a; b] electric = Some (-0x1.dfeaa21102356p+10, 0, 0)%float).
Proof.
  intros D s1 s2 t pos. split; [|vm_compute; repeat split; reflexivity].
  intros Hopp Hne HD H1 H2.
  assert (Hv1 : value q1 <> 0) by (intros E; rewrite E in Hopp; lra).
  assert (Hv2 : value q2 <> 0) by (intros E; rewrite E in Hopp; lra).
  pose proof (sqrt_abs_pos Hv1) as Hs1. pose proof (sqrt_abs_pos Hv2) as Hs2.
  fold s1 in Hs1. fold s2 in Hs2.
  pose proof (sqrt_abs_square (value q1)) as Hq1.
  pose proof (sqrt_abs_square (value q2)) as Hq2.
  fold s1 in Hq1. fold s2 in Hq2.
  assert (Hneg : Rabs (value q1) < Rabs (value q2) -> s1 < s2 /\ t < 0).
  { intros Hw. assert (Hs : s1 < s2).
    { apply sqrt_lt_1_alt. split; [apply Rabs_pos|exact Hw]. }
    split; [exact Hs|]. unfold t.
    replace (s1 / (s1 - s2)) with (- (s1 / (s2 - s1))) by (field; lra).
    apply Ropp_lt_gt_0_contravar. apply Rdiv_lt_0_compat; lra. }
  assert (Hpos : Rabs (value q2) < Rabs (value q1) -> s2 < s1 /\ 1 < t).
  { intros Hw. assert (Hs : s2 < s1).
    { apply sqrt_lt_1_alt. split; [apply Rabs_pos|exact Hw]. }
    split; [exact Hs|]. unfold t.
    apply Rmult_lt_reg_r with (s1 - s2); [lra|]. unfold Rdiv.
    rewrite Rmult_assoc, Rinv_l by lra. lra. }
  assert (Hcases : (value q1 = s1 * s1 /\ value q2 = - (s2 * s2)) \/
                   (value q1 = - (s1 * s1) /\ value q2 = s2 * s2)).
  { destruct (Rlt_dec 0 (value q1)) as [Hp|Hn].
    - left. rewrite Hq1, Hq2, Rabs_pos_eq, Rabs_left by nra. split; ring.
    - right. rewrite Hq1, Hq2, Rabs_left, Rabs_pos_eq by nra. split; ring. }
  assert (Hz : computeElectricFieldAtPoint pos [q1; q2] = vzero).
  { unfold pos. rewrite field_on_line by assumption.
    cbv zeta. apply vec_zero. fold D.
    destruct (Rlt_dec (Rabs (value q1)) (Rabs (value q2))) as [Hw|Hw].
    - destruct (Hneg Hw) as [Hs Ht].
      rewrite (Rabs_left t), (Rabs_pos_eq (1 - t)) by lra.
      unfold t in *.
      destruct Hcases as [[-> ->]|[-> ->]]; field; repeat split; lra.
    - assert (Hw' : Rabs (value q2) < Rabs (value q1)) by lra.
      destruct (Hpos Hw') as [Hs Ht].
      rewrite (Rabs_pos_eq t), (Rabs_left (1 - t)) by lra.
      unfold t in *.
      destruct Hcases as [[-> ->]|[-> ->]]; field; repeat split; lra. }
  destruct (distance_onLine (position q1) (position q2) t) as [Hd1 Hd2].
  fold D pos in Hd1, Hd2.
  split; [|split; [|split; [exact Hz|split; [apply Hneg|split; [apply Hpos|split;
    assumption]]]]].
  - apply closedForm_opposite; [exact Hopp|exact Hne|].
    rewrite distance_meters. fold D. lra.
  - unfold pos. destruct (position q1) as [[a0 a1] a2]. destruct (position q2) as [[b0 b1] b2].
    unfold onLine. rewrite !sceneToMeters_eq. apply triple_eq; ring.
Qed.

Lemma equilibrium_opposite_exact_witness :
  closedForm (sourceAt 0 9) (sourceAt 4 (-1)) = Some (6 / 10, 0, 0) /\
  computeElectricFieldAtPoint (6, 0, 0) [sourceAt 0 9; sourceAt 4 (-1)] = vzero.
Proof.
  assert (H9 : R_sqrt.sqrt (Rabs 9) = 3).
  { rewrite Rabs_pos_eq by lra. replace 9 with (3 * 3) by lra. apply sqrt_square. lra. }
  assert (H1 : R_sqrt.sqrt (Rabs (-1)) = 1).
  { rewrite Rabs_left by lra. replace (- -1) with 1 by lra. apply sqrt_1. }
  assert (HD : distance (position (sourceAt 0 9)) (position (sourceAt 4 (-1))) = 4).
  { unfold sourceAt. cbn [position]. rewrite distance_on_axis, Rabs_pos_eq; lra. }
  pose proof (proj1 (@equilibrium_opposite_exact (sourceAt 0 9) (sourceAt 4 (-1)))) as H.
  cbv zeta in H. rewrite HD in H. unfold sourceAt in H. cbn [value position] in H.
  rewrite H9, H1 in H.
  replace (3 / (3 - 1)) with (3 / 2) in H by lra.
  destruct H as (Hcf & _ & Hz & _).
  - lra.
  - rewrite (Rabs_pos_eq 9), (Rabs_left (-1)) by lra. lra.
  - lra.
  - rewrite Rabs_pos_eq; lra.
  - rewrite Rabs_left; lra.
  - unfold sourceAt. split.
    + rewrite Hcf. rewrite !sceneToMeters_eq. unfold onLine. apply f_equal, triple_eq; lra.
    + rewrite <- Hz. f_equal. unfold onLine. apply triple_eq; lra.
Defined.

(** *** The refinement loop of the solver *)

Lemma TOLERANCE_eq : TOLERANCE = 1 / 1000000000000000.
Proof. reflexivity. Qed.

Lemma refine_pass (iters : nat) (sources : list Source) (pos : Pos) :
  let E := computeElectricFieldAtPoint pos sources in
  refine (S iters) sources pos =
    if Rlt_dec (fieldMagnitude E) (1 / 1000000000000000) then pos
    else refine iters sources
           (fst (fst pos) - x E / 100000, snd (fst pos) - y E / 100000,
            snd pos - z E / 100000).
Proof.
  intros E. cbn [refine]. fold E. rewrite TOLERANCE_eq.
  cbn [ltb RNumber]. unfold Rltb at 1.
  destruct (Rlt_dec (fieldMagnitude E) (1 / 1000000000000000)) as [Hlt|Hge];
    [reflexivity|].
  apply Rnot_lt_le in Hge.
  assert (H20 : Rltb (fieldMagnitude E) (e_neg 1 20) = false).
  { apply (ltb_false (fieldMagnitude E) (e_neg 1 20)). rewrite e_neg_eq.
    change (10 ^ 20)%Z with 100000000000000000000%Z. lra. }
  rewrite H20. destruct pos as [[e0 e1] e2]. cbn [fst snd].
  rewrite METERS_PER_SCENE_UNIT_eq, e_neg_eq. change (10 ^ 6)%Z with 1000000%Z.
  cbn [add mul div opp RNumber].
  f_equal. apply triple_eq; field; lra.
Qed.

(** X29 -- the refinement of the solver is a fixed iteration: a pass
    returns the point when the field there is below [1e-15], and otherwise
    replaces the point [p] by [p - E(p) / 100000] (scene units, [E] in
    N/C), that is, it steps against the field by [1e-5 |E|]; the second
    guard of the loop, [fieldMag < 1e-20], never fires; after ten passes
    the loop returns what it has. *)
Theorem refine_is_fixed_iteration (iters : nat) (sources : list Source) (pos : Pos) :
  let E := computeElectricFieldAtPoint pos sources in
  let next := (fst (fst pos) - x E / 100000, snd (fst pos) - y E / 100000,
               snd pos - z E / 100000) in
  refine 0 sources pos = pos /\
  (fieldMagnitude E < TOLERANCE -> refine (S iters) sources pos = pos) /\
  (TOLERANCE <= fieldMagnitude E ->
   refine (S iters) sources pos = refine iters sources next /\
   distance pos next = fieldMagnitude E / 100000 /\
   ltb (fieldMagnitude E) (e_neg 1 20) = false) /\
  MAX_ITERATIONS = 10%nat.
Proof.
  cbv zeta. rewrite TOLERANCE_eq, refine_pass. cbv zeta.
  split; [reflexivity|]. split; [|split; [|reflexivity]].
  - intros Hlt. destruct (Rlt_dec _ _); [reflexivity|lra].
  - intros Hge. destruct (Rlt_dec _ _) as [Hlt|_]; [lra|].
    split; [reflexivity|]. split.
    + rewrite distance_eq. cbn [fst snd].
      set (E := computeElectricFieldAtPoint pos sources) in *.
      replace (fst (fst pos) - x E / 100000 - fst (fst pos)) with (- / 100000 * x E)
        by (field; lra).
      replace (snd (fst pos) - y E / 100000 - snd (fst pos)) with (- / 100000 * y E)
        by (field; lra).
      replace (snd pos - z E / 100000 - snd pos) with (- / 100000 * z E) by (field; lra).
      rewrite norm3_scale, <- fieldMagnitude_eq, Rabs_left by lra. field.
    + apply ltb_false. rewrite e_neg_eq.
      change (10 ^ 20)%Z with 100000000000000000000%Z. lra.
Qed.

Lemma pair_field_on_axis (Q a x0 : R) :
  Rabs x0 + 1 <= a ->
  computeElectricFieldAtPoint (x0, 0, 0) [sourceAt (- a) Q; sourceAt a Q] =
    {| x := 100 * COULOMB_CONSTANT * Q *
            (1 / ((x0 + a) * (x0 + a)) - 1 / ((a - x0) * (a - x0)));
       y := 0; z := 0 |}.
Proof.
  intros Ha.
  assert (Hx : - a + 1 <= x0 <= a - 1).
  { split; [pose proof (Rle_abs (- x0)); rewrite Rabs_Ropp in *; lra|
            pose proof (Rle_abs x0); lra]. }
  unfold computeElectricFieldAtPoint. cbv zeta. cbn [fold_left].
  rewrite vadd_zero_l, !electricContribution_eq. cbv zeta.
  unfold sourceAt. cbn [position value].
  rewrite !distance_meters, !distance_on_axis.
  rewrite (Rabs_left (- a - x0)), (Rabs_pos_eq (a - x0)) by lra.
  rewrite !sceneToMeters_eq. cbn [fst snd].
  rewrite !Rmax_left by lra.
  apply vec_eq; cbn [x y z vadd add RNumber]; field; lra.
Qed.

(** X30 -- a pass of the refinement steps against the field, by
    [|E| / 100000] scene units whatever the distance to the balance point.
    For charges [Q] at [(-a, 0, 0)] and [(a, 0, 0)], whose balance point is
    the origin, and a point [(x0, 0, 0)] with [x0 > 0] at least one scene
    unit from both: the field at the point lies on the axis, points to the
    origin for [Q > 0] and away from it for [Q < 0]; a pass that moves at
    all takes the point to [x0 - Ex / 100000], a move of [|Ex| / 100000]: to
    the right, away from the balance point, for [Q > 0]; to the left for
    [Q < 0], and beyond the balance point as soon as [|Ex| / 100000]
    exceeds [x0]. *)
Theorem refinement_steps_against_field (Q a x0 : R) :
  0 < x0 -> x0 + 1 <= a ->
  let sources := [sourceAt (- a) Q; sourceAt a Q] in
  let E := computeElectricFieldAtPoint (x0, 0, 0) sources in
  let x1 := x0 - x E / 100000 in
  computeElectricFieldAtPoint origin sources = vzero /\
  x E = 100 * COULOMB_CONSTANT * Q *
        (1 / ((x0 + a) * (x0 + a)) - 1 / ((a - x0) * (a - x0))) /\
  y E = 0 /\ z E = 0 /\
  (0 < Q -> x E < 0) /\ (Q < 0 -> 0 < x E) /\
  (TOLERANCE <= fieldMagnitude E ->
   refine 1 sources (x0, 0, 0) = (x1, 0, 0) /\
   Rabs (x1 - x0) = fieldMagnitude E / 100000 /\
   (0 < Q -> x0 < x1) /\
   (Q < 0 -> x1 < x0 /\ (x0 < Rabs (x E) / 100000 -> x1 < 0))).
Proof.
  intros Hx Ha sources E x1.
  assert (HE : E = {| x := 100 * COULOMB_CONSTANT * Q *
                           (1 / ((x0 + a) * (x0 + a)) - 1 / ((a - x0) * (a - x0)));
                      y := 0; z := 0 |}).
  { apply pair_field_on_axis. rewrite Rabs_pos_eq; lra. }
  assert (Hdiff : 1 / ((x0 + a) * (x0 + a)) - 1 / ((a - x0) * (a - x0)) < 0).
  { replace (1 / ((x0 + a) * (x0 + a)) - 1 / ((a - x0) * (a - x0)))
      with (- (4 * a * x0 / ((x0 + a) * (x0 + a) * ((a - x0) * (a - x0)))))
      by (field; lra).
    apply Ropp_lt_gt_0_contravar. apply Rdiv_lt_0_compat; [nra|].
    apply Rmult_lt_0_compat; nra. }
  pose proof COULOMB_CONSTANT_pos as Hk.
  assert (Hpos : 0 < Q -> x E < 0).
  { intros HQ. rewrite HE. cbn [x].
    assert (0 < 100 * COULOMB_CONSTANT * Q) by nra. nra. }
  assert (Hneg : Q < 0 -> 0 < x E).
  { intros HQ. rewrite HE. cbn [x].
    assert (100 * COULOMB_CONSTANT * Q < 0) by nra. nra. }
  assert (Hmag : fieldMagnitude E = Rabs (x E)).
  { rewrite fieldMagnitude_eq, HE. cbn [x y z]. apply norm3_axis. }
  split; [|split; [now rewrite HE|split; [now rewrite HE|split; [now rewrite HE|split;
    [exact Hpos|split; [exact Hneg|]]]]]].
  - unfold origin, sources. rewrite pair_field_on_axis by (rewrite Rabs_R0; lra).
    apply vec_eq; cbn [x y z vzero]; change (lit 0) with 0; try reflexivity.
    field. lra.
  - intros Htol. split; [|split; [|split]].
    + change 1%nat with (S 0). rewrite refine_pass. cbv zeta. fold sources E.
      rewrite TOLERANCE_eq in Htol.
      destruct (Rlt_dec _ _) as [Hlt|_]; [lra|].
      cbn [refine fst snd]. unfold x1. rewrite HE. cbn [x y z].
      apply triple_eq; lra.
    + rewrite Hmag. unfold x1.
      replace (x0 - x E / 100000 - x0) with (- (x E / 100000)) by lra.
      rewrite Rabs_Ropp. unfold Rdiv. rewrite Rabs_mult, (Rabs_pos_eq (/ 100000)); lra.
    + intros HQ. specialize (Hpos HQ). unfold x1. lra.
    + intros HQ. specialize (Hneg HQ). unfold x1. split; [lra|].
      rewrite (Rabs_pos_eq (x E)) by lra. lra.
Qed.

Lemma refinement_steps_against_field_witness :
  x (computeElectricFieldAtPoint (1, 0, 0) [sourceAt (- 2) 1; sourceAt 2 1]) < 0 /\
  exists x1 : R,
    refine 1 [sourceAt (- 2) (- 1); sourceAt 2 (- 1)] (1, 0, 0) = (x1, 0, 0) /\
    x1 < - 7000000.
Proof.
  split.
  - apply (@refinement_steps_against_field 1 2 1); lra.
  - destruct (@refinement_steps_against_field (- 1) 2 1) as (_ & Hx & Hy & Hz & _ & _ & H);
      [lra|lra|].
    rewrite fieldMagnitude_eq, Hy, Hz, norm3_axis, TOLERANCE_eq in H.
    rewrite COULOMB_CONSTANT_eq in Hx.
    set (Ex := x (computeElectricFieldAtPoint (1, 0, 0) _)) in *.
    clearbody Ex.
    assert (Hval : Ex = 7192000000000 / 9) by (rewrite Hx; lra).
    destruct H as (Hstep & _); [rewrite Hval, Rabs_pos_eq; lra|].
    exists (1 - Ex / 100000). split; [exact Hstep|]. rewrite Hval. lra.
Defined.

(** *** The tracer: normalization and step length *)

Lemma tiny_eq : e_neg 1 10 = 1 / 10000000000.
Proof. reflexivity. Qed.

Lemma normalize_eq (v : Vec) :
  FieldFlow.normalize v =
  if Rlt_dec (fieldMagnitude v) (1 / 10000000000) then vzero
  else {| x := x v / fieldMagnitude v; y := y v / fieldMagnitude v;
          z := z v / fieldMagnitude v |}.
Proof.
  unfold FieldFlow.normalize. cbv zeta. rewrite tiny_eq.
  change (sqrt (x v * x v + y v * y v + z v * z v)%num) with (fieldMagnitude v).
  cbn [ltb RNumber]. unfold Rltb.
  destruct (Rlt_dec (fieldMagnitude v) (1 / 10000000000)); reflexivity.
Qed.

Lemma unit_after_division (a b c : R) :
  0 < norm3 a b c ->
  norm3 (a / norm3 a b c) (b / norm3 a b c) (c / norm3 a b c) = 1.
Proof.
  intros Hm. set (m := norm3 a b c) in *.
  replace (a / m) with (/ m * a) by (field; lra).
  replace (b / m) with (/ m * b) by (field; lra).
  replace (c / m) with (/ m * c) by (field; lra).
  rewrite norm3_scale. fold m.
  rewrite Rabs_pos_eq by (left; now apply Rinv_0_lt_compat).
  field. lra.
Qed.

Lemma normalize_unit (v : Vec) :
  1 / 10000000000 <= fieldMagnitude v ->
  fieldMagnitude (FieldFlow.normalize v) = 1 /\
  v = {| x := fieldMagnitude v * x (FieldFlow.normalize v);
         y := fieldMagnitude v * y (FieldFlow.normalize v);
         z := fieldMagnitude v * z (FieldFlow.normalize v) |}.
Proof.
  intros Hm. rewrite normalize_eq.
  destruct (Rlt_dec (fieldMagnitude v) (1 / 10000000000)) as [Hlt|Hge]; [lra|].
  split.
  - rewrite !fieldMagnitude_eq. cbn [x y z]. apply unit_after_division.
    rewrite <- fieldMagnitude_eq. lra.
  - apply vec_eq; cbn [x y z]; field; lra.
Qed.

(** X16 -- [normalize] returns the zero vector for a vector shorter than
    [1e-10] and otherwise the vector divided by its length, which has
    length exactly 1 and the direction of the argument. *)
Theorem normalize_unit_or_zero (v : Vec) :
  let m := fieldMagnitude v in
  (m < 1 / 10000000000 -> FieldFlow.normalize v = vzero) /\
  (1 / 10000000000 <= m ->
   fieldMagnitude (FieldFlow.normalize v) = 1 /\
   v = {| x := m * x (FieldFlow.normalize v);
          y := m * y (FieldFlow.normalize v);
          z := m * z (FieldFlow.normalize v) |}).
Proof.
  cbv zeta. split; [|apply normalize_unit].
  intros Hlt. rewrite normalize_eq.
  destruct (Rlt_dec (fieldMagnitude v) (1 / 10000000000)); [reflexivity|lra].
Qed.

Lemma direction_nonzero (v : Vec) :
  let dir := FieldFlow.normalize v in
  (eqb (x dir) (lit 0) && eqb (y dir) (lit 0) && eqb (z dir) (lit 0)) = false ->
  1 / 10000000000 <= fieldMagnitude v.
Proof.
  cbv zeta. rewrite normalize_eq.
  destruct (Rlt_dec (fieldMagnitude v) (1 / 10000000000)) as [Hlt|Hge]; [|lra].
  cbn [x y z vzero]. rewrite !eqb_refl. discriminate.
Qed.

Lemma directionSign_eq (direction : FieldFlow.Direction) :
  FieldFlow.directionSign direction =
  match direction with FieldFlow.forward => 1 | FieldFlow.backward => -1 end.
Proof. destruct direction; reflexivity. Qed.

Lemma STEP_SIZE_eq : FieldFlow.STEP_SIZE = 5 / 100.
Proof. reflexivity. Qed.

Lemma traceLoop_step (sources : list Source) (mode : FieldMode)
    (direction : FieldFlow.Direction) (pos : Pos) :
  let dir := FieldFlow.normalize (fieldAt mode pos sources) in
  (eqb (x dir) (lit 0) && eqb (y dir) (lit 0) && eqb (z dir) (lit 0)) = false ->
  eulerStep sources mode (FieldFlow.directionSign direction) pos
    (fst (fst pos) + x dir * FieldFlow.STEP_SIZE * FieldFlow.directionSign direction,
     snd (fst pos) + y dir * FieldFlow.STEP_SIZE * FieldFlow.directionSign direction,
     snd pos + z dir * FieldFlow.STEP_SIZE * FieldFlow.directionSign direction).
Proof.
  intros dir Hnz. pose proof (direction_nonzero _ Hnz) as Hm.
  destruct (normalize_unit (fieldAt mode pos sources) Hm) as [Hunit Hdir].
  fold dir in Hunit, Hdir.
  unfold eulerStep. cbv zeta. split; [exact Hm|]. split.
  - unfold dir. rewrite normalize_eq.
    destruct (Rlt_dec _ _) as [Hlt|_]; [lra|]. cbn [x y z].
    rewrite STEP_SIZE_eq. reflexivity.
  - rewrite distance_eq. cbn [fst snd].
    set (s := FieldFlow.directionSign direction).
    replace (fst (fst pos) + x dir * FieldFlow.STEP_SIZE * s - fst (fst pos))
      with (FieldFlow.STEP_SIZE * s * x dir) by ring.
    replace (snd (fst pos) + y dir * FieldFlow.STEP_SIZE * s - snd (fst pos))
      with (FieldFlow.STEP_SIZE * s * y dir) by ring.
    replace (snd pos + z dir * FieldFlow.STEP_SIZE * s - snd pos)
      with (FieldFlow.STEP_SIZE * s * z dir) by ring.
    rewrite norm3_scale, <- fieldMagnitude_eq, Hunit, STEP_SIZE_eq.
    unfold s. rewrite directionSign_eq.
    destruct direction; [rewrite Rabs_pos_eq|rewrite Rabs_left]; lra.
Qed.

Lemma traceLoop_chained (sources : list Source) (mode : FieldMode)
    (direction : FieldFlow.Direction) (steps : nat) :
  forall pos : Pos,
    chained (eulerStep sources mode (FieldFlow.directionSign direction))
      (FieldFlow.traceLoop steps pos sources mode direction).
Proof.
  induction steps as [|n IH]; intros pos; [exact I|].
  cbn [FieldFlow.traceLoop].
  destruct (FieldFlow.isOutsideBounds pos); [exact I|].
  destruct (FieldFlow.isTooCloseToSource pos sources); [exact I|].
  destruct (ltb _ FieldFlow.MIN_FIELD_MAGNITUDE); [exact I|].
  destruct (eqb _ _ && eqb _ _ && eqb _ _) eqn:Hnz; [exact I|].
  pose proof (traceLoop_step sources mode direction pos Hnz) as Hstep.
  destruct pos as [[p0 p1] p2]. cbn [fst snd] in Hstep.
  specialize (IH (p0 + x (FieldFlow.normalize (fieldAt mode (p0, p1, p2) sources)) *
                       FieldFlow.STEP_SIZE * FieldFlow.directionSign direction,
                  p1 + y (FieldFlow.normalize (fieldAt mode (p0, p1, p2) sources)) *
                       FieldFlow.STEP_SIZE * FieldFlow.directionSign direction,
                  p2 + z (FieldFlow.normalize (fieldAt mode (p0, p1, p2) sources)) *
                       FieldFlow.STEP_SIZE * FieldFlow.directionSign direction)).
  destruct n as [|m]; [exact I|].
  rewrite traceLoop_head in IH |- *.
  destruct (stopsAt _ sources mode); [exact I|].
  split; [exact Hstep|exact IH].
Qed.

(** X17 -- a trace is a chain of Euler steps of fixed length that starts at
    the start point: the first point of a trace, if it has one, is the
    start point; any two consecutive points [a], [b] are exactly
    [STEP_SIZE] = 0.05 scene units apart, [b] is [a] moved by 0.05 along the
    unit vector of the field at [a] (against it in the backward trace), and
    the field at [a] has magnitude at least [1e-10] -- a point where it is
    weaker is recorded, but the trace ends there. *)
Theorem trace_is_chain_of_steps (start : Pos) (sources : list Source) (mode : FieldMode)
    (direction : FieldFlow.Direction) :
  let trace := FieldFlow.traceInDirection start sources mode direction in
  (trace = [] \/ hd_error trace = Some start) /\
  chained (eulerStep sources mode
             (match direction with FieldFlow.forward => 1 | FieldFlow.backward => -1 end))
    trace.
Proof.
  intros trace. split.
  - pose proof (traceInDirection_head start sources mode direction) as H.
    fold trace in H. clearbody trace.
    destruct (stopsAt start sources mode); [now left|right].
    rewrite H. reflexivity.
  - rewrite <- directionSign_eq. apply traceLoop_chained.
Qed.

(** *** The size of the arrows *)

Lemma clamp01 (t : R) : 0 <= Rmax 0 (Rmin 1 t) <= 1.
Proof.
  split; [apply Rmax_l|].
  apply Rmax_lub; [lra|apply Rmin_l].
Qed.

Lemma normalizedStrength_range (fd : FieldVectors.FieldData (T:=R)) (mag : R) :
  0 <= FieldVectors.normalizedStrength fd mag <= 1.
Proof.
  unfold FieldVectors.normalizedStrength.
  destruct (_ && _); [|change (lit 0) with 0; lra].
  cbv zeta.
  destruct (ltb _ _).
  - rewrite max_Rmax, min_Rmin. apply clamp01.
  - destruct (leb _ _).
    + change (lit 1) with 1. lra.
    + rewrite e_neg_eq. change (10 ^ 1)%Z with 10%Z. lra.
Qed.

Lemma fieldArrow_eq (field : Vec) (strength scale : R) :
  FieldVectors.fieldArrow field strength scale =
  if Rlt_dec (fieldMagnitude field) (1 / 10000000000) then None
  else
    let len := 6 / 10 * (1 + strength * (3 / 10)) * scale in
    Some {| FieldVectors.arrowLength := len;
            FieldVectors.headLength := len / 4;
            FieldVectors.headWidth := 15 / 100 * len;
            FieldVectors.shaftLength := 3 / 4 * len |}.
Proof.
  unfold FieldVectors.fieldArrow. cbv zeta.
  change (sqrt (sq (x field) + sq (y field) + sq (z field))%num) with (fieldMagnitude field).
  rewrite MIN_FIELD_THRESHOLD_eq. cbn [ltb RNumber]. unfold Rltb at 1.
  destruct (Rlt_dec (fieldMagnitude field) (1 / 10000000000)); [reflexivity|].
  assert (H : Rltb (lit 1) FieldVectors.SUBTLE_LENGTH_SCALING = true).
  { apply (ltb_true 1 FieldVectors.SUBTLE_LENGTH_SCALING).
    unfold FieldVectors.SUBTLE_LENGTH_SCALING. rewrite e_neg_eq.
    change (10 ^ 1)%Z with 10%Z. lra. }
  rewrite H. unfold FieldVectors.BASE_ARROW_LENGTH, FieldVectors.SUBTLE_LENGTH_SCALING.
  rewrite !e_neg_eq. change (10 ^ 1)%Z with 10%Z. change (10 ^ 2)%Z with 100%Z.
  change (lit 1) with 1. cbn [add sub mul RNumber].
  f_equal. f_equal; lra.
Qed.

(** X19 -- the size of a field arrow: the strength the component computes
    for an arrow is always between 0 and 1, whatever the magnitudes; the
    arrow is drawn exactly when the field is at least [1e-10]; and a drawn
    arrow has length [0.6 * (1 + 0.3 * strength) * fieldDisplayScale], that
    is between 0.6 and 0.78 times the display scale, a quarter of which is
    the head and three quarters the shaft. *)
Theorem field_arrow_size (fd : FieldVectors.FieldData (T:=R)) (field : Vec) (scale : R) :
  0 <= scale ->
  let strength := FieldVectors.normalizedStrength fd (fieldMagnitude field) in
  0 <= strength <= 1 /\
  (FieldVectors.fieldArrow field strength scale = None <->
   fieldMagnitude field < FieldVectors.MIN_FIELD_THRESHOLD) /\
  forall shape, FieldVectors.fieldArrow field strength scale = Some shape ->
    FieldVectors.arrowLength shape = 6 / 10 * (1 + 3 / 10 * strength) * scale /\
    6 / 10 * scale <= FieldVectors.arrowLength shape <= 78 / 100 * scale /\
    FieldVectors.headLength shape = FieldVectors.arrowLength shape / 4 /\
    FieldVectors.shaftLength shape = 3 / 4 * FieldVectors.arrowLength shape /\
    FieldVectors.headLength shape + FieldVectors.shaftLength shape =
      FieldVectors.arrowLength shape.
Proof.
  intros Hscale strength.
  pose proof (normalizedStrength_range fd (fieldMagnitude field)) as Hs. fold strength in Hs.
  split; [exact Hs|]. rewrite fieldArrow_eq, MIN_FIELD_THRESHOLD_eq.
  destruct (Rlt_dec (fieldMagnitude field) (1 / 10000000000)) as [Hlt|Hge].
  - split; [tauto|]. intros shape H. discriminate H.
  - split; [split; [discriminate|lra]|].
    intros shape H. cbv zeta in H. injection H as <-.
    cbn [FieldVectors.arrowLength FieldVectors.headLength FieldVectors.shaftLength].
    repeat split; try lra; nra.
Qed.

Lemma field_arrow_size_witness :
  0 <= FieldVectors.normalizedStrength
         {| FieldVectors.arrowData := []; FieldVectors.maxMagnitude := 2;
            FieldVectors.minMagnitude := 1 |}
         (fieldMagnitude {| x := 1; y := 0; z := 0 |}) <= 1.
Proof.
  apply (@field_arrow_size
           {| FieldVectors.arrowData := []; FieldVectors.maxMagnitude := 2;
              FieldVectors.minMagnitude := 1 |}
           {| x := 1; y := 0; z := 0 |} 1).
  lra.
Defined.

(** *** The dominant source of an arrow *)

Lemma contributionAt_eq (p : Pos) (mode : FieldMode) (s : Source) :
  FieldVectors.contributionAt p mode s =
  Rabs (value s) / (Rmax (distance p (position s)) (1 / 10) *
                    Rmax (distance p (position s)) (1 / 10)).
Proof.
  unfold FieldVectors.contributionAt. cbv zeta. rewrite max_Rmax, e_neg_eq.
  change (10 ^ 1)%Z with 10%Z. destruct mode; reflexivity.
Qed.

Lemma contributionAt_nonneg (p : Pos) (mode : FieldMode) (s : Source) :
  0 <= FieldVectors.contributionAt p mode s.
Proof.
  rewrite contributionAt_eq.
  assert (H : 1 / 10 <= Rmax (distance p (position s)) (1 / 10)) by apply Rmax_r.
  apply Rmult_le_pos; [apply Rabs_pos|].
  left. apply Rinv_0_lt_compat. nra.
Qed.

(** What the loop of [findDominantSource] returns, started at index [i]
    with the maximum [maxC] found at index [domI]: either nothing in the
    rest exceeds [maxC], or the result is the first element of the rest
    that attains the maximum of the rest, which exceeds [maxC]. *)
Lemma dominantLoop_spec (p : Pos) (mode : FieldMode) (rest : list Source) :
  forall (i : nat) (maxC : R) (domI : nat),
    let dom := FieldVectors.dominantLoop p mode i rest maxC domI in
    (forall s, In s rest ->
       FieldVectors.contributionAt p mode s <= FieldVectors.contribution dom) /\
    maxC <= FieldVectors.contribution dom /\
    ((FieldVectors.sourceIndex dom = domI /\ FieldVectors.contribution dom = maxC) \/
     (exists k s, FieldVectors.sourceIndex dom = (i + k)%nat /\
        nth_error rest k = Some s /\
        FieldVectors.contribution dom = FieldVectors.contributionAt p mode s /\
        maxC < FieldVectors.contribution dom /\
        forall j s', (j < k)%nat -> nth_error rest j = Some s' ->
          FieldVectors.contributionAt p mode s' < FieldVectors.contribution dom)).
Proof.
  induction rest as [|s rest IH]; intros i maxC domI; cbn [FieldVectors.dominantLoop].
  - cbn [FieldVectors.contribution FieldVectors.sourceIndex].
    split; [intros s []|]. split; [lra|]. left. split; reflexivity.
  - cbv zeta.
    destruct (ltb maxC (FieldVectors.contributionAt p mode s)) eqn:Hgt.
    + apply ltb_true in Hgt.
      specialize (IH (S i) (FieldVectors.contributionAt p mode s) i).
      cbv zeta in IH. destruct IH as (Hall & Hge & Hcase).
      set (dom := FieldVectors.dominantLoop p mode (S i) rest
                    (FieldVectors.contributionAt p mode s) i) in *.
      split; [|split; [lra|right]].
      * intros s' [<-|Hin]; [exact Hge|now apply Hall].
      * destruct Hcase as [[Hi Hc]|(k & s' & Hi & Hnth & Hc & Hlt & Hfirst)].
        -- exists 0%nat, s. rewrite Nat.add_0_r. cbn [nth_error].
           repeat split; try assumption; try lra.
           intros j s' Hj. lia.
        -- exists (S k), s'. cbn [nth_error].
           repeat split; try assumption; try lra; [lia|].
           intros j s'' Hj Hnth'. destruct j as [|j]; cbn [nth_error] in Hnth'.
           ++ injection Hnth' as <-. lra.
           ++ apply (Hfirst j); [lia|assumption].
    + apply ltb_false in Hgt.
      specialize (IH (S i) maxC domI).
      cbv zeta in IH. destruct IH as (Hall & Hge & Hcase).
      set (dom := FieldVectors.dominantLoop p mode (S i) rest maxC domI) in *.
      split; [|split; [lra|]].
      * intros s' [<-|Hin]; [lra|now apply Hall].
      * destruct Hcase as [[Hi Hc]|(k & s' & Hi & Hnth & Hc & Hlt & Hfirst)].
        -- left. split; assumption.
        -- right. exists (S k), s'. cbn [nth_error].
           repeat split; try assumption; [lia|].
           intros j s'' Hj Hnth'. destruct j as [|j]; cbn [nth_error] in Hnth'.
           ++ injection Hnth' as <-. lra.
           ++ apply (Hfirst j); [lia|assumption].
Qed.

(** X20 -- [findDominantSource] returns [null] exactly for no sources;
    otherwise it returns the index of the first source whose contribution
    [|value| / max(distance, 0.1)^2] (distance in scene units) is the
    largest, together with that contribution.  At a point one scene unit or
    more from a source, the magnitude of the field of that source alone is
    [100 K] times its contribution, so there the ranking is the ranking by
    field strength. *)
Theorem dominant_source_spec (p : Pos) (sources : list Source) (mode : FieldMode) :
  (FieldVectors.findDominantSource p sources mode = None <-> sources = []) /\
  (forall dom, FieldVectors.findDominantSource p sources mode = Some dom ->
     exists s,
       nth_error sources (FieldVectors.sourceIndex dom) = Some s /\
       FieldVectors.contribution dom = FieldVectors.contributionAt p mode s /\
       (forall s', In s' sources ->
          FieldVectors.contributionAt p mode s' <= FieldVectors.contribution dom) /\
       (forall j s', (j < FieldVectors.sourceIndex dom)%nat ->
          nth_error sources j = Some s' ->
          FieldVectors.contributionAt p mode s' < FieldVectors.contribution dom)) /\
  (forall s, 1 <= distance p (position s) ->
     fieldMagnitude (fieldAt mode p [s]) =
     100 * modeConstant mode * FieldVectors.contributionAt p mode s).
Proof.
  split; [|split].
  - unfold FieldVectors.findDominantSource. destruct sources; cbn [length Nat.eqb];
      split; intros H; try reflexivity; discriminate H.
  - intros dom Hdom. unfold FieldVectors.findDominantSource in Hdom.
    destruct sources as [|s0 rest]; [discriminate Hdom|].
    change (Some (FieldVectors.dominantLoop p mode 0 (s0 :: rest) (lit 0) 0) = Some dom)
      in Hdom.
    injection Hdom as Hdom.
    pose proof (dominantLoop_spec p mode (s0 :: rest) 0 (lit 0) 0) as H.
    cbv zeta in H.
    set (dom' := FieldVectors.dominantLoop p mode 0 (s0 :: rest) (lit 0) 0) in H.
    assert (E : dom' = dom) by exact Hdom.
    clearbody dom'. subst dom'. destruct H as (Hall & Hge & Hcase).
    destruct Hcase as [[Hi Hc]|(k & s & Hi & Hnth & Hc & Hlt & Hfirst)].
    + exists s0. rewrite Hi. cbn [nth_error]. change (lit 0) with 0 in Hc.
      assert (H0 : FieldVectors.contributionAt p mode s0 = 0).
      { apply Rle_antisym; [|apply contributionAt_nonneg].
        rewrite <- Hc. apply Hall. now left. }
      repeat split; try assumption; [lra|].
      intros j s' Hj. lia.
    + exists s. rewrite Hi. cbn [Nat.add].
      repeat split; assumption.
  - intros s Hd. rewrite single_source_magnitude, contributionAt_eq.
    rewrite distance_meters, clampedMagnitude_far by lra.
    rewrite Rmax_left by lra. field. lra.
Qed.

(** *** The numbers of the formula panel *)

Lemma distance_FormulaPanel (a b : Pos) : FormulaPanel.distance a b = distance a b.
Proof. reflexivity. Qed.

(** The loop of [findNearestSource], started with [cur] at distance
    [dist cur]: the result is [cur], and nothing in the rest is nearer, or
    it is the first element of the rest at the least distance, which is
    nearer than [cur]. *)
Lemma nearer_spec (p : Pos) (rest : list Source) :
  forall cur : Source,
    let res := fold_left (FormulaPanel.nearer p) rest (cur, distance p (position cur)) in
    snd res = distance p (position (fst res)) /\
    snd res <= distance p (position cur) /\
    (forall s, In s rest -> snd res <= distance p (position s)) /\
    (fst res = cur \/
     exists k, nth_error rest k = Some (fst res) /\
       snd res < distance p (position cur) /\
       forall j s', (j < k)%nat -> nth_error rest j = Some s' ->
         snd res < distance p (position s')).
Proof.
  induction rest as [|s rest IH]; intros cur; cbn [fold_left].
  - cbn [fst snd]. split; [reflexivity|]. split; [lra|]. split; [intros s []|now left].
  - assert (Hstep : FormulaPanel.nearer p (cur, distance p (position cur)) s =
                    if ltb (distance p (position s)) (distance p (position cur))
                    then (s, distance p (position s))
                    else (cur, distance p (position cur))) by reflexivity.
    rewrite Hstep. clear Hstep.
    destruct (ltb (distance p (position s)) (distance p (position cur))) eqn:Hlt.
    + apply ltb_true in Hlt. specialize (IH s). cbv zeta in IH.
      destruct IH as (Hd & Hle & Hall & Hcase).
      set (res := fold_left (FormulaPanel.nearer p) rest (s, distance p (position s))) in *.
      split; [exact Hd|]. split; [lra|]. split; [|right].
      * intros s' [<-|Hin]; [exact Hle|now apply Hall].
      * destruct Hcase as [Hcur|(k & Hnth & Hlt' & Hfirst)].
        -- exists 0%nat. cbn [nth_error]. rewrite Hcur.
           split; [reflexivity|]. split; [rewrite Hd, Hcur; exact Hlt|].
           intros j s' Hj. lia.
        -- exists (S k). cbn [nth_error]. split; [exact Hnth|]. split; [lra|].
           intros j s' Hj Hnth'. destruct j as [|j]; cbn [nth_error] in Hnth'.
           ++ injection Hnth' as <-. exact Hlt'.
           ++ apply (Hfirst j); [lia|assumption].
    + apply ltb_false in Hlt. specialize (IH cur). cbv zeta in IH.
      destruct IH as (Hd & Hle & Hall & Hcase).
      set (res := fold_left (FormulaPanel.nearer p) rest (cur, distance p (position cur)))
        in *.
      split; [exact Hd|]. split; [exact Hle|]. split.
      * intros s' [<-|Hin]; [lra|now apply Hall].
      * destruct Hcase as [Hcur|(k & Hnth & Hlt' & Hfirst)]; [now left|right].
        exists (S k). cbn [nth_error]. split; [exact Hnth|]. split; [exact Hlt'|].
        intros j s' Hj Hnth'. destruct j as [|j]; cbn [nth_error] in Hnth'.
        ++ injection Hnth' as <-. lra.
        ++ apply (Hfirst j); [lia|assumption].
Qed.

Lemma findNearestSource_spec (p : Pos) (sources : list Source) :
  sources <> [] ->
  exists (k : nat) (nearest : Source),
    FormulaPanel.findNearestSource p sources = Some nearest /\
    nth_error sources k = Some nearest /\
    (forall s, In s sources -> distance p (position nearest) <= distance p (position s)) /\
    (forall j s, (j < k)%nat -> nth_error sources j = Some s ->
       distance p (position nearest) < distance p (position s)).
Proof.
  intros Hne. destruct sources as [|first rest]; [contradiction|].
  unfold FormulaPanel.findNearestSource.
  change (@FormulaPanel.distance R RNumber) with (@distance R RNumber).
  pose proof (nearer_spec p (first :: rest) first) as H. cbv zeta in H.
  destruct H as (Hd & Hle & Hall & Hcase).
  set (res := fold_left (FormulaPanel.nearer p) (first :: rest)
                (first, distance p (position first))) in *.
  rewrite Hd in Hle, Hall.
  destruct Hcase as [Hcur|(k & Hnth & Hlt & Hfirst)].
  - exists 0%nat, (fst res). split; [reflexivity|]. rewrite Hcur at 1. cbn [nth_error].
    split; [reflexivity|]. split; [exact Hall|]. intros j s Hj. lia.
  - exists k, (fst res). rewrite Hd in Hfirst. repeat split; assumption.
Qed.

Lemma magnitudeOf_eq (v : Vec) : FormulaPanel.magnitudeOf v = fieldMagnitude v.
Proof. reflexivity. Qed.

(** X21 -- the numbers the formula panel shows are consistent with each
    other and with the kernel.  With a test charge and at least one source
    the panel has values; its nearest source is the first source at the
    least distance from the test charge; [r] is that distance in meters,
    no entry of [sourceDistances] is smaller, and [rSquared] is its square;
    the force magnitude is the field magnitude times [|q|]; the potential
    difference is [computePotentialDifference] from the origin to the test
    charge; and from [r = 0.1] m on the field and the potential of the
    nearest source are what the formulas next to them say, [K |Q| / r^2]
    and [k Q / r] ([- G Q / r] in gravity mode). *)
Theorem live_values_consistent (mode : FieldMode) (sources : list Source)
    (testCharge : TestCharge.t R) :
  sources <> [] ->
  exists (lv : FormulaPanel.LiveValues.t R) (k : nat),
    FormulaPanel.liveValues mode sources (Some testCharge) = Some lv /\
    let nearest := FormulaPanel.LiveValues.nearestSource lv in
    let r := FormulaPanel.LiveValues.r lv in
    let q := TestCharge.value testCharge in
    let p := TestCharge.position testCharge in
    nth_error sources k = Some nearest /\
    (forall j s, (j < k)%nat -> nth_error sources j = Some s ->
       distance p (position nearest) < distance p (position s)) /\
    r = distance p (position nearest) / 10 /\
    map (@FormulaPanel.SourceDistance.source R) (FormulaPanel.LiveValues.sourceDistances lv) =
      sources /\
    (forall sd, In sd (FormulaPanel.LiveValues.sourceDistances lv) ->
       r <= FormulaPanel.SourceDistance.distance sd /\
       FormulaPanel.SourceDistance.distance sd =
         distance p (position (FormulaPanel.SourceDistance.source sd)) / 10) /\
    FormulaPanel.LiveValues.rSquared lv = r * r /\
    FormulaPanel.LiveValues.forceMagnitude lv =
      FormulaPanel.LiveValues.fieldMagnitude lv * Rabs q /\
    FormulaPanel.LiveValues.potentialDifference lv =
      computePotentialDifference (0, 0, 0) p mode sources /\
    (1 / 10 <= r ->
     FormulaPanel.LiveValues.sourceFieldMagnitude lv =
       modeConstant mode * Rabs (value nearest) / FormulaPanel.LiveValues.rSquared lv /\
     FormulaPanel.LiveValues.sourcePotential lv =
       match mode with
       | electric => COULOMB_CONSTANT * value nearest / r
       | gravity => - (GRAVITATIONAL_CONSTANT * value nearest / r)
       end).
Proof.
  intros Hne.
  destruct (findNearestSource_spec (TestCharge.position testCharge) Hne)
    as (k & nearest & Hfind & Hnth & Hmin & Hfirst).
  unfold FormulaPanel.liveValues.
  destruct sources as [|s0 rest] eqn:Es; [contradiction|].
  cbn [length Nat.eqb]. rewrite <- Es in *. rewrite Hfind. cbv zeta.
  eexists. exists k. split; [reflexivity|].
  cbn [FormulaPanel.LiveValues.nearestSource FormulaPanel.LiveValues.r
       FormulaPanel.LiveValues.rSquared FormulaPanel.LiveValues.fieldMagnitude
       FormulaPanel.LiveValues.forceMagnitude FormulaPanel.LiveValues.sourceFieldMagnitude
       FormulaPanel.LiveValues.potential FormulaPanel.LiveValues.sourcePotential
       FormulaPanel.LiveValues.potentialDifference FormulaPanel.LiveValues.sourceDistances].
  change (@FormulaPanel.distance R RNumber) with (@distance R RNumber).
  rewrite !distance_meters.
  set (p := TestCharge.position testCharge) in *.
  set (q := TestCharge.value testCharge) in *.
  split; [exact Hnth|]. split; [exact Hfirst|]. split; [lra|].
  split; [|split; [|split; [reflexivity|split; [|split]]]].
  - rewrite map_map. cbn [FormulaPanel.SourceDistance.source]. apply map_id.
  - intros sd Hsd. apply in_map_iff in Hsd. destruct Hsd as (s & <- & Hs).
    cbn [FormulaPanel.SourceDistance.distance FormulaPanel.SourceDistance.source].
    rewrite distance_meters.
    specialize (Hmin s Hs). split; lra.
  - rewrite !magnitudeOf_eq, force_magnitude.
    destruct mode; reflexivity.
  - rewrite potential_difference_eq. destruct mode; reflexivity.
  - intros Hr. cbn [mul RNumber].
    assert (Hdm : distance (sceneToMeters p) (sceneToMeters (position nearest)) =
                  1 / 10 * distance p (position nearest)) by apply distance_meters.
    destruct (single_source_potentials p nearest) as [He Hg].
    rewrite Hdm, Rmax_left in He, Hg by lra.
    split.
    + replace (match mode with
               | electric => FormulaPanel.magnitudeOf (computeElectricFieldAtPoint p [nearest])
               | gravity =>
                   FormulaPanel.magnitudeOf (computeGravitationalFieldAtPoint p [nearest])
               end) with (fieldMagnitude (fieldAt mode p [nearest]))
        by (destruct mode; reflexivity).
      rewrite single_source_magnitude, Hdm, clampedMagnitude_far by lra. reflexivity.
    + destruct mode; assumption.
Qed.

Lemma live_values_consistent_witness :
  exists lv : FormulaPanel.LiveValues.t R,
    FormulaPanel.liveValues electric [unitCharge]
      (Some {| TestCharge.position := (2, 0, 0); TestCharge.value := 1 |}) = Some lv /\
    FormulaPanel.LiveValues.rSquared lv =
      FormulaPanel.LiveValues.r lv * FormulaPanel.LiveValues.r lv.
Proof.
  destruct (@live_values_consistent electric [unitCharge]
              {| TestCharge.position := (2, 0, 0); TestCharge.value := 1 |})
    as (lv & k & Hlv & H); [discriminate|].
  cbv zeta in H. exists lv. split; [exact Hlv|]. apply H.
Defined.

(** *** The arrow of the force on the test charge *)

Lemma log10_power (k : nat) : log10 (/ 10 ^ k) = - INR k.
Proof.
  rewrite log10_eq, ln_Rinv by (apply pow_lt; lra).
  rewrite ln_pow by lra. pose proof ln10_pos. field. lra.
Qed.

Lemma log10_le (a b : R) : 0 < a -> a <= b -> log10 a <= log10 b.
Proof.
  intros Ha [Hlt| ->]; [left; now apply log10_increasing|right; reflexivity].
Qed.

Lemma force_literals :
  e_neg 1 12 = / 10 ^ 12 /\ e_neg 1 15 = / 10 ^ 15 /\ e_neg 1 6 = / 10 ^ 6.
Proof.
  rewrite !e_neg_eq.
  change (10 ^ 12)%Z with 1000000000000%Z.
  change (10 ^ 15)%Z with 1000000000000000%Z.
  change (10 ^ 6)%Z with 1000000%Z.
  repeat split; field.
Qed.

(** The length before it is turned into sizes. *)
Lemma forceArrow_eq (testCharge : TestCharge.t R) (mode : FieldMode)
    (sources : list Source) (enabled : bool) :
  let F := computeForceOnTestCharge (TestCharge.position testCharge)
             (TestCharge.value testCharge) mode sources in
  ForceArrow.forceArrow testCharge mode sources enabled =
  if negb enabled || (length sources =? 0)%nat then None
  else if Rlt_dec (fieldMagnitude F) (/ 10 ^ 12) then None
  else
    let len := 2 / 10 + Rmax 0 (Rmin 1 ((log10 (fieldMagnitude F) + 15) / 9)) * (13 / 10) in
    Some {| ForceArrow.length := len;
            ForceArrow.headLength := len / 4;
            ForceArrow.headWidth := 15 / 100 * len;
            ForceArrow.shaftLength := 3 / 4 * len |}.
Proof.
  intros F. unfold ForceArrow.forceArrow.
  destruct (negb enabled || (length sources =? 0)%nat); [reflexivity|].
  cbv zeta. fold F.
  change (sqrt (sq (x F) + sq (y F) + sq (z F))%num) with (fieldMagnitude F).
  destruct force_literals as (E12 & E15 & E6). rewrite E12, E15, E6.
  cbn [ltb RNumber]. unfold Rltb.
  destruct (Rlt_dec (fieldMagnitude F) (/ 10 ^ 12)) as [Hlt|Hge]; [reflexivity|].
  apply Rnot_lt_le in Hge.
  assert (H15 : / 10 ^ 15 < / 10 ^ 12).
  { apply Rinv_lt_contravar; [apply Rmult_lt_0_compat; apply pow_lt; lra|].
    apply Rlt_pow; [lra|lia]. }
  rewrite !max_Rmax, min_Rmin, (Rmax_left (fieldMagnitude F)) by lra.
  rewrite !log10_power.
  unfold ForceArrow.MIN_FORCE_LENGTH, ForceArrow.MAX_FORCE_LENGTH.
  rewrite !e_neg_eq. change (10 ^ 1)%Z with 10%Z. change (10 ^ 2)%Z with 100%Z.
  change (lit 0) with 0. change (lit 1) with 1. cbn [add sub mul div RNumber].
  replace (- INR 6 - - INR 15) with 9 by (cbn [INR]; lra).
  replace (log10 (fieldMagnitude F) - - INR 15) with (log10 (fieldMagnitude F) + 15)
    by (cbn [INR]; lra).
  f_equal. f_equal; lra.
Qed.

(** X22 -- the arrow of the force: it is drawn unless the component is
    disabled, there is no source, or the force is weaker than [1e-12]; a
    drawn arrow has length [0.2 + 1.3 * s], where [s] is
    [(log10 |F| + 15) / 9] cut to at most 1, so its length is between
    [19/30] (about 0.63, not the configured minimum 0.2) and 1.5, and is 1.5
    from [|F| = 1e-6] on; a quarter of it is the head, three quarters the
    shaft. *)
Theorem force_arrow_size (testCharge : TestCharge.t R) (mode : FieldMode)
    (sources : list Source) (enabled : bool) :
  let F := computeForceOnTestCharge (TestCharge.position testCharge)
             (TestCharge.value testCharge) mode sources in
  (ForceArrow.forceArrow testCharge mode sources enabled = None <->
   enabled = false \/ sources = [] \/ fieldMagnitude F < / 10 ^ 12) /\
  forall shape, ForceArrow.forceArrow testCharge mode sources enabled = Some shape ->
    ForceArrow.length shape =
      2 / 10 + 13 / 10 * Rmin 1 ((log10 (fieldMagnitude F) + 15) / 9) /\
    19 / 30 <= ForceArrow.length shape <= 3 / 2 /\
    (/ 10 ^ 6 <= fieldMagnitude F -> ForceArrow.length shape = 3 / 2) /\
    ForceArrow.headLength shape = ForceArrow.length shape / 4 /\
    ForceArrow.shaftLength shape = 3 / 4 * ForceArrow.length shape /\
    ForceArrow.headLength shape + ForceArrow.shaftLength shape = ForceArrow.length shape.
Proof.
  intros F. rewrite (forceArrow_eq testCharge mode sources enabled). fold F. cbv zeta.
  assert (Hsrc : (length sources =? 0)%nat = true <-> sources = []).
  { destruct sources; cbn; split; intros H; try reflexivity; discriminate H. }
  destruct enabled; cbn [negb orb].
  2:{ split; [split; [now left|reflexivity]|]. intros shape H. discriminate H. }
  destruct (length sources =? 0)%nat eqn:Hlen.
  { split; [split; [intros _; right; left; now apply Hsrc|reflexivity]|].
    intros shape H. discriminate H. }
  destruct (Rlt_dec (fieldMagnitude F) (/ 10 ^ 12)) as [Hlt|Hge].
  { split; [split; [intros _; right; right; exact Hlt|reflexivity]|].
    intros shape H. discriminate H. }
  apply Rnot_lt_le in Hge.
  assert (H12 : 0 < / 10 ^ 12) by (apply Rinv_0_lt_compat, pow_lt; lra).
  assert (Hlog : -12 <= log10 (fieldMagnitude F)).
  { replace (-12) with (- INR 12) by (cbn [INR]; lra).
    rewrite <- log10_power. now apply log10_le. }
  set (t := (log10 (fieldMagnitude F) + 15) / 9) in *.
  assert (Ht : 1 / 3 <= t) by (unfold t; lra).
  assert (Hmin : 1 / 3 <= Rmin 1 t <= 1).
  { split; [apply Rmin_glb; lra|apply Rmin_l]. }
  split.
  - split; [discriminate|].
    intros [H|[H|H]]; [discriminate H| |lra].
    apply <- Hsrc in H. discriminate H.
  - intros shape H. injection H as <-.
    cbn [ForceArrow.length ForceArrow.headLength ForceArrow.shaftLength].
    rewrite (Rmax_right 0 (Rmin 1 t)) by lra.
    repeat split; try lra.
    intros H6.
    assert (H6' : 0 < / 10 ^ 6) by (apply Rinv_0_lt_compat, pow_lt; lra).
    assert (Hlog6 : -6 <= log10 (fieldMagnitude F)).
    { replace (-6) with (- INR 6) by (cbn [INR]; lra).
      rewrite <- log10_power. now apply log10_le. }
    rewrite Rmin_left by (unfold t; lra). lra.
Qed.

(** *** The radius of the aura *)

Lemma targetRadius_eq (v : R) :
  ChargeAura.targetRadius v = 5 / 10 + 15 / 100 * Rmin (Rabs v) 10.
Proof.
  unfold ChargeAura.targetRadius. cbv zeta. rewrite min_Rmin.
  unfold ChargeAura.BASE_RADIUS, ChargeAura.SCALE_FACTOR, ChargeAura.MAX_VALUE_TO_VISUALIZE.
  rewrite !e_neg_eq. change (10 ^ 1)%Z with 10%Z. change (10 ^ 2)%Z with 100%Z.
  reflexivity.
Qed.

(** X23 -- the radius of the aura of a source grows with the magnitude of
    its value and saturates: it is [0.5 + 0.15 |value|] up to [|value| = 10]
    and 2 from there on, the same for a value and its negative. *)
Theorem aura_radius_saturates (v w : R) :
  1 / 2 <= ChargeAura.targetRadius v <= 2 /\
  ChargeAura.targetRadius (- v) = ChargeAura.targetRadius v /\
  (Rabs v <= 10 -> ChargeAura.targetRadius v = 1 / 2 + 15 / 100 * Rabs v) /\
  (10 <= Rabs v -> ChargeAura.targetRadius v = 2) /\
  (Rabs v <= Rabs w -> ChargeAura.targetRadius v <= ChargeAura.targetRadius w).
Proof.
  rewrite !targetRadius_eq, Rabs_Ropp.
  pose proof (Rabs_pos v) as Hv. pose proof (Rabs_pos w) as Hw.
  pose proof (Rmin_l (Rabs v) 10) as H1. pose proof (Rmin_r (Rabs v) 10) as H2.
  assert (H0 : 0 <= Rmin (Rabs v) 10) by (apply Rmin_glb; lra).
  split; [lra|]. split; [reflexivity|]. split; [|split].
  - intros H. rewrite Rmin_left by lra. lra.
  - intros H. rewrite Rmin_right by lra. lra.
  - intros H.
    assert (Rmin (Rabs v) 10 <= Rmin (Rabs w) 10) by (apply Rmin_glb; lra).
    lra.
Qed.

End Exact.

(** ** Double precision: the kernel on concrete inputs *)

Module Binary64.

Local Open Scope float_scope.


(** C2, the last clause in doubles -- around one source of value 1 at the
    origin, the point [(0.06, 0.08, 0)] is at the computed distance
    [MIN_DISTANCE] = 0.1, and so is [(0.1, 0, 0)]; the magnitudes computed
    at the two points differ in the last place ([8989999999999.9941] and
    [8989999999999.9961]), so the bound at [r = MIN_DISTANCE] holds in
    doubles up to rounding only. *)
Lemma clamp_bound_rounds :
  let s := source64 0 0 0 1 in
  let p : Position float := (0x1.999999999999ap-4, 0, 0) in
  let p0 : Position float := (0x1.eb851eb851eb8p-5, 0x1.47ae147ae147bp-4, 0) in
  distance p0 (position s) = MIN_DISTANCE /\
  distance p (position s) = MIN_DISTANCE /\
  fieldMagnitude (computeElectricFieldAtPoint p0 [s]) = 0x1.05a4b8357fffdp+43 /\
  fieldMagnitude (computeElectricFieldAtPoint p [s]) = 0x1.05a4b8357fffep+43 /\
  PrimFloat.ltb (fieldMagnitude (computeElectricFieldAtPoint p0 [s]))
                (fieldMagnitude (computeElectricFieldAtPoint p [s])) = true.
Proof. vm_compute. repeat split; reflexivity. Qed.

(** The default scene in doubles -- two sources of 1 nC and -1 nC and a
    test charge of 1 pC: no operation of the loops overflows, and the field,
    the force and the potential are finite. *)
Lemma kernel_finite_in_doubles :
  let sources := [source64 (-2) 0 0 nano; source64 2 0 0 (- nano)] in
  let p : Position float := (0, 1, 0) in
  forallb finiteSource sources = true /\
  fieldLoopNoOverflow electric p vzero sources = true /\
  potentialLoopNoOverflow electric p 0 sources = true /\
  finiteVector (computeElectricFieldAtPoint p sources) = true /\
  finiteVector (computeForceOnTestCharge p (e_neg 1 12) electric sources) = true /\
  isFinite (computeElectricPotentialAtPoint p sources) = true.
Proof. vm_compute. repeat split; reflexivity. Qed.

(** C4, at the failing input -- two like charges of [1e-9] at
    [(-0.25, 0, 0)] and [(0.25, 0, 0)], half a scene unit apart (five times
    the minimum-distance floor): the solver returns a point on the x axis
    between the first source and [-0.125], an eighth of a scene unit or more
    away from the origin, where the field it computes is not below the
    refinement tolerance. *)
Lemma like_charges_near_result :
  let sources := [source64 (-0.25) 0 0 nano; source64 0.25 0 0 nano] in
  exists px : float,
    findEquilibriumPoint sources electric = Some (px, 0, 0) /\
    PrimFloat.ltb px (-0.125) = true /\
    PrimFloat.ltb (-0.25) px = true /\
    PrimFloat.ltb (fieldMagnitude (computeElectricFieldAtPoint (px, 0, 0) sources))
                  TOLERANCE = false.
Proof.
  cbv zeta.
  exists (match findEquilibriumPoint
                  [source64 (-0.25) 0 0 nano; source64 0.25 0 0 nano] electric
          with Some (px, _, _) => px | None => 0 end).
  vm_compute. repeat split.
Qed.

(** The same pair one scene unit apart: the solver returns the origin. *)
Lemma like_charges_far_result :
  findEquilibriumPoint [source64 (-0.5) 0 0 nano; source64 0.5 0 0 nano] electric =
    Some (0, 0, 0).
Proof. vm_compute. reflexivity. Qed.

(** C5, at the failing input, in double precision: the x component is
    [200 k] (up to rounding), half of [400 k]. *)
Lemma near_source_in_doubles :
  let E := computeElectricFieldAtPoint (0.5, 0, 0) [source64 0 0 0 1] in
  PrimFloat.ltb (x E) (201 * COULOMB_CONSTANT) = true /\
  PrimFloat.ltb (199 * COULOMB_CONSTANT) (x E) = true /\
  y E = 0 /\ z E = 0.
Proof. vm_compute. repeat split. Qed.

(** With one seed asked for, the height of the only seed is [0 / 0]. *)
Lemma single_seed_height_is_nan : PrimFloat.is_nan (FieldFlow.shellY 1 0) = true.
Proof. vm_compute. reflexivity. Qed.

(** The default grid ([gridSize = 8]): nine values per axis, 729 lattice
    points, every second one kept. *)
Lemma default_grid_size :
  option_map (@length (Position float)) (FieldVectors.generateGridPoints 20 8) = Some 365%nat.
Proof. vm_compute. reflexivity. Qed.

(** A line traced in double precision, from the seed [(0, 6, 0)] around one
    source of 1 nC at the origin: 118 points backward, towards the source,
    and 280 forward, to the bounding box; the seed is at the indices 117,
    118 and 119, and every point passes the three tests of the tracer. *)
Lemma traced_line_in_doubles :
  let sources := [source64 0 0 0 nano] in
  let line := FieldFlow.traceFieldLine (0, 6, 0) sources electric in
  length line = 399%nat /\
  length (FieldFlow.traceInDirection (0, 6, 0) sources electric FieldFlow.backward) = 118%nat /\
  length (FieldFlow.traceInDirection (0, 6, 0) sources electric FieldFlow.forward) = 280%nat /\
  nth_error line 117 = Some (0, 6, 0) /\
  nth_error line 118 = Some (0, 6, 0) /\
  nth_error line 119 = Some (0, 6, 0) /\
  forallb (fun p => negb (stopsAt p sources electric)) line = true.
Proof. vm_compute. repeat split. Qed.

(** In double precision the two conversions of units.ts are not inverse to
    each other: 3 scene units, converted to meters and back, are more than
    3. *)
Lemma doubles_round_trip_inexact :
  let '(p0, p1, p2) := metersToScene (sceneToMeters (3, 0, 0)) in
  PrimFloat.ltb 3 p0 = true /\ p1 = 0 /\ p2 = 0.
Proof. vm_compute. repeat split. Qed.


(** C8, the claim as stated fails -- for [gridSize = 1e17] the first
    value of the loop variable is [-1e17], which is not above [1e17], and
    adding 2 to it gives [-1e17] again: the loops of [generateGridPoints]
    never end, and no list is returned. *)
Lemma huge_grid_never_returns :
  let gridSize : float := lit 100000000000000000 in
  PrimFloat.leb 0 gridSize = true /\
  PrimFloat.leb (- gridSize) gridSize = true /\
  - gridSize + 2 = - gridSize /\
  ~ (exists (fuel : nat) (points : list (Position float)),
       FieldVectors.generateGridPoints fuel gridSize = Some points).
Proof.
  cbv zeta. split; [reflexivity|]. split; [reflexivity|]. split; [reflexivity|].
  intros (fuel & points & H).
  destruct (@generateGridPoints_some _ _ _ _ _ H) as (vs & Hvs & _).
  rewrite forValues_stuck in Hvs; [discriminate Hvs|reflexivity|reflexivity].
Qed.

End Binary64.
